(** * MTG-Draft-Sim: the draft engine of [App.js], embedded and verified

    The React component [App] keeps the draft in a handful of state
    variables and changes them in event handlers.  Each handler is embedded
    as a function from the rendered state to the state React commits after
    the handler ran.  JavaScript numbers are IEEE-754 doubles and are
    modelled by Rocq's primitive floats; [Math.random] is modelled by
    explicit draws handed to the functions that consume randomness. *)

From Stdlib Require Import PrimFloat FloatOps SpecFloat ZArith Ascii String Sorted.
From stdpp Require Import base option list strings gmap pretty.

#[local] Set Warnings "-inexact-float".
Local Open Scope string_scope.
Local Open Scope nat_scope.
Local Open Scope list_scope.
Local Open Scope stdpp_scope.

(** ** JavaScript primitives used by the application *)

Module JS.

(** [hay.includes(needle)] on strings. *)
Fixpoint includes (needle hay : string) : bool :=
  String.prefix needle hay
  || match hay with
     | EmptyString => false
     | String _ hay' => includes needle hay'
     end.

(** Truthiness of a number: everything but [0], [-0] and [NaN]. *)
Definition truthy (x : float) : bool :=
  negb (PrimFloat.is_zero x || PrimFloat.is_nan x).

(** [x || d] on numbers. *)
Definition num_or (x d : float) : float := if truthy x then x else d.

(** Any array, also the empty one, is an object and hence truthy. *)
Definition array_truthy {A} (l : list A) : bool := true.

(** The double nearest to an integer. *)
Definition of_Z (z : Z) : float := SF2Prim (binary_normalize prec emax z 0 false).
Definition of_nat (n : nat) : float := of_Z (Z.of_nat n).

(** [Math.max(a, b)]. *)
Definition max (a b : float) : float :=
  if PrimFloat.is_nan a || PrimFloat.is_nan b then PrimFloat.nan
  else if PrimFloat.ltb a b then b
  else if PrimFloat.ltb b a then a
  else if PrimFloat.get_sign a then b else a.

(** [Math.round(x)]: the integer [floor (x + 1/2)], computed exactly from
    the mantissa and exponent of [x].  [NaN] and the infinities, which the
    callers never produce, are sent to [0]. *)
Definition round (x : float) : Z :=
  match Prim2SF x with
  | S754_finite s m e =>
      let v := if s then Z.neg m else Z.pos m in
      match e with
      | Z0 => v
      | Zpos p => Z.shiftl v (Z.pos p)
      | Zneg p => Z.shiftr (2 * v + Z.shiftl 1 (Z.pos p)) (Z.pos p + 1)
      end
  | _ => 0%Z
  end.

(** Stable sort, as [Array.prototype.sort] is since ES2019.  [gt a b]
    stands for [compare(a, b) > 0]: only then is [a] moved behind [b].
    For a comparator that is no consistent order (a [NaN] difference) the
    standard leaves the order to the engine; the properties below rely on
    the order only where the comparator is consistent. *)
Section Sort.
Context {A : Type} (gt : A → A → bool).

Fixpoint insert_sorted (x : A) (l : list A) : list A :=
  match l with
  | [] => [x]
  | y :: l' => if gt x y then y :: insert_sorted x l' else x :: y :: l'
  end.

Fixpoint sort (l : list A) : list A :=
  match l with
  | [] => []
  | x :: l' => insert_sorted x (sort l')
  end.
End Sort.

End JS.

(** ** Cards *)

(** The colour symbols of a card and of a seat.  The card API uses no
    other symbol; lookups such as [colorCounts[color]] are therefore always
    defined. *)
Inductive Color := W | U | B | R | G.

#[global] Instance Color_eq_dec : EqDecision Color.
Proof. solve_decision. Defined.

Definition colorSymbols : list Color := [W; U; B; R; G].

(** The one-letter string the source uses for a colour. *)
Definition colorLetter (c : Color) : string :=
  match c with W => "W" | U => "U" | B => "B" | R => "R" | G => "G" end.

Module Card.
(** A card object.  [colors], [cmc], [power] and [toughness] may be
    absent ([undefined]) on cards of the card API; the basic lands that
    [suggestLands] makes up have no [rarity] either. *)
Record t := mk {
  id : string;
  name : string;
  rarity : option string;
  colors : option (list Color);
  cmc : option float;
  type_line : string;
  power : option string;
  toughness : option string;
}.
End Card.
Abbreviation Card := Card.t.

(** [card.type_line.includes('Basic Land')] *)
Definition isBasicLand (c : Card) : bool :=
  JS.includes "Basic Land" (Card.type_line c).

(** ** Pack generation *)

(** The randomness one attempt of [generatePack] consumes. *)
Record Draw := {
  mythicRoll : bool;          (* Math.random() < 0.125 *)
  rareRoll : nat;
  uncommonRolls : list nat;
  commonRolls : list nat;
  landRoll : nat;
}.

(** [Math.floor(Math.random() * n)]: any index below [n]. *)
Definition randomIndex (roll n : nat) : nat := roll mod n.

Definition insertAt {A} (k : nat) (x : A) (l : list A) : list A :=
  take k l ++ x :: drop k l.

(** [[...l].sort(() => Math.random() - 0.5)]: some rearrangement of [l],
    which one depends on the engine and on the random numbers.  The rolls
    choose where each element is inserted, so every rearrangement can be
    drawn. *)
Fixpoint shuffle {A} (rolls : list nat) (l : list A) : list A :=
  match l with
  | [] => []
  | x :: l' =>
      let s := shuffle (tail rolls) l' in
      insertAt (hd 0 rolls mod S (length s)) x s
  end.

(** [rarityOrder[key]] *)
Definition rarityOrder (key : option string) : option Z :=
  if decide (key = Some "mythic") then Some 1%Z
  else if decide (key = Some "rare") then Some 2%Z
  else if decide (key = Some "uncommon") then Some 3%Z
  else if decide (key = Some "common") then Some 4%Z
  else if decide (key = Some "land") then Some 5%Z
  else None.

Definition packRarity (c : Card) : option string :=
  if isBasicLand c then Some "land" else Card.rarity c.

(** [rarityOrder[aRarity] - rarityOrder[bRarity] > 0]; a missing key makes
    the difference [NaN], which is not positive. *)
Definition rarityAfter (a b : Card) : bool :=
  match rarityOrder (packRarity a), rarityOrder (packRarity b) with
  | Some x, Some y => (0 <? x - y)%Z
  | _, _ => false
  end.

(** The body of [generatePack] up to [.filter(Boolean)]. *)
Definition packAttempt (d : Draw) (cards : list Card) : list Card :=
  let commons := filter (λ c, Card.rarity c = Some "common") cards in
  let uncommons := filter (λ c, Card.rarity c = Some "uncommon") cards in
  let rares := filter (λ c, Card.rarity c = Some "rare") cards in
  let mythics := filter (λ c, Card.rarity c = Some "mythic") cards in
  let lands := filter (λ c, isBasicLand c) cards in
  let rareOrMythic :=
    if negb (length mythics =? 0) && mythicRoll d then mythics else rares in
  let rareCard :=
    if negb (length rareOrMythic =? 0)
    then rareOrMythic !! randomIndex (rareRoll d) (length rareOrMythic)
    else commons !! randomIndex (rareRoll d) (length commons) in
  let shuffledUncommons := shuffle (uncommonRolls d) uncommons in
  let uncommonCards := take 3 shuffledUncommons in
  let shuffledCommons := shuffle (commonRolls d) commons in
  let commonCards := take 10 shuffledCommons in
  let landCard :=
    if negb (length lands =? 0)
    then lands !! randomIndex (landRoll d) (length lands)
    else commons !! randomIndex (landRoll d) (length commons) in
  omap id (rareCard :: (Some <$> uncommonCards) ++ (Some <$> commonCards) ++ [landCard]).

Definition landCount (pack : list Card) : nat :=
  length (filter (λ c, isBasicLand c) pack).

(** [generatePack(cards)].  Every attempt consumes one draw; the recursion
    of the source has no bound, so the result is [None] when the draws run
    out while the function is still regenerating. *)
Fixpoint generatePack (draws : list Draw) (cards : list Card) : option (list Card) :=
  match draws with
  | [] => None
  | d :: draws' =>
      let pack := packAttempt d cards in
      if negb (landCount pack =? 1) then generatePack draws' cards
      else Some (JS.sort rarityAfter pack)
  end.

(** The template a pack is checked against: 15 cards, one rare or mythic,
    three uncommons, ten commons that are not basic lands, one basic land,
    and no identifier twice. *)
Definition packTemplate (pack : list Card) : Prop :=
  length pack = 15
  ∧ length (filter (λ c, Card.rarity c = Some "rare" ∨ Card.rarity c = Some "mythic") pack) = 1
  ∧ length (filter (λ c, Card.rarity c = Some "uncommon") pack) = 3
  ∧ length (filter (λ c, Card.rarity c = Some "common" ∧ ¬ isBasicLand c) pack) = 10
  ∧ length (filter (λ c, isBasicLand c) pack) = 1
  ∧ NoDup (Card.id <$> pack).

(** ** Seats *)

Module Player.
Record t := mk {
  id : string;
  colors : list Color;
  draftedCards : list Card;
  sideboard : list Card;
  packs : list (list Card);
}.
End Player.
Abbreviation Player := Player.t.

(** ** Scoring *)

Module Stats.
(** A row of the ratings table, as [loadCardStats] stores it. *)
Record t := mk {
  gihwr : float;
  ohwr : float;
  gdwr : float;
  color : string;
}.
End Stats.

(** [parseInt(s)] with no radix; [None] is [NaN]. *)
Module ParseInt.
Definition isWhiteSpace (a : ascii) : bool :=
  let n := nat_of_ascii a in
  (n =? 32) || ((9 <=? n) && (n <=? 13)).

Fixpoint trimStart (s : string) : string :=
  match s with
  | String a s' => if isWhiteSpace a then trimStart s' else s
  | EmptyString => s
  end.

Definition digit (a : ascii) : option Z :=
  let n := nat_of_ascii a in
  if (48 <=? n) && (n <=? 57) then Some (Z.of_nat (n - 48))
  else if (97 <=? n) && (n <=? 122) then Some (Z.of_nat (n - 87))
  else if (65 <=? n) && (n <=? 90) then Some (Z.of_nat (n - 55))
  else None.

Fixpoint digits (radix : Z) (acc : option Z) (s : string) : option Z :=
  match s with
  | String a s' =>
      match digit a with
      | Some d =>
          if (d <? radix)%Z
          then digits radix (Some (default 0 acc * radix + d))%Z s'
          else acc
      | None => acc
      end
  | EmptyString => acc
  end.

Definition unsigned (s : string) : option Z :=
  match s with
  | String "0"%char (String "x"%char s')
  | String "0"%char (String "X"%char s') => digits 16 None s'
  | _ => digits 10 None s
  end.

(** The sign is kept apart from the magnitude: ["-0"] parses to [-0]. *)
Definition parseInt (s : string) : option (bool * Z) :=
  match trimStart s with
  | String "-"%char s' => pair true <$> unsigned s'
  | String "+"%char s' => pair false <$> unsigned s'
  | s' => pair false <$> unsigned s'
  end.
End ParseInt.

(** [parseInt(field) || 0]; an absent field reads as the string
    ["undefined"], which has no digits. *)
Definition parseIntOr0 (field : option string) : float :=
  match ParseInt.parseInt (default "undefined" field) with
  | Some (neg, z) =>
      let v := JS.of_Z z in
      JS.num_or (if neg then - v else v)%float 0
  | None => 0
  end.

(** [colorLetterToName] *)
Definition colorLetterToName (c : string) : string :=
  if decide (c = "W") then "White"
  else if decide (c = "U") then "Blue"
  else if decide (c = "B") then "Black"
  else if decide (c = "R") then "Red"
  else if decide (c = "G") then "Green"
  else c.

(** [[...colors].sort().join('')]: the default sort orders strings by
    their code units. *)
Definition sortedKey (colors : list string) : string :=
  String.concat "" (JS.sort (λ a b, String.ltb b a) colors).

Definition twoColorMap : gmap string string :=
  list_to_map
    [("UW", "Azorius (WU)"); ("UB", "Dimir (UB)"); ("BR", "Rakdos (BR)");
     ("RG", "Gruul (RG)"); ("GW", "Selesnya (GW)"); ("WB", "Orzhov (WB)");
     ("BG", "Golgari (BG)"); ("GU", "Simic (GU)"); ("UR", "Izzet (UR)");
     ("RW", "Boros (RW)")].

Definition fixedThreeColorMap : gmap string string :=
  list_to_map
    [("RUW", "Jeskai (WUR)"); ("BGU", "Sultai (UBG)"); ("BRW", "Mardu (BRW)");
     ("GRU", "Temur (RGU)"); ("BGW", "Abzan (GWB)"); ("GWU", "Bant (GWU)");
     ("BUW", "Esper (WUB)"); ("BUR", "Grixis (UBR)"); ("BGR", "Jund (BRG)");
     ("GRW", "Naya (RGW)")].

(** A template literal prints an absent value as ["undefined"]. *)
Definition interpolate (o : option string) : string := default "undefined" o.

(** [array.includes(x)] on an array of colour letters. *)
Definition includesColor (colors : list Color) (c : string) : bool :=
  existsb (String.eqb c) (colorLetter <$> colors).

Section Scoring.
(** The two statistics tables are state of [App]; no handler of the draft
    changes them. *)
Context (cardStats : gmap string Stats.t) (colorPairStats : gmap string float).

Definition keyCandidates (aiColors : list Color) : list (option string) :=
  let aiKey := sortedKey (colorLetter <$> aiColors) in
  let n := length aiColors in
  (if n =? 1 then
     [Some ("Mono-" +:+ colorLetterToName (interpolate (colorLetter <$> aiColors !! 0)));
      Some "Mono-color"]
     ++ (if 1 <? n then
           [Some ("Mono-" +:+ colorLetterToName (interpolate (colorLetter <$> aiColors !! 0))
                  +:+ " + Splash");
            Some "Mono-color + Splash"]
         else [])
   else [])
  ++ (if n =? 2 then
        [twoColorMap !! aiKey;
         Some (interpolate (twoColorMap !! aiKey) +:+ " + Splash");
         Some "Two-color"; Some "Two-color + Splash"]
      else [])
  ++ (if n =? 3 then
        [fixedThreeColorMap !! aiKey;
         Some (interpolate (fixedThreeColorMap !! aiKey) +:+ " + Splash");
         Some "Three-color"; Some "Three-color + Splash"]
      else [])
  ++ (if n =? 4 then [Some "Four-color"; Some "Four-color + Splash"] else [])
  ++ (if n =? 5 then [Some "Five-color"; Some "All Colors (WUBRG)"] else [])
  ++ [Some "All Decks"].

(** The loop over [keyCandidates]: the first key that is truthy and
    present in the table decides. *)
Fixpoint findWinRate (keys : list (option string)) : option float :=
  match keys with
  | [] => None
  | key :: keys' =>
      match key ≫= (λ k, if decide (k = "") then None else colorPairStats !! k) with
      | Some winRate => Some winRate
      | None => findWinRate keys'
      end
  end.

Definition getColorPairBonus (cardColors : list string) (aiColors : list Color) : float :=
  if (length cardColors =? 0) || (length aiColors =? 0) then 0%float
  else
    let cardFitsColors := forallb (includesColor aiColors) cardColors in
    if negb cardFitsColors then 0%float
    else
      match findWinRate (keyCandidates aiColors) with
      | None => 0
      | Some winRate => (winRate - 50) * 0.5
      end%float.

Definition rarityMap (key : option string) : option float :=
  if decide (key = Some "mythic") then Some 10%float
  else if decide (key = Some "rare") then Some 8%float
  else if decide (key = Some "uncommon") then Some 5%float
  else if decide (key = Some "common") then Some 3%float
  else None.

(** The branch of [calculateCardScore] taken when [stats.gihwr] is truthy. *)
Definition winRateScore (stats : Stats.t) : float :=
  let statsScore := (0 + Stats.gihwr stats * 1.5)%float in
  let statsScore :=
    if JS.truthy (Stats.ohwr stats)
    then (statsScore + Stats.ohwr stats * 0.8)%float else statsScore in
  if JS.truthy (Stats.gdwr stats)
  then (statsScore + Stats.gdwr stats * 0.7)%float else statsScore.

(** The fallback branch: rarity, mana value and card type. *)
Definition fallbackScore (card : Card) : float :=
  let rarityScore := default 1%float (rarityMap (Card.rarity card)) in
  let cmc := JS.num_or (default 0%float (Card.cmc card)) 0 in
  let cmcScore := JS.max (10 - cmc) 0 in
  let typeScore :=
    if JS.includes "Creature" (Card.type_line card) then
      let power := parseIntOr0 (Card.power card) in
      let toughness := parseIntOr0 (Card.toughness card) in
      (0 + (power + toughness) / 2 + 2)%float
    else if JS.includes "Instant" (Card.type_line card)
            || JS.includes "Sorcery" (Card.type_line card) then (0 + 4)%float
    else if JS.includes "Artifact" (Card.type_line card)
            || JS.includes "Enchantment" (Card.type_line card) then (0 + 3)%float
    else 0%float in
  (rarityScore + cmcScore + typeScore)%float.

(** [statsColor.split('')] *)
Definition splitChars (s : string) : list string :=
  (λ a, String a EmptyString) <$> list_ascii_of_string s.

(** [statsColor.split('') || cardColors]: the left operand is an array. *)
Definition cardColorInfo (stats : option Stats.t) (card : Card) : list string :=
  let cardColors := default [] (Card.colors card) in
  let statsColor := default "" (Stats.color <$> stats) in
  if JS.array_truthy (splitChars statsColor) then splitChars statsColor
  else colorLetter <$> cardColors.

Definition colorScore (info : list string) (aiColors : list Color) : float :=
  if length info =? 0 then (0 + 3)%float
  else
    let matched :=
      foldl (λ score color,
               if includesColor aiColors color then (score + 5)%float else score)
            0%float info in
    if forallb (includesColor aiColors) info then (matched + 3)%float else matched.

Definition calculateCardScore (card : Card) (aiPlayer : Player) : float :=
  let stats := cardStats !! Card.name card in
  let hasGihwr := default false (JS.truthy ∘ Stats.gihwr <$> stats) in
  let statsScore :=
    match stats with
    | Some st => if JS.truthy (Stats.gihwr st) then winRateScore st else fallbackScore card
    | None => fallbackScore card
    end in
  let info := cardColorInfo stats card in
  let colorScore := colorScore info (Player.colors aiPlayer) in
  let colorPairBonus := getColorPairBonus info (Player.colors aiPlayer) in
  if hasGihwr
  then (statsScore + colorScore * 1.5 + colorPairBonus)%float
  else (statsScore + colorScore + colorPairBonus)%float.

(** [aiPickCard]: the head of the pack sorted by descending score. *)
Definition aiPickCard (pack : list Card) (aiPlayer : Player) : option Card :=
  if length pack =? 0 then None
  else
    head (JS.sort (λ a b,
                     let aScore := calculateCardScore a aiPlayer in
                     let bScore := calculateCardScore b aiPlayer in
                     (0 <? bScore - aScore)%float) pack).
End Scoring.

(** ** Colour affinity *)

(** [colorCounts[color]++] *)
Definition bump (counts : list (Color * nat)) (color : Color) : list (Color * nat) :=
  (λ entry, if decide (entry.1 = color) then (entry.1, S entry.2) else entry) <$> counts.

(** The two loops that fill [colorCounts]. *)
Definition countColors (deck : list Card) : list (Color * nat) :=
  foldl (λ counts card, foldl bump counts (default [] (Card.colors card)))
        ((λ c, (c, 0)) <$> colorSymbols) deck.

(** [Object.entries(colorCounts).sort(...).map(...).slice(0, 2)] *)
Definition sortedColors (draftedCards : list Card) : list Color :=
  take 2 (fst <$> JS.sort (λ a b, 0 <? b.2 - a.2) (countColors draftedCards)).

Definition updatePlayerColors (player : Player) : Player :=
  let sorted := sortedColors (Player.draftedCards player) in
  Player.mk (Player.id player)
    (if 0 <? length sorted then sorted else Player.colors player)
    (Player.draftedCards player) (Player.sideboard player) (Player.packs player).


(** ** Application state *)

Module Snapshot.
(** An entry of [draftHistory]. *)
Record t := mk {
  players : list Player;
  packIndex : nat;
}.
End Snapshot.

Module App.
(** The state variables of [App] the draft engine reads or writes. *)
Record t := mk {
  cards : list Card;
  players : list Player;
  currentRound : nat;
  currentPackIndex : nat;
  draftComplete : bool;
  selectedSet : string;
  loadingCards : bool;
  draftHistory : list Snapshot.t;
  suggestedCardId : option string;
  builtDeck : list Card;
}.

Definition initial : t :=
  mk [] [] 1 0 false "dmu" false [] None [].

Definition setPlayers (ps : list Player) (st : t) : t :=
  mk (cards st) ps (currentRound st) (currentPackIndex st) (draftComplete st)
     (selectedSet st) (loadingCards st) (draftHistory st) (suggestedCardId st)
     (builtDeck st).
Definition setCurrentRound (r : nat) (st : t) : t :=
  mk (cards st) (players st) r (currentPackIndex st) (draftComplete st)
     (selectedSet st) (loadingCards st) (draftHistory st) (suggestedCardId st)
     (builtDeck st).
Definition setCurrentPackIndex (i : nat) (st : t) : t :=
  mk (cards st) (players st) (currentRound st) i (draftComplete st)
     (selectedSet st) (loadingCards st) (draftHistory st) (suggestedCardId st)
     (builtDeck st).
Definition setDraftComplete (b : bool) (st : t) : t :=
  mk (cards st) (players st) (currentRound st) (currentPackIndex st) b
     (selectedSet st) (loadingCards st) (draftHistory st) (suggestedCardId st)
     (builtDeck st).
Definition setDraftHistory (h : list Snapshot.t) (st : t) : t :=
  mk (cards st) (players st) (currentRound st) (currentPackIndex st)
     (draftComplete st) (selectedSet st) (loadingCards st) h
     (suggestedCardId st) (builtDeck st).
Definition setSuggestedCardId (s : option string) (st : t) : t :=
  mk (cards st) (players st) (currentRound st) (currentPackIndex st)
     (draftComplete st) (selectedSet st) (loadingCards st) (draftHistory st) s
     (builtDeck st).
Definition setBuiltDeck (d : list Card) (st : t) : t :=
  mk (cards st) (players st) (currentRound st) (currentPackIndex st)
     (draftComplete st) (selectedSet st) (loadingCards st) (draftHistory st)
     (suggestedCardId st) d.
Definition setCards (cs : list Card) (st : t) : t :=
  mk cs (players st) (currentRound st) (currentPackIndex st)
     (draftComplete st) (selectedSet st) (loadingCards st) (draftHistory st)
     (suggestedCardId st) (builtDeck st).
Definition setLoadingCards (b : bool) (st : t) : t :=
  mk (cards st) (players st) (currentRound st) (currentPackIndex st)
     (draftComplete st) (selectedSet st) b (draftHistory st)
     (suggestedCardId st) (builtDeck st).
Definition setSelectedSet (code : string) (st : t) : t :=
  mk (cards st) (players st) (currentRound st) (currentPackIndex st)
     (draftComplete st) code (loadingCards st) (draftHistory st)
     (suggestedCardId st) (builtDeck st).
End App.

(** What a handler leaves behind: it returns, or it throws a [TypeError]
    on an absent seat or pack.  Either way React commits the state updates
    the handler had queued by then. *)
Inductive Outcome :=
  | Returned (st : App.t)
  | Threw (st : App.t).

Definition committed (o : Outcome) : App.t :=
  match o with Returned st | Threw st => st end.

(** ** Packs of a seat *)

(** [player.packs[round - 1]]; index [-1] holds nothing. *)
Definition packAt (player : Player) (round : nat) : option (list Card) :=
  match round with
  | 0 => None
  | S r => Player.packs player !! r
  end.

(** [player.packs[round - 1] = pack], reached only after the same index
    was read. *)
Definition setPack (player : Player) (round : nat) (pack : list Card) : Player :=
  match round with
  | 0 => player
  | S r =>
      Player.mk (Player.id player) (Player.colors player)
        (Player.draftedCards player) (Player.sideboard player)
        (<[r := pack]> (Player.packs player))
  end.

Definition setDraftedCards (player : Player) (drafted : list Card) : Player :=
  Player.mk (Player.id player) (Player.colors player) drafted
    (Player.sideboard player) (Player.packs player).

(** ** The pass protocol *)

(** The repair at the end of [passPacks].  [extraLands.includes(card)]
    compares object identities.  The basic lands of one pack are distinct
    objects ([generatePack] returns no pack with two basic lands, and
    [JSON.parse] makes one object per entry), so an entry is identified by
    its position in the pack. *)
Definition trimLands (pack : list Card) : list Card :=
  if 1 <? landCount pack then
    let entries := imap pair pack in
    let extraLands := drop 1 (filter (λ entry, isBasicLand entry.2) entries) in
    (filter (λ entry, entry.1 ∉ extraLands.*1) entries).*2
  else pack.

(** [nextIndex]; [index - 1 + n] is written [index + n - 1] to stay within
    the naturals. *)
Definition nextIndex (direction : string) (index n : nat) : nat :=
  if decide (direction = "left") then (index + 1) mod n
  else (index + n - 1) mod n.

(** [passPacks(players, round)]; [None] when a [TypeError] is thrown. *)
Definition passPacks (players : list Player) (round : nat) : option (list Player) :=
  let direction := if round mod 2 =? 1 then "left" else "right" in
  currentPacks ← mapM (λ player, packAt player round) players;
  mapM (λ entry : nat * Player,
          received ← currentPacks !! nextIndex direction entry.1 (length players);
          Some (setPack entry.2 round (trimLands received)))
       (imap pair players).

(** ** Picking *)

(** [JSON.parse(JSON.stringify(x))] on a number: [NaN] and the infinities
    come back as [null], [-0] as [0]. *)
Definition jsonNumber (x : float) : option float :=
  if PrimFloat.is_nan x || PrimFloat.is_infinity x then None
  else if PrimFloat.is_zero x && PrimFloat.get_sign x then Some 0%float
  else Some x.

Definition jsonCard (c : Card) : Card :=
  Card.mk (Card.id c) (Card.name c) (Card.rarity c) (Card.colors c)
    (Card.cmc c ≫= jsonNumber) (Card.type_line c) (Card.power c) (Card.toughness c).

Definition jsonPlayer (p : Player) : Player :=
  Player.mk (Player.id p) (Player.colors p) (jsonCard <$> Player.draftedCards p)
    (jsonCard <$> Player.sideboard p) (fmap (M:=list) jsonCard <$> Player.packs p).

(** [l.slice(-n)] and [l.slice(0, -1)] *)
Definition lastN {A} (n : nat) (l : list A) : list A := drop (length l - n) l.
Definition dropLast {A} (l : list A) : list A := take (length l - 1) l.

(** [pack.filter((c) => c.id !== card.id)] *)
Definition removeCard (card : Card) (pack : list Card) : list Card :=
  filter (λ c, Card.id c ≠ Card.id card) pack.

(** A seat drafts [card] out of [pack], its pack of this round. *)
Definition draftCard (round : nat) (card : Card) (pack : list Card) (player : Player) : Player :=
  updatePlayerColors
    (setPack (setDraftedCards player (Player.draftedCards player ++ [card]))
             round (removeCard card pack)).

Section Draft.
Context (cardStats : gmap string Stats.t) (colorPairStats : gmap string float).

(** The body of the loop over the AI seats. *)
Definition aiTurn (round : nat) (aiPlayer : Player) : option Player :=
  aiPack ← packAt aiPlayer round;
  if 0 <? length aiPack then
    match aiPickCard cardStats colorPairStats aiPack aiPlayer with
    | Some aiCard => Some (draftCard round aiCard aiPack aiPlayer)
    | None => Some aiPlayer
    end
  else Some aiPlayer.

(** [handlePick] from the copy of the seats up to [passPacks]. *)
Definition pickTurn (players : list Player) (round : nat) (card : Card)
    : option (list Player) :=
  match players with
  | [] => None
  | humanPlayer :: aiPlayers =>
      currentPack ← packAt humanPlayer round;
      let humanPlayer := draftCard round card currentPack humanPlayer in
      aiPlayers ← mapM (aiTurn round) aiPlayers;
      passPacks (humanPlayer :: aiPlayers) round
  end.

(** [updatedPlayers.every(...)]; every seat has its pack after
    [passPacks]. *)
Definition allPacksEmpty (players : list Player) (round : nat) : option bool :=
  forallb (λ pack : list Card, length pack =? 0)
    <$> mapM (λ player, packAt player round) players.

Definition handlePick (st : App.t) (card : Card) : Outcome :=
  let currentState :=
    Snapshot.mk (jsonPlayer <$> App.players st) (App.currentPackIndex st) in
  let pushed := App.setDraftHistory (lastN 5 (App.draftHistory st ++ [currentState])) st in
  let currentRound := App.currentRound st in
  match pickTurn (App.players st) currentRound card with
  | None => Threw pushed
  | Some updatedPlayers =>
      match allPacksEmpty updatedPlayers currentRound with
      | None => Threw pushed
      | Some empty =>
          let progressed :=
            if empty then
              if currentRound <? 3 then
                App.setDraftHistory []
                  (App.setCurrentPackIndex 0
                     (App.setCurrentRound (currentRound + 1) pushed))
              else App.setDraftHistory [] (App.setDraftComplete true pushed)
            else App.setCurrentPackIndex (App.currentPackIndex st + 1) pushed in
          Returned (App.setPlayers updatedPlayers (App.setSuggestedCardId None progressed))
      end
  end.

(** The handler of the "Undo Pick" button. *)
Definition undoClick (st : App.t) : App.t :=
  if 0 <? length (App.draftHistory st) then
    match last (App.draftHistory st) with
    | Some lastState =>
        App.setDraftHistory (dropLast (App.draftHistory st))
          (App.setCurrentPackIndex (Snapshot.packIndex lastState)
             (App.setPlayers (Snapshot.players lastState) st))
    | None => st
    end
  else st.

(** [handleUndo]: the same through [draftHistory.pop()]. *)
Definition handleUndo (st : App.t) : App.t :=
  if length (App.draftHistory st) =? 0 then st
  else
    match last (App.draftHistory st) with
    | Some lastState =>
        let popped := dropLast (App.draftHistory st) in
        App.setDraftHistory popped
          (App.setCurrentPackIndex (Snapshot.packIndex lastState)
             (App.setPlayers (Snapshot.players lastState) st))
    | None => st
    end.

(** The pack is on screen, and with it the cards that can be clicked and
    both buttons, only while this holds. *)
Definition packRendered (st : App.t) : bool :=
  negb (App.loadingCards st) && negb (App.draftComplete st)
  && match head (App.players st) ≫= (λ human, packAt human (App.currentRound st)) with
     | Some pack => 0 <? length pack
     | None => false
     end.

(** A pick of [card] as the interface issues it.  [handlePick] is handed
    to [Pack] as [onPick] and to nothing else, and [Pack] is mounted only
    while [packRendered] holds: then a click on a card runs [handlePick]
    with the card that [Pack] passes; while no pack is mounted no handler
    runs. *)
Definition clickCard (st : App.t) (card : Card) : Outcome :=
  if packRendered st then handlePick st card else Returned st.

(** The handler of the "Suggest Pick" button. *)
Definition suggestPick (st : App.t) : App.t :=
  match head (App.players st) with
  | None => st
  | Some humanPlayer =>
      match packAt humanPlayer (App.currentRound st) with
      | None => st
      | Some currentPack =>
          if 0 <? length currentPack then
            match aiPickCard cardStats colorPairStats currentPack humanPlayer with
            | Some suggested =>
                if bool_decide (App.suggestedCardId st = Some (Card.id suggested))
                then App.setSuggestedCardId None st
                else App.setSuggestedCardId (Some (Card.id suggested)) st
            | None => st
            end
          else st
      end
  end.
End Draft.


(** ** Starting a draft *)

(** The randomness [initializeDraft] consumes: one roll per AI seat for its
    first colour, and the draws of the 24 calls of [generatePack]. *)
Record Seed := {
  colorRolls : list nat;
  packDraws : list (list Draw);
}.

Definition initializeAIOpponents (rolls : list nat) (numOpponents : nat) : list Player :=
  (λ i, Player.mk ("AI_" +:+ pretty (i + 1))
          [default W (colorSymbols !! randomIndex (default 0 (rolls !! i)) (length colorSymbols))]
          [] [] [])
  <$> seq 0 numOpponents.

Definition initializeDraft (seed : Seed) (cards : list Card) : option (list Player) :=
  let aiOpponents := initializeAIOpponents (colorRolls seed) 7 in
  let humanPlayer := Player.mk "human" [] [] [] [] in
  let allPlayers := humanPlayer :: aiOpponents in
  let draws k := default [] (packDraws seed !! k) in
  mapM (λ entry : nat * Player,
          p1 ← generatePack (draws (3 * entry.1)) cards;
          p2 ← generatePack (draws (3 * entry.1 + 1)) cards;
          p3 ← generatePack (draws (3 * entry.1 + 2)) cards;
          Some (Player.mk (Player.id entry.2) (Player.colors entry.2)
                  (Player.draftedCards entry.2) (Player.sideboard entry.2) [p1; p2; p3]))
       (imap pair allPlayers).

(** The set selector changed: what the two effects on [selectedSet] do
    before the card request is answered.  Both are guarded by
    [if (selectedSet)], which an empty code fails. *)
Definition changeSet (code : string) (st : App.t) : App.t :=
  let st := App.setSelectedSet code st in
  if decide (code = "") then st
  else
    App.setDraftComplete false
      (App.setCurrentPackIndex 0
         (App.setCurrentRound 1
            (App.setDraftHistory []
               (App.setPlayers []
                  (App.setCards [] (App.setLoadingCards true st)))))).

(** The card request was answered with [allCards].  When [generatePack]
    regenerates until the draws, that is the call stack, are used up, its
    [RangeError] is caught by [fetchCards] and no seats are set. *)
Definition cardsFetched (seed : Seed) (allCards : list Card) (st : App.t) : App.t :=
  if length allCards =? 0 then App.setLoadingCards false st
  else
    match initializeDraft seed allCards with
    | Some players =>
        App.setLoadingCards false (App.setPlayers players (App.setCards allCards st))
    | None => App.setLoadingCards false (App.setCards allCards st)
    end.

(** ** Drafted cards and sideboard *)

Definition cmcOr0 (c : Card) : float := JS.num_or (default 0%float (Card.cmc c)) 0.

(** [card.colors?.[0] || ''] *)
Definition firstColor (c : Card) : string :=
  default "" (colorLetter <$> (Card.colors c ≫= head)).

(** The comparator of [sortDraftDeck] and [sortDeck] is positive. *)
Definition sortsAfter (criteria : string) (a b : Card) : bool :=
  if decide (criteria = "cmc") then (0 <? cmcOr0 a - cmcOr0 b)%float
  else if decide (criteria = "color") then String.ltb (firstColor b) (firstColor a)
  else false.

(** [players.map((p, i) => i === 0 ? f(p) : p)] *)
Definition mapHuman (f : Player → Player) (players : list Player) : list Player :=
  imap (λ i p, if i =? 0 then f p else p) players.

Definition sortDraftDeck (criteria : string) (st : App.t) : App.t :=
  App.setPlayers
    (mapHuman (λ p, setDraftedCards p (JS.sort (sortsAfter criteria) (Player.draftedCards p)))
              (App.players st)) st.

Definition moveToSideboard (card : Card) (st : App.t) : App.t :=
  App.setPlayers
    (mapHuman (λ p, Player.mk (Player.id p) (Player.colors p)
                      (removeCard card (Player.draftedCards p))
                      (Player.sideboard p ++ [card]) (Player.packs p))
              (App.players st)) st.

Definition moveFromSideboard (card : Card) (st : App.t) : App.t :=
  App.setPlayers
    (mapHuman (λ p, Player.mk (Player.id p) (Player.colors p)
                      (Player.draftedCards p ++ [card])
                      (removeCard card (Player.sideboard p)) (Player.packs p))
              (App.players st)) st.

(** ** Deck builder *)

Definition addToDeck (card : Card) (builtDeck : list Card) : list Card :=
  if negb (existsb (λ c, bool_decide (Card.id c = Card.id card)) builtDeck)
  then builtDeck ++ [card] else builtDeck.

Definition removeFromDeck (card : Card) (builtDeck : list Card) : list Card :=
  removeCard card builtDeck.

Definition sortDeck (criteria : string) (builtDeck : list Card) : list Card :=
  JS.sort (sortsAfter criteria) builtDeck.

Definition landName (color : Color) : string :=
  match color with
  | W => "Plains" | U => "Island" | B => "Swamp" | R => "Mountain" | G => "Forest"
  end.

(** The object pushed in the inner loop of [suggestLands]. *)
Definition basicLand (color : Color) (i : nat) : Card :=
  Card.mk ("basic-" +:+ colorLetter color +:+ "-" +:+ pretty i) (landName color)
    None (Some [color]) None "Basic Land" None None.

Definition totalLandsNeeded : float := 17.

(** [colorCounts[color]] *)
Definition countOf (counts : list (Color * nat)) (color : Color) : nat :=
  default 0 ((λ found, found.2.2) <$> list_find (λ entry, entry.1 = color) counts).

(** [Math.round((colorCounts[color] / totalColors) * totalLandsNeeded)] *)
Definition landsOf (counts : list (Color * nat)) (totalColors : nat) (color : Color) : nat :=
  Z.to_nat (JS.round (JS.of_nat (countOf counts color) / JS.of_nat totalColors
                      * totalLandsNeeded)%float).

(** The lands [suggestLands] makes up.  The counts are small integers,
    which doubles hold exactly; they are kept in [nat] up to the division. *)
Definition suggestedLands (builtDeck : list Card) : list Card :=
  let colorCounts := countColors builtDeck in
  let sum := foldl (λ sum entry, sum + entry.2) 0 colorCounts in
  let totalColors := if sum =? 0 then 1 else sum in
  concat ((λ color, basicLand color <$> seq 0 (landsOf colorCounts totalColors color))
          <$> colorSymbols).

Definition suggestLands (builtDeck : list Card) : list Card :=
  builtDeck ++ suggestedLands builtDeck.

(** ** The state machine *)

Section Machine.
Context (cardStats : gmap string Stats.t) (colorPairStats : gmap string float).

(** One event of the application.  Every handler may run in every state:
    the interface issues fewer events (a pick only through [clickCard]), so
    the states it reaches are among the reachable ones. *)
Inductive step : App.t → App.t → Prop :=
  | step_pick st card :
      step st (committed (handlePick cardStats colorPairStats st card))
  | step_undoClick st : step st (undoClick st)
  | step_handleUndo st : step st (handleUndo st)
  | step_suggestPick st : step st (suggestPick cardStats colorPairStats st)
  | step_changeSet st code : step st (changeSet code st)
  | step_cardsFetched st seed allCards : step st (cardsFetched seed allCards st)
  | step_sortDraftDeck st criteria : step st (sortDraftDeck criteria st)
  | step_moveToSideboard st card : step st (moveToSideboard card st)
  | step_moveFromSideboard st card : step st (moveFromSideboard card st)
  | step_addToDeck st card :
      step st (App.setBuiltDeck (addToDeck card (App.builtDeck st)) st)
  | step_removeFromDeck st card :
      step st (App.setBuiltDeck (removeFromDeck card (App.builtDeck st)) st)
  | step_sortDeck st criteria :
      step st (App.setBuiltDeck (sortDeck criteria (App.builtDeck st)) st)
  | step_suggestLands st :
      step st (App.setBuiltDeck (suggestLands (App.builtDeck st)) st).

Definition reachable : App.t → Prop := rtc step App.initial.
End Machine.


(** ** JSON values *)

(** The numbers [JSON.stringify] and [JSON.parse] hand back unchanged. *)
Definition jsonSafe (x : float) : bool :=
  negb (PrimFloat.is_nan x || PrimFloat.is_infinity x
        || (PrimFloat.is_zero x && PrimFloat.get_sign x)).

Definition jsonSafeCard (c : Card) : bool :=
  match Card.cmc c with
  | Some x => jsonSafe x
  | None => true
  end.

Definition jsonSafePlayer (p : Player) : bool :=
  forallb jsonSafeCard (Player.draftedCards p)
  && forallb jsonSafeCard (Player.sideboard p)
  && forallb (forallb jsonSafeCard) (Player.packs p).

(** ** Sample data *)

Module Sample.
Definition card (id rarity type_line : string) (colors : list Color) : Card :=
  Card.mk id id (Some rarity) (Some colors) (Some 2%float) type_line None None.

Definition numbered (prefix rarity type_line : string) (colors : list Color) (n : nat)
    : list Card :=
  (λ i, card (prefix +:+ pretty i) rarity type_line colors) <$> seq 0 n.

(** A pool that just fills the template; its basic land is a common. *)
Definition pool : list Card :=
  numbered "rare-" "rare" "Sorcery" [R] 1
  ++ numbered "uncommon-" "uncommon" "Instant" [U] 3
  ++ numbered "common-" "common" "Creature" [W] 10
  ++ numbered "land-" "common" "Basic Land - Forest" [] 1.

(** The same pool with a basic land of rarity uncommon. *)
Definition uncommonLandPool : list Card :=
  numbered "rare-" "rare" "Sorcery" [R] 1
  ++ numbered "uncommon-" "uncommon" "Instant" [U] 3
  ++ numbered "common-" "common" "Creature" [W] 10
  ++ numbered "land-" "uncommon" "Basic Land - Forest" [] 1.

(** Rolls that leave every list in its order and pick every first entry. *)
Definition draw : Draw :=
  {| mythicRoll := false; rareRoll := 0; uncommonRolls := [];
     commonRolls := []; landRoll := 0 |}.

Definition seed : Seed :=
  {| colorRolls := [0; 1; 2; 3; 4; 0; 1]; packDraws := replicate 24 [draw] |}.

(** The draft as it stands when the cards of [pool] have arrived. *)
Definition draftStart : App.t :=
  cardsFetched seed pool (changeSet "dmu" App.initial).

(** Eight seats that hold one card each in every round. *)
Definition seat (i : nat) : Player :=
  let c := card ("card-" +:+ pretty i) "common" "Creature" [W] in
  Player.mk ("seat-" +:+ pretty i) [] [] [] [[c]; [c]; [c]].

Definition table : list Player := seat <$> seq 0 8.



(** The fifteenth pick of the first round is about to be made. *)
Definition lastPick : App.t :=
  App.mk [] table 1 14 false "dmu" false [] None [].

(** A click on the first card of the pack on screen, with no statistics
    loaded. *)
Definition pickFirst (st : App.t) : App.t :=
  match (head (App.players st) ≫= λ human, packAt human (App.currentRound st)) ≫= head with
  | Some card => committed (handlePick ∅ ∅ st card)
  | None => st
  end.

Definition afterPicks (n : nat) : App.t := Nat.iter n pickFirst draftStart.

Definition whiteCard : Card :=
  Card.mk "w-1" "White Card" (Some "common") (Some [W]) (Some 2%float) "Creature" None None.

Definition whiteBlueSeat : Player := Player.mk "AI_1" [W; U] [] [] [].

Definition redGreenSeat : Player := Player.mk "AI_2" [R; G] [] [] [].

(** A ratings row without a games-in-hand win rate. *)
Definition unratedWhite : gmap string Stats.t :=
  {[ "White Card" := Stats.mk 0 0 0 "W" ]}.

(** The same row without a colour. *)
Definition unratedNoColour : gmap string Stats.t :=
  {[ "White Card" := Stats.mk 0 0 0 "" ]}.

(** A card without a [colors] field, and a row for it that records colour
    W and no games-in-hand win rate. *)
Definition plainCard : Card :=
  Card.mk "p-1" "Plain Card" (Some "common") None (Some 2%float) "Creature" None None.

Definition unratedPlain : gmap string Stats.t :=
  {[ "Plain Card" := Stats.mk 0 0 0 "W" ]}.

Definition colored (id : string) (colors : list Color) : Card :=
  Card.mk id id (Some "common") (Some colors) (Some 2%float) "Creature" None None.

Definition whiteBlueDeck : list Card :=
  [colored "a" [W]; colored "b" [W]; colored "c" [U]; colored "d" [U]].

Definition redDeck : list Card :=
  [colored "a" [R]; colored "b" [R]; colored "c" [R]].
End Sample.

(** ** Notions used in the statements of the properties *)

(** The rarities [generatePack] draws from, and the basic lands. *)
Definition knownRarity (c : Card) : Prop :=
  isBasicLand c ∨ Card.rarity c = Some "mythic" ∨ Card.rarity c = Some "rare"
  ∨ Card.rarity c = Some "uncommon" ∨ Card.rarity c = Some "common".


(** A pack with its basic lands beyond the first removed, by recursion on
    the pack: the pack that the repair after a pass is to leave. *)
Fixpoint firstLandOnly (pack : list Card) : list Card :=
  match pack with
  | [] => []
  | c :: rest =>
      if isBasicLand c then c :: filter (λ c, ¬ isBasicLand c) rest
      else c :: firstLandOnly rest
  end.

(** A seat as [initializeDraft] sets it up: at most two colours, three
    packs, none of them with two basic lands. *)
Definition seatOk (p : Player) : Prop :=
  length (Player.colors p) ≤ 2
  ∧ length (Player.packs p) = 3
  ∧ Forall (λ pack, landCount pack ≤ 1) (Player.packs p).

(** No seats before the cards have arrived, eight afterwards. *)
Definition tableOk (players : list Player) : Prop :=
  (length players = 0 ∨ length players = 8) ∧ Forall seatOk players.

Definition draftOk (st : App.t) : Prop :=
  tableOk (App.players st)
  ∧ Forall (λ snapshot, tableOk (Snapshot.players snapshot)) (App.draftHistory st)
  ∧ 1 ≤ App.currentRound st ≤ 3
  ∧ (App.draftComplete st = true → App.currentRound st = 3).

(** The cards of [cards] are clicked one after the other. *)
Definition picks (cardStats : gmap string Stats.t) (colorPairStats : gmap string float)
    (st : App.t) (cards : list Card) : App.t :=
  foldl (λ st card, committed (handlePick cardStats colorPairStats st card)) st cards.

(** The card with another [colors] field. *)
Definition withColors (colors : option (list Color)) (c : Card) : Card :=
  Card.mk (Card.id c) (Card.name c) (Card.rarity c) colors (Card.cmc c)
    (Card.type_line c) (Card.power c) (Card.toughness c).

(** The two-colour pairs whose sorted letters are no key of [twoColorMap]. *)
Definition unlistedPair (a b : Color) : bool :=
  match a, b with
  | U, B | B, U | R, G | G, R | W, B | B, W | U, R | R, U => true
  | _, _ => false
  end.

(** How often [color] occurs among the colours of the cards of [deck]. *)
Definition occurrences (color : Color) (deck : list Card) : nat :=
  length (filter (λ c, c = color) (deck ≫= λ card, default [] (Card.colors card))).

(** The cards at the table in a round: what the seats have drafted and
    what is in their packs of the round. *)
Definition cardsInPlay (players : list Player) (round : nat) : list Card :=
  players ≫= λ p, Player.draftedCards p ++ default [] (packAt p round).

(** * Properties *)

(** ** Lists, shuffles and the stable sort *)

Lemma insertAt_Permutation {A} k (x : A) l : insertAt k x l ≡ₚ x :: l.
Proof.
  unfold insertAt. rewrite <- Permutation_middle.
  by rewrite take_drop.
Qed.

Lemma shuffle_Permutation {A} rolls (l : list A) : shuffle rolls l ≡ₚ l.
Proof.
  revert rolls. induction l as [|x l IH]; intros rolls; simpl; [done|].
  rewrite insertAt_Permutation. by rewrite IH.
Qed.

Lemma insertAt_middle {A} (x : A) l1 l2 :
  insertAt (length l1 mod S (length (l1 ++ l2))) x (l1 ++ l2) = l1 ++ x :: l2.
Proof.
  rewrite Nat.mod_small by (rewrite length_app; lia).
  unfold insertAt. by rewrite take_app_length, drop_app_length.
Qed.

(** Every rearrangement of a list is the shuffle for some rolls. *)
Lemma shuffle_reaches {A} (l l' : list A) : l ≡ₚ l' → ∃ rolls, shuffle rolls l = l'.
Proof.
  revert l'. induction l as [|x l IH]; intros l' Hp.
  - apply Permutation_nil_l in Hp. subst l'. exists nil. reflexivity.
  - assert (x ∈ l') as (l1 & l2 & ->)%list_elem_of_split.
    { rewrite <- Hp. left. }
    apply Permutation_cons_app_inv in Hp.
    destruct (IH _ Hp) as [rolls Hrolls].
    exists (length l1 :: rolls). simpl. rewrite Hrolls. apply insertAt_middle.
Qed.

Lemma filter_and {A} (P Q : A → Prop)
    `{∀ x, Decision (P x)} `{∀ x, Decision (Q x)} (l : list A) :
  filter (λ x, P x ∧ Q x) l = filter Q (filter P l).
Proof.
  induction l as [|x l IH]; [done|].
  rewrite (filter_cons P). destruct (decide (P x)) as [HP|HP].
  - rewrite (filter_cons Q), (filter_cons (λ x, P x ∧ Q x)).
    destruct (decide (Q x)) as [HQ|HQ].
    + rewrite decide_True by done. by rewrite IH.
    + rewrite decide_False by tauto. done.
  - rewrite filter_cons_False by tauto. done.
Qed.

Lemma insert_sorted_Permutation {A} (gt : A → A → bool) x l :
  JS.insert_sorted gt x l ≡ₚ x :: l.
Proof.
  induction l as [|y l IH]; simpl; [done|].
  destruct (gt x y); [|done].
  rewrite IH. apply Permutation_swap.
Qed.

Lemma sort_Permutation {A} (gt : A → A → bool) l : JS.sort gt l ≡ₚ l.
Proof.
  induction l as [|x l IH]; simpl; [done|].
  rewrite insert_sorted_Permutation. by rewrite IH.
Qed.

(** For a comparator that never puts two elements behind each other, the
    result is in order: no element is followed by one it belongs behind. *)
Lemma insert_sorted_HdRel {A} (gt : A → A → bool) a x l :
  HdRel (λ a b, gt a b = false) a l → gt a x = false →
  HdRel (λ a b, gt a b = false) a (JS.insert_sorted gt x l).
Proof.
  intros Hhd Hax. destruct l as [|y l]; simpl; [by constructor|].
  destruct (gt x y); constructor; [|done]. by inversion Hhd.
Qed.

Lemma insert_sorted_Sorted {A} (gt : A → A → bool) x l :
  (∀ a b, gt a b = true → gt b a = false) →
  Sorted (λ a b, gt a b = false) l →
  Sorted (λ a b, gt a b = false) (JS.insert_sorted gt x l).
Proof.
  intros Hasym. induction 1 as [|y l Hsorted IH Hhd]; simpl.
  - by repeat constructor.
  - destruct (gt x y) eqn:Hxy.
    + constructor; [done|]. apply insert_sorted_HdRel; auto.
    + by repeat constructor.
Qed.

Lemma sort_Sorted {A} (gt : A → A → bool) l :
  (∀ a b, gt a b = true → gt b a = false) →
  Sorted (λ a b, gt a b = false) (JS.sort gt l).
Proof.
  intros Hasym. induction l as [|x l IH]; simpl; [constructor|].
  by apply insert_sorted_Sorted.
Qed.

Lemma omap_id_Some {A} (l : list A) : omap id (Some <$> l) = l.
Proof. induction l as [|x l IH]; csimpl; [done|]. by rewrite IH. Qed.

Lemma filter_all {A} (P : A → Prop) `{∀ x, Decision (P x)} (l : list A) :
  Forall P l → filter P l = l.
Proof.
  induction 1 as [|x l Hx _ IH]; [done|].
  rewrite filter_cons_True by done. by rewrite IH.
Qed.

Lemma filter_none {A} (P : A → Prop) `{∀ x, Decision (P x)} (l : list A) :
  Forall (λ x, ¬ P x) l → filter P l = [].
Proof.
  induction 1 as [|x l Hx _ IH]; [done|].
  by rewrite filter_cons_False.
Qed.

Lemma fmap_inj_on_NoDup {A B} (f : A → B) (l : list A) x y :
  NoDup (f <$> l) → x ∈ l → y ∈ l → f x = f y → x = y.
Proof.
  intros Hnd [i Hi]%list_elem_of_lookup [j Hj]%list_elem_of_lookup Hxy.
  assert (i = j) as ->.
  { eapply (NoDup_lookup (f <$> l)); [done| |].
    - rewrite list_lookup_fmap, Hi. done.
    - rewrite list_lookup_fmap, Hj. simpl. by rewrite Hxy. }
  congruence.
Qed.

Lemma submseteq_NoDup {A} (l k : list A) : l ⊆+ k → NoDup k → NoDup l.
Proof.
  intros [k' Hk]%submseteq_Permutation. rewrite Hk.
  by intros [? _]%NoDup_app.
Qed.

(** ** Pack generation *)

Lemma omap_slots {A} (r l : option A) us cs :
  omap id (r :: (Some <$> us) ++ (Some <$> cs) ++ [l])
  = option_list r ++ us ++ cs ++ option_list l.
Proof.
  destruct r, l; csimpl; rewrite !omap_app, !omap_id_Some; done.
Qed.

Lemma randomIndex_pick (P : Card → Prop) `{∀ x, Decision (P x)} k cards :
  filter P cards ≠ [] →
  ∃ r, filter P cards !! randomIndex k (length (filter P cards)) = Some r
       ∧ r ∈ cards ∧ P r.
Proof.
  intros Hne.
  destruct (lookup_lt_is_Some_2 (filter P cards)
              (randomIndex k (length (filter P cards)))) as [r Hr].
  { unfold randomIndex. apply Nat.mod_upper_bound.
    destruct (filter P cards); [done|simpl; lia]. }
  exists r. split; [done|].
  pose proof (list_elem_of_lookup_2 _ _ _ Hr) as Hin.
  destruct (proj1 (list_elem_of_filter _ _ _) Hin) as [HP Hc]. done.
Qed.

Lemma packAttempt_slots d cards :
  ∃ rareCard landCard,
    packAttempt d cards =
      option_list rareCard
      ++ take 3 (shuffle (uncommonRolls d) (filter (λ c, Card.rarity c = Some "uncommon") cards))
      ++ take 10 (shuffle (commonRolls d) (filter (λ c, Card.rarity c = Some "common") cards))
      ++ option_list landCard
    ∧ (filter (λ c, Card.rarity c = Some "rare") cards ≠ [] →
       ∃ r, rareCard = Some r ∧ r ∈ cards
            ∧ (Card.rarity r = Some "rare" ∨ Card.rarity r = Some "mythic"))
    ∧ (filter (λ c, isBasicLand c) cards ≠ [] →
       ∃ l, landCard = Some l ∧ l ∈ cards ∧ isBasicLand l).
Proof.
  unfold packAttempt.
  set (commons := filter (λ c, Card.rarity c = Some "common") cards).
  set (uncommons := filter (λ c, Card.rarity c = Some "uncommon") cards).
  set (rares := filter (λ c, Card.rarity c = Some "rare") cards).
  set (mythics := filter (λ c, Card.rarity c = Some "mythic") cards).
  set (lands := filter (λ c, isBasicLand c) cards).
  cbv zeta.
  match goal with
  | |- ∃ _ _, omap id (?r :: _ ++ _ ++ [?l]) = _ ∧ _ =>
      set (rareCard := r); set (landCard := l)
  end.
  exists rareCard, landCard. split; [apply omap_slots|split].
  - intros Hrares. subst rareCard.
    destruct (negb (length mythics =? 0) && mythicRoll d) eqn:Hm.
    + apply andb_true_iff in Hm as [Hm _]. rewrite Hm.
      assert (mythics ≠ []) as Hne.
      { intros E. rewrite E in Hm. done. }
      destruct (randomIndex_pick (λ c, Card.rarity c = Some "mythic") (rareRoll d) cards Hne)
        as (r & Hr & Hin & Hp).
      exists r. eauto.
    + assert ((length rares =? 0) = false) as ->.
      { fold rares in Hrares. destruct rares; [done|reflexivity]. }
      destruct (randomIndex_pick (λ c, Card.rarity c = Some "rare") (rareRoll d) cards Hrares)
        as (r & Hr & Hin & Hp).
      exists r. eauto.
  - intros Hlands. subst landCard.
    assert ((length lands =? 0) = false) as ->.
    { fold lands in Hlands. destruct lands; [done|reflexivity]. }
    destruct (randomIndex_pick (λ c, isBasicLand c) (landRoll d) cards Hlands)
      as (l & Hl & Hin & Hp).
    exists l. eauto.
Qed.

Lemma generatePack_Some draws cards pack :
  generatePack draws cards = Some pack →
  ∃ d, d ∈ draws ∧ landCount (packAttempt d cards) = 1
       ∧ pack = JS.sort rarityAfter (packAttempt d cards).
Proof.
  induction draws as [|d draws IH]; simpl; [done|].
  destruct (landCount (packAttempt d cards) =? 1) eqn:Hc; simpl.
  - intros [= <-]. exists d. apply Nat.eqb_eq in Hc.
    split; [left|done].
  - intros (d' & ? & ?)%IH. exists d'. split; [by right|done].
Qed.

Lemma drawn_slice (P : Card → Prop) `{∀ x, Decision (P x)} n rolls cards :
  n ≤ length (filter P cards) →
  let slice := take n (shuffle rolls (filter P cards)) in
  length slice = n ∧ slice ⊆+ cards ∧ Forall P slice.
Proof.
  intros Hn slice. subst slice. split; [|split].
  - rewrite length_take, (Permutation_length (shuffle_Permutation _ _)). lia.
  - etrans; [apply submseteq_take|].
    rewrite shuffle_Permutation. apply sublist_submseteq, sublist_filter.
  - apply Forall_forall. intros c Hc.
    pose proof (elem_of_submseteq _ _ _ Hc
                  (submseteq_take (shuffle rolls (filter P cards)) n)) as Hs.
    rewrite shuffle_Permutation in Hs.
    by destruct (proj1 (list_elem_of_filter _ _ _) Hs).
Qed.

Lemma filter_length_0 {A} (P : A → Prop) `{∀ x, Decision (P x)} (l : list A) :
  length (filter P l) = 0 → Forall (λ x, ¬ P x) l.
Proof.
  intros Hl. apply Forall_forall. intros x Hx HP.
  assert (x ∈ filter P l) as Hin by by apply list_elem_of_filter.
  destruct (filter P l); [by apply not_elem_of_nil in Hin|done].
Qed.

Lemma filter_and_length_le {A} (P Q : A → Prop)
    `{∀ x, Decision (P x)} `{∀ x, Decision (Q x)} (l : list A) :
  length (filter (λ x, P x ∧ Q x) l) ≤ length (filter P l).
Proof.
  induction l as [|x l IH]; [done|].
  rewrite !filter_cons.
  destruct (decide (P x ∧ Q x)) as [[HP _]|Hn], (decide (P x)); simpl; try lia.
  done.
Qed.

Lemma count_slots {A} (P : A → Prop) `{∀ x, Decision (P x)} (a b c d : list A) :
  length (filter P (a ++ b ++ c ++ d))
  = length (filter P a) + length (filter P b)
    + length (filter P c) + length (filter P d).
Proof. rewrite !filter_app, !length_app. lia. Qed.

Lemma packTemplate_Permutation pack pack' :
  pack ≡ₚ pack' → packTemplate pack → packTemplate pack'.
Proof.
  intros Hp. unfold packTemplate. by rewrite Hp.
Qed.

(** C1 (amended): on a pool with pairwise distinct identifiers whose basic
    lands all have rarity common, and which holds at least one rare, three
    uncommons, ten commons that are not basic lands and one basic land,
    every pack [generatePack] returns has exactly 15 cards: one rare or
    mythic, three uncommons, ten non-land commons, one basic land, and 15
    distinct identifiers. *)
Theorem generatePack_template draws cards pack :
  NoDup (Card.id <$> cards) →
  (∀ c, c ∈ cards → isBasicLand c → Card.rarity c = Some "common") →
  1 ≤ length (filter (λ c, Card.rarity c = Some "rare") cards) →
  3 ≤ length (filter (λ c, Card.rarity c = Some "uncommon") cards) →
  10 ≤ length (filter (λ c, Card.rarity c = Some "common" ∧ ¬ isBasicLand c) cards) →
  1 ≤ length (filter (λ c, isBasicLand c) cards) →
  generatePack draws cards = Some pack →
  packTemplate pack.
Proof.
  intros Hids Hlands Hr Hu Hc Hl (d & _ & Hcount & ->)%generatePack_Some.
  apply (packTemplate_Permutation (packAttempt d cards));
    [by rewrite sort_Permutation|].
  destruct (packAttempt_slots d cards) as (rareCard & landCard & Hpk & HR & HL).
  destruct HR as (r & -> & Hrin & Hrar).
  { intros E. rewrite E in Hr. simpl in Hr. lia. }
  destruct HL as (l & -> & Hlin & Hland).
  { intros E. rewrite E in Hl. simpl in Hl. lia. }
  pose proof (filter_and_length_le (λ c, Card.rarity c = Some "common")
                (λ c, ¬ isBasicLand c) cards) as Hc'.
  destruct (drawn_slice (λ c, Card.rarity c = Some "uncommon") 3 (uncommonRolls d) cards Hu)
    as (Hulen & Husub & HuP).
  destruct (drawn_slice (λ c, Card.rarity c = Some "common") 10 (commonRolls d) cards
              ltac:(lia)) as (Hclen & Hcsub & HcP).
  set (us := take 3 _) in *. set (cs := take 10 _) in *.
  change (option_list (Some r)) with [r] in Hpk.
  change (option_list (Some l)) with [l] in Hpk.
  rewrite Hpk in Hcount |- *. clear Hpk.
  (* exactly one land: every other slot holds a card that is no land *)
  unfold landCount in Hcount. rewrite count_slots in Hcount.
  rewrite (filter_all _ [l]) in Hcount by (by constructor).
  assert (¬ isBasicLand r ∧ Forall (λ c, ¬ isBasicLand c) us
          ∧ Forall (λ c, ¬ isBasicLand c) cs) as (Hrl & Hul & Hcl).
  { simpl in Hcount. split; [|split; apply (filter_length_0 (λ c, isBasicLand c)); lia].
    intros Hrland. rewrite (filter_all _ [r]) in Hcount by (by constructor).
    simpl in Hcount. lia. }
  clear Hcount.
  assert (Card.rarity l = Some "common") as Hlr by auto.
  assert (Forall (λ c, c ∈ cards) us) as Huin.
  { apply Forall_forall. intros c Hc0. by eapply elem_of_submseteq. }
  assert (Forall (λ c, c ∈ cards) cs) as Hcin.
  { apply Forall_forall. intros c Hc0. by eapply elem_of_submseteq. }
  assert (NoDup cards) as Hnd by by eapply NoDup_fmap_1.
  unfold packTemplate. split; [|split; [|split; [|split; [|split]]]].
  - rewrite !length_app. simpl. lia.
  - rewrite count_slots.
    rewrite (filter_all _ [r]), (filter_none _ us), (filter_none _ cs),
      (filter_none _ [l]); [done|..].
    + constructor; [|done]. rewrite Hlr. intros [?|?]; done.
    + eapply Forall_impl; [exact HcP|]. simpl. intros c -> [?|?]; done.
    + eapply Forall_impl; [exact HuP|]. simpl. intros c -> [?|?]; done.
    + by constructor.
  - rewrite count_slots.
    rewrite (filter_none _ [r]), (filter_all _ us), (filter_none _ cs),
      (filter_none _ [l]); [simpl; lia|..|done|].
    + constructor; [|done]. by rewrite Hlr.
    + eapply Forall_impl; [exact HcP|]. simpl. by intros c ->.
    + constructor; [|done]. destruct Hrar as [-> | ->]; done.
  - rewrite count_slots.
    rewrite (filter_none _ [r]), (filter_none _ us), (filter_all _ cs),
      (filter_none _ [l]); [simpl; lia|..].
    + constructor; [|done]. intros [_ Hn]. by apply Hn.
    + apply Forall_and. split; done.
    + eapply Forall_impl; [exact HuP|]. simpl. by intros c -> [? _].
    + constructor; [|done]. destruct Hrar as [-> | ->]; intros [? _]; done.
  - rewrite count_slots.
    rewrite (filter_none _ [r]), (filter_none _ us), (filter_none _ cs),
      (filter_all _ [l]); [done|..]; [by constructor|done..|by constructor].
  - apply NoDup_fmap_2_strong.
    { intros x y Hx Hy. apply (fmap_inj_on_NoDup Card.id cards); [done|..].
      - rewrite !elem_of_app in Hx. destruct Hx as [Hx|[Hx|[Hx|Hx]]].
        + apply list_elem_of_singleton in Hx as ->. done.
        + by eapply Forall_forall in Huin.
        + by eapply Forall_forall in Hcin.
        + apply list_elem_of_singleton in Hx as ->. done.
      - rewrite !elem_of_app in Hy. destruct Hy as [Hy|[Hy|[Hy|Hy]]].
        + apply list_elem_of_singleton in Hy as ->. done.
        + by eapply Forall_forall in Huin.
        + by eapply Forall_forall in Hcin.
        + apply list_elem_of_singleton in Hy as ->. done. }
    apply NoDup_app. split; [apply NoDup_singleton|]. split.
    { intros x ->%list_elem_of_singleton.
      rewrite !elem_of_app. intros [Hx|[Hx|Hx]].
      - eapply Forall_forall in HuP; [|done]. simpl in HuP.
        destruct Hrar as [E|E]; rewrite E in HuP; done.
      - eapply Forall_forall in HcP; [|done]. simpl in HcP.
        destruct Hrar as [E|E]; rewrite E in HcP; done.
      - apply list_elem_of_singleton in Hx as ->. done. }
    apply NoDup_app. split; [by eapply submseteq_NoDup|]. split.
    { intros x Hx. rewrite elem_of_app. intros [Hx'|Hx'].
      - eapply Forall_forall in HuP; [|done].
        eapply Forall_forall in HcP; [|done]. simpl in *. congruence.
      - apply list_elem_of_singleton in Hx' as ->.
        eapply Forall_forall in Hul; [|done]. done. }
    apply NoDup_app. split; [by eapply submseteq_NoDup|]. split.
    { intros x Hx Hx'. apply list_elem_of_singleton in Hx' as ->.
      eapply Forall_forall in Hcl; [|done]. done. }
    apply NoDup_singleton.
Qed.

(** The regeneration can stop: on a pool that fills the template and whose
    basic lands are commons, some draw makes the first attempt valid. *)
Lemma generatePack_can_return cards :
  (∀ c, c ∈ cards → isBasicLand c → Card.rarity c = Some "common") →
  1 ≤ length (filter (λ c, Card.rarity c = Some "rare") cards) →
  3 ≤ length (filter (λ c, Card.rarity c = Some "uncommon") cards) →
  10 ≤ length (filter (λ c, Card.rarity c = Some "common" ∧ ¬ isBasicLand c) cards) →
  1 ≤ length (filter (λ c, isBasicLand c) cards) →
  ∃ d pack, generatePack [d] cards = Some pack.
Proof.
  intros Hlands Hr Hu Hc Hl.
  set (commons := filter (λ c, Card.rarity c = Some "common") cards).
  set (plain := filter (λ c, ¬ isBasicLand c) commons).
  rewrite filter_and in Hc. fold commons plain in Hc.
  destruct (shuffle_reaches commons (plain ++ filter (λ c, ¬ ¬ isBasicLand c) commons))
    as [rolls Hrolls].
  { symmetry. apply filter_app_complement. }
  set (d := {| mythicRoll := false; rareRoll := 0; uncommonRolls := [];
               commonRolls := rolls; landRoll := 0 |}).
  exists d. simpl.
  enough (landCount (packAttempt d cards) = 1) as ->; [by eexists|].
  destruct (packAttempt_slots d cards) as (rareCard & landCard & -> & HR & HL).
  destruct HR as (r & -> & Hrin & Hrar).
  { intros E. rewrite E in Hr. simpl in Hr. lia. }
  destruct HL as (l & -> & Hlin & Hland).
  { intros E. rewrite E in Hl. simpl in Hl. lia. }
  destruct (drawn_slice (λ c, Card.rarity c = Some "uncommon") 3 (uncommonRolls d) cards Hu)
    as (_ & Husub & HuP).
  change (option_list (Some r)) with [r]. change (option_list (Some l)) with [l].
  unfold landCount. rewrite count_slots.
  rewrite (filter_none _ [r]), (filter_none _ (take 3 _)), (filter_none _ (take 10 _)),
    (filter_all _ [l]); [done|by constructor|..].
  - simpl. fold commons. rewrite Hrolls, take_app_le by done.
    apply Forall_forall. intros c Hc0.
    pose proof (elem_of_submseteq _ _ _ Hc0 (submseteq_take plain 10)) as Hplain.
    by destruct (proj1 (list_elem_of_filter _ _ _) Hplain).
  - apply Forall_forall. intros c Hc0 Hcl.
    pose proof (elem_of_submseteq _ _ _ Hc0 Husub) as Hin.
    eapply Forall_forall in HuP; [|done]. simpl in HuP.
    rewrite (Hlands c Hin Hcl) in HuP. done.
  - constructor; [|done]. intros Hrl.
    rewrite (Hlands r Hrin Hrl) in Hrar. by destruct Hrar.
Qed.

(** A pool that meets the bounds of the template, with a basic land of
    rarity uncommon, yields a pack with four uncommons. *)
Lemma generatePack_uncommon_land :
  1 ≤ length (filter (λ c, Card.rarity c = Some "rare") Sample.uncommonLandPool)
  ∧ 3 ≤ length (filter (λ c, Card.rarity c = Some "uncommon") Sample.uncommonLandPool)
  ∧ 10 ≤ length (filter (λ c, Card.rarity c = Some "common" ∧ ¬ isBasicLand c)
                   Sample.uncommonLandPool)
  ∧ 1 ≤ length (filter (λ c, isBasicLand c) Sample.uncommonLandPool)
  ∧ ∃ pack, generatePack [Sample.draw] Sample.uncommonLandPool = Some pack
            ∧ length (filter (λ c, Card.rarity c = Some "uncommon") pack) = 4
            ∧ ¬ packTemplate pack.
Proof.
  split; [|split; [|split; [|split]]]; try (vm_compute; lia).
  eexists. split; [vm_compute; reflexivity|]. split; [vm_compute; reflexivity|].
  intros (_ & _ & Hu & _). vm_compute in Hu. discriminate.
Qed.

Lemma generatePack_template_witness :
  ∃ pack, generatePack [Sample.draw] Sample.pool = Some pack ∧ packTemplate pack.
Proof.
  eexists. split; [vm_compute; reflexivity|].
  apply (generatePack_template [Sample.draw] Sample.pool).
  - apply (bool_decide_unpack (NoDup (Card.id <$> Sample.pool))).
    vm_compute. exact I.
  - apply (Forall_forall (λ c, isBasicLand c → Card.rarity c = Some "common")).
    apply (bool_decide_unpack (Forall _ Sample.pool)).
    vm_compute. exact I.
  - vm_compute. lia.
  - vm_compute. lia.
  - vm_compute. lia.
  - vm_compute. lia.
  - vm_compute. reflexivity.
Defined.

(** ** The pass protocol *)

Lemma packAt_setPack player round pack :
  is_Some (packAt player round) →
  packAt (setPack player round pack) round = Some pack.
Proof.
  destruct round as [|r]; simpl; [by intros [? ?]|].
  intros [old Hold]. apply list_lookup_insert_eq.
  by eapply lookup_lt_Some.
Qed.

Lemma packAt_has_three player round :
  length (Player.packs player) = 3 → 1 ≤ round ≤ 3 → is_Some (packAt player round).
Proof.
  intros Hlen [Hlo Hhi]. destruct round as [|r]; [lia|]. simpl.
  apply lookup_lt_is_Some. lia.
Qed.

Lemma trimLands_single pack : landCount pack ≤ 1 → trimLands pack = pack.
Proof.
  intros Hle. unfold trimLands.
  destruct (1 <? landCount pack) eqn:Hlt; [|done].
  apply Nat.ltb_lt in Hlt. lia.
Qed.

Lemma filter_ext_elem {A} (P Q : A → Prop)
    `{∀ x, Decision (P x)} `{∀ x, Decision (Q x)} (l : list A) :
  (∀ x, x ∈ l → P x ↔ Q x) → filter P l = filter Q l.
Proof.
  induction l as [|x l IH]; intros Hext; [done|].
  rewrite !filter_cons, IH by (intros y Hy; apply Hext; by right).
  pose proof (Hext x ltac:(left)) as Hx.
  destruct (decide (P x)), (decide (Q x)); tauto.
Qed.

Lemma filter_fmap {A B} (f : A → B) (P : B → Prop) `{∀ x, Decision (P x)} (l : list A) :
  filter P (f <$> l) = f <$> filter (λ x, P (f x)) l.
Proof.
  induction l as [|x l IH]; [done|]. csimpl. rewrite !filter_cons, IH.
  by destruct (decide (P (f x))).
Qed.

Lemma imap_pair_fst {A} (l : list A) : ∀ k,
  (imap (λ i x, (k + i, x)) l).*1 = seq k (length l).
Proof.
  induction l as [|x l IH]; intros k; [done|]. rewrite imap_cons. csimpl.
  rewrite Nat.add_0_r. f_equal. rewrite <- IH. f_equal.
  apply imap_ext. intros i y _. simpl. f_equal. lia.
Qed.

Lemma imap_pair_snd {A} (l : list A) : (imap pair l).*2 = l.
Proof.
  rewrite fmap_imap, (imap_ext _ (const id)) by done.
  by rewrite imap_const, list_fmap_id.
Qed.

Lemma firstLandOnly_single pack : landCount pack ≤ 1 → firstLandOnly pack = pack.
Proof.
  unfold landCount. induction pack as [|c pack IH]; [done|]. simpl.
  destruct (decide (isBasicLand c)) as [Hland|Hplain].
  - rewrite (Is_true_true_1 _ Hland), filter_cons_True by done. simpl.
    intros Hle. f_equal.
    apply (filter_all (λ c, ¬ isBasicLand c)).
    eapply Forall_impl; [apply (filter_length_0 (λ c, isBasicLand c)); lia|]. done.
  - rewrite (Is_true_false_1 _ Hplain), filter_cons_False by done.
    intros Hle. f_equal. by apply IH.
Qed.

Lemma firstLandOnly_lands pack :
  filter (λ c, isBasicLand c) (firstLandOnly pack) = take 1 (filter (λ c, isBasicLand c) pack).
Proof.
  induction pack as [|c pack IH]; [done|]. simpl.
  destruct (decide (isBasicLand c)) as [Hland|Hplain].
  - rewrite (Is_true_true_1 _ Hland), !filter_cons_True by done. simpl. f_equal.
    apply (filter_none (λ c, isBasicLand c)), Forall_forall.
    by intros x [? _]%list_elem_of_filter.
  - rewrite (Is_true_false_1 _ Hplain), !filter_cons_False by done. done.
Qed.


(** Entries with distinct positions: dropping the entries at the positions
    of the later basic lands keeps the first basic land only. *)
Lemma entries_keep_first_land (entries : list (nat * Card)) :
  NoDup entries.*1 →
  (filter (λ entry, entry.1 ∉ (drop 1 (filter (λ entry, isBasicLand entry.2) entries)).*1)
          entries).*2
  = firstLandOnly entries.*2.
Proof.
  induction entries as [|entry entries IH]; [done|]. csimpl.
  intros [Hfresh Hnodup]%NoDup_cons.
  assert (Hlater : ∀ later : list (nat * Card), later ⊆ entries → entry.1 ∉ later.*1).
  { intros later Hsub (e & He & Hin)%list_elem_of_fmap. apply Hfresh.
    rewrite He. apply list_elem_of_fmap. exists e. split; [done|]. by apply Hsub. }
  destruct (decide (isBasicLand entry.2)) as [Hland|Hplain].
  - rewrite (filter_cons_True (λ e, isBasicLand e.2)) by done. simpl drop.
    rewrite filter_cons_True
      by (apply Hlater; intros e [_ He]%list_elem_of_filter; done).
    csimpl. rewrite (Is_true_true_1 _ Hland). f_equal.
    rewrite (filter_ext_elem _ (λ e, ¬ isBasicLand e.2)).
    { by rewrite (filter_fmap snd (λ c, ¬ isBasicLand c)). }
    intros e He. split.
    + intros Hout Hl. apply Hout, list_elem_of_fmap. exists e. split; [done|].
      by apply list_elem_of_filter.
    + intros Hpl (e' & Hfst & [Hl He']%list_elem_of_filter)%list_elem_of_fmap.
      assert (e = e') as -> by by eapply (fmap_inj_on_NoDup fst entries).
      done.
  - rewrite (filter_cons_False (λ e, isBasicLand e.2)) by done.
    rewrite filter_cons_True.
    + csimpl. rewrite (Is_true_false_1 _ Hplain). f_equal. by apply IH.
    + apply Hlater. intros e He.
      apply list_elem_of_lookup in He as [k Hk]. rewrite lookup_drop in Hk.
      by apply list_elem_of_lookup_2, list_elem_of_filter in Hk as [_ ?].
Qed.

(** The repair written out: the first basic land stays, the later ones
    go, and the other cards stay in their order. *)
Lemma trimLands_firstLandOnly pack : trimLands pack = firstLandOnly pack.
Proof.
  unfold trimLands. destruct (1 <? landCount pack) eqn:Hmany.
  - rewrite entries_keep_first_land; [by rewrite imap_pair_snd|].
    change (imap pair pack) with (imap (λ i x, (0 + i, x)) pack).
    rewrite (imap_pair_fst pack 0). apply NoDup_seq.
  - apply Nat.ltb_ge in Hmany. symmetry. by apply firstLandOnly_single.
Qed.

Lemma trimLands_lands pack :
  filter (λ c, isBasicLand c) (trimLands pack) = take 1 (filter (λ c, isBasicLand c) pack).
Proof. rewrite trimLands_firstLandOnly. apply firstLandOnly_lands. Qed.


Lemma trimLands_landCount pack : landCount (trimLands pack) ≤ 1.
Proof. unfold landCount. rewrite trimLands_lands, length_take. lia. Qed.

Lemma nextIndex_lt direction index n : 0 < n → nextIndex direction index n < n.
Proof.
  intros Hn. unfold nextIndex. case_decide; apply Nat.mod_upper_bound; lia.
Qed.

(** Every seat ends up with the pack of the seat at [nextIndex], repaired. *)
Lemma passPacks_lookup players round :
  Forall (λ p, is_Some (packAt p round)) players →
  ∃ players',
    passPacks players round = Some players'
    ∧ length players' = length players
    ∧ ∀ i receiver, players !! i = Some receiver →
        ∃ giver pack,
          players !! nextIndex (if round mod 2 =? 1 then "left" else "right")
                       i (length players) = Some giver
          ∧ packAt giver round = Some pack
          ∧ players' !! i = Some (setPack receiver round (trimLands pack)).
Proof.
  intros Hpacks. unfold passPacks.
  set (direction := if round mod 2 =? 1 then "left" else "right").
  destruct (mapM (λ player, packAt player round) players) as [currentPacks|] eqn:Hcur.
  2: { exfalso. apply eq_None_not_Some in Hcur. apply Hcur.
       apply mapM_is_Some. done. }
  apply mapM_Some in Hcur. simpl.
  pose proof (Forall2_length _ _ _ Hcur) as Hlen.
  assert (∀ i receiver, players !! i = Some receiver →
      ∃ giver pack,
        players !! nextIndex direction i (length players) = Some giver
        ∧ packAt giver round = Some pack
        ∧ currentPacks !! nextIndex direction i (length players) = Some pack) as Hgive.
  { intros i receiver Hi.
    assert (nextIndex direction i (length players) < length players) as Hlt.
    { apply nextIndex_lt. apply lookup_lt_Some in Hi. lia. }
    destruct (lookup_lt_is_Some_2 players _ Hlt) as [giver Hg].
    destruct (Forall2_lookup_l _ _ _ _ _ Hcur Hg) as (pack & Hp & Hgp).
    eauto. }
  destruct (mapM _ (imap pair players)) as [players'|] eqn:Hres.
  2: { exfalso. apply eq_None_not_Some in Hres. apply Hres.
       apply mapM_is_Some. apply Forall_forall. intros [i receiver] Hin.
       apply list_elem_of_lookup in Hin as [j Hj].
       rewrite list_lookup_imap in Hj.
       destruct (players !! j) as [p|] eqn:Hp; simplify_eq/=.
       destruct (Hgive _ _ Hp) as (giver & pack & _ & _ & ->). by eexists. }
  apply mapM_Some in Hres.
  exists players'. split; [done|]. split.
  { rewrite <- (Forall2_length _ _ _ Hres). by rewrite length_imap. }
  intros i receiver Hi.
  destruct (Hgive _ _ Hi) as (giver & pack & Hg & Hgp & Hc).
  exists giver, pack. split; [done|]. split; [done|].
  assert (imap pair players !! i = Some (i, receiver)) as Hentry.
  { by rewrite list_lookup_imap, Hi. }
  destruct (Forall2_lookup_l _ _ _ _ _ Hres Hentry) as (y & Hy & Hf).
  simpl in Hf. rewrite Hc in Hf. simpl in Hf. by simplify_eq.
Qed.




(** ** The undo history *)

Lemma lastN_length {A} n (l : list A) : length (lastN n l) ≤ n.
Proof. unfold lastN. rewrite length_drop. lia. Qed.

Lemma lastN_snoc {A} n (l : list A) x :
  0 < n → last (lastN n (l ++ [x])) = Some x ∧ lastN n (l ++ [x]) ≠ [].
Proof.
  intros Hn. unfold lastN. rewrite length_app. simpl.
  rewrite drop_app_le by lia. split.
  - apply last_snoc.
  - by destruct (drop _ l).
Qed.

Lemma dropLast_length {A} (l : list A) : length (dropLast l) ≤ length l.
Proof. unfold dropLast. rewrite length_take. lia. Qed.

Lemma jsonNumber_safe x : jsonSafe x → jsonNumber x = Some x.
Proof.
  unfold jsonSafe, jsonNumber.
  destruct (PrimFloat.is_nan x), (PrimFloat.is_infinity x),
    (PrimFloat.is_zero x), (PrimFloat.get_sign x); simpl; done.
Qed.

Lemma jsonCard_safe c : jsonSafeCard c → jsonCard c = c.
Proof.
  unfold jsonSafeCard, jsonCard. destruct c as [? ? ? ? [x|] ? ? ?]; simpl; [|done].
  intros Hx. by rewrite jsonNumber_safe.
Qed.

Lemma jsonCards_safe cs : forallb jsonSafeCard cs → jsonCard <$> cs = cs.
Proof.
  induction cs as [|c cs IH]; csimpl; [done|].
  intros [Hc Hcs]%andb_True. by rewrite jsonCard_safe, IH.
Qed.

Lemma jsonPlayer_safe p : jsonSafePlayer p → jsonPlayer p = p.
Proof.
  unfold jsonSafePlayer, jsonPlayer. destruct p as [? ? drafted side packs]; simpl.
  intros [[Hd Hs]%andb_True Hp]%andb_True.
  rewrite !jsonCards_safe by done. f_equal.
  induction packs as [|pk packs IH]; csimpl in *; [done|].
  apply andb_True in Hp as [Hpk Hp]. by rewrite jsonCards_safe, IH.
Qed.

Lemma jsonPlayers_safe ps : forallb jsonSafePlayer ps → jsonPlayer <$> ps = ps.
Proof.
  induction ps as [|p ps IH]; csimpl; [done|].
  intros [Hp Hps]%andb_True. by rewrite jsonPlayer_safe, IH.
Qed.

Section MachineFacts.
Context (cardStats : gmap string Stats.t) (colorPairStats : gmap string float).

#[local] Abbreviation onPick := (handlePick cardStats colorPairStats).

(** What [handlePick] commits, case by case. *)
Lemma handlePick_cases st card :
  let snapshot := Snapshot.mk (jsonPlayer <$> App.players st) (App.currentPackIndex st) in
  let pushed := lastN 5 (App.draftHistory st ++ [snapshot]) in
  let st' := committed (onPick st card) in
  (App.players st' = App.players st
   ∧ App.currentRound st' = App.currentRound st
   ∧ App.currentPackIndex st' = App.currentPackIndex st
   ∧ App.draftComplete st' = App.draftComplete st
   ∧ App.draftHistory st' = pushed)
  ∨ (App.currentRound st' = App.currentRound st + 1
     ∧ App.draftComplete st' = App.draftComplete st
     ∧ App.draftHistory st' = [])
  ∨ (App.currentRound st' = App.currentRound st
     ∧ App.draftComplete st' = true
     ∧ App.draftHistory st' = [])
  ∨ (App.currentRound st' = App.currentRound st
     ∧ App.draftComplete st' = App.draftComplete st
     ∧ App.currentPackIndex st' = App.currentPackIndex st + 1
     ∧ App.draftHistory st' = pushed).
Proof.
  intros snapshot pushed st'. subst st'. unfold handlePick.
  fold snapshot. fold pushed.
  destruct (pickTurn _ _ _ _ _) as [updatedPlayers|]; [|left; done].
  destruct (allPacksEmpty _ _) as [[|]|]; [|by do 3 right|by left].
  destruct (App.currentRound st <? 3); [right; left|right; right; left]; done.
Qed.

Lemma draftCard_packAt round card pack player :
  is_Some (packAt player round) →
  is_Some (packAt (draftCard round card pack player) round).
Proof.
  intros Hp. unfold draftCard.
  assert (∀ p, packAt (updatePlayerColors p) round = packAt p round) as ->.
  { intros p. by destruct round. }
  rewrite packAt_setPack; [by eexists|].
  by destruct round.
Qed.

Lemma aiTurn_Some round aiPlayer :
  is_Some (packAt aiPlayer round) →
  ∃ aiPlayer', aiTurn cardStats colorPairStats round aiPlayer = Some aiPlayer'
               ∧ is_Some (packAt aiPlayer' round).
Proof.
  intros [aiPack Hpack]. unfold aiTurn. rewrite Hpack. simpl.
  destruct (0 <? length aiPack); [|by eauto].
  destruct (aiPickCard _ _ _ _); [|by eauto].
  eexists. split; [done|]. apply draftCard_packAt. by eexists.
Qed.

Lemma aiTurns_Some round aiPlayers :
  Forall (λ p, is_Some (packAt p round)) aiPlayers →
  ∃ aiPlayers', mapM (aiTurn cardStats colorPairStats round) aiPlayers = Some aiPlayers'
                ∧ Forall (λ p, is_Some (packAt p round)) aiPlayers'.
Proof.
  intros Hpacks.
  destruct (mapM _ aiPlayers) as [aiPlayers'|] eqn:Hturns.
  - exists aiPlayers'. split; [done|].
    apply mapM_Some in Hturns. apply Forall_lookup. intros i p' Hi.
    destruct (Forall2_lookup_r _ _ _ _ _ Hturns Hi) as (p & Hp & Hturn).
    destruct (aiTurn_Some round p) as (p'' & Hp'' & Hsome).
    { eapply Forall_forall in Hpacks; [done|]. by eapply list_elem_of_lookup_2. }
    congruence.
  - exfalso. apply eq_None_not_Some in Hturns. apply Hturns.
    apply mapM_is_Some. eapply Forall_impl; [exact Hpacks|].
    intros p Hp. simpl. destruct (aiTurn_Some round p Hp) as (p' & -> & _). by eexists.
Qed.

Lemma passPacks_seated players round :
  Forall (λ p, is_Some (packAt p round)) players →
  ∃ players', passPacks players round = Some players'
              ∧ Forall (λ p, is_Some (packAt p round)) players'.
Proof.
  intros Hpacks.
  destruct (passPacks_lookup players round Hpacks) as (players' & Hpass & Hlen & Hrot).
  exists players'. split; [done|].
  apply Forall_lookup. intros i p' Hi.
  destruct (lookup_lt_is_Some_2 players i) as [receiver Hrec].
  { rewrite <- Hlen. by eapply lookup_lt_Some. }
  destruct (Hrot i receiver Hrec) as (giver & pack & _ & _ & Hnew).
  rewrite Hnew in Hi. simplify_eq. rewrite packAt_setPack; [by eexists|].
  eapply Forall_forall in Hpacks; [done|]. by eapply list_elem_of_lookup_2.
Qed.

(** On a table where every seat has its pack of the round, [handlePick]
    returns: no [TypeError] is thrown. *)
Lemma handlePick_returns st card :
  App.players st ≠ [] →
  Forall (λ p, is_Some (packAt p (App.currentRound st))) (App.players st) →
  ∃ st', handlePick cardStats colorPairStats st card = Returned st'.
Proof.
  intros Hne Hpacks. unfold handlePick, pickTurn.
  destruct (App.players st) as [|humanPlayer aiPlayers]; [done|].
  apply Forall_cons in Hpacks as [[currentPack Hhuman] Hai].
  rewrite Hhuman. simpl.
  destruct (aiTurns_Some _ _ Hai) as (aiPlayers' & -> & Hai'). simpl.
  destruct (passPacks_seated (draftCard (App.currentRound st) card currentPack humanPlayer
                              :: aiPlayers') (App.currentRound st))
    as (updatedPlayers & -> & Hupdated).
  { constructor; [|done]. apply draftCard_packAt. by eexists. }
  unfold allPacksEmpty.
  destruct (mapM _ updatedPlayers) as [packs|] eqn:Hpk; simpl; [by eexists|].
  exfalso. apply eq_None_not_Some in Hpk. apply Hpk. by apply mapM_is_Some.
Qed.

(** C3 (amended): when the cards are JSON values and the pick neither
    advances the round nor completes the draft, pick followed by undo
    restores every seat (packs, drafted cards, sideboard, affinity) and
    the pick index to their values before the pick. *)
Theorem pick_then_undo st card :
  forallb jsonSafePlayer (App.players st) →
  App.currentRound (committed (onPick st card)) = App.currentRound st →
  App.draftComplete (committed (onPick st card)) = false →
  App.players (undoClick (committed (onPick st card))) = App.players st
  ∧ App.currentPackIndex (undoClick (committed (onPick st card)))
    = App.currentPackIndex st.
Proof.
  intros Hsafe Hround Hcomplete.
  pose proof (handlePick_cases st card) as Hcases. simpl in Hcases.
  set (st' := committed (onPick st card)) in *.
  destruct (lastN_snoc 5 (App.draftHistory st)
              (Snapshot.mk (jsonPlayer <$> App.players st) (App.currentPackIndex st))
              ltac:(lia)) as [Hlast Hne].
  assert (App.draftHistory st'
          = lastN 5 (App.draftHistory st
                     ++ [Snapshot.mk (jsonPlayer <$> App.players st)
                           (App.currentPackIndex st)])) as Hhist.
  { destruct Hcases as [H|[H|[H|H]]].
    - by destruct H as (_ & _ & _ & _ & ->).
    - destruct H as (H & _). lia.
    - destruct H as (_ & H & _). congruence.
    - by destruct H as (_ & _ & _ & ->). }
  unfold undoClick. rewrite Hhist, Hlast.
  destruct (0 <? length _) eqn:Hlen.
  - simpl. by rewrite jsonPlayers_safe.
  - apply Nat.ltb_ge in Hlen. destruct (lastN 5 _); [done|simpl in Hlen; lia].
Qed.
Lemma step_history_bounded st st' :
  step cardStats colorPairStats st st' →
  length (App.draftHistory st) ≤ 5 → length (App.draftHistory st') ≤ 5.
Proof.
  intros Hstep Hle. destruct Hstep as
    [st card|st|st|st|st code|st seed allCards|st criteria|st card
    |st card|st card|st card|st criteria|st]; try done.
  - pose proof (handlePick_cases st card) as Hcases. simpl in Hcases.
    pose proof (lastN_length 5
      (App.draftHistory st
       ++ [Snapshot.mk (jsonPlayer <$> App.players st) (App.currentPackIndex st)]))
      as Hpushed.
    destruct Hcases as [H|[H|[H|H]]].
    + destruct H as (_ & _ & _ & _ & ->). done.
    + destruct H as (_ & _ & ->). simpl. lia.
    + destruct H as (_ & _ & ->). simpl. lia.
    + destruct H as (_ & _ & _ & ->). done.
  - unfold undoClick. destruct (0 <? _); [|done].
    destruct (last _); [|done]. simpl.
    pose proof (dropLast_length (App.draftHistory st)). lia.
  - unfold handleUndo. destruct (_ =? 0); [done|].
    destruct (last _); [|done]. simpl.
    pose proof (dropLast_length (App.draftHistory st)). lia.
  - unfold suggestPick. destruct (head _); [|done].
    destruct (packAt _ _); [|done]. destruct (0 <? _); [|done].
    destruct (aiPickCard _ _ _ _); [|done]. by destruct (bool_decide _).
  - unfold changeSet. case_decide; simpl; [done|lia].
  - unfold cardsFetched. destruct (_ =? 0); [done|].
    by destruct (initializeDraft _ _).
Qed.

(** C6: in every reachable state the undo history has at most 5 entries;
    it is empty right after a pick that advances the round, right after a
    pick that completes the draft, and right after a set was selected. *)
Theorem undo_history_bounded st :
  reachable cardStats colorPairStats st →
  length (App.draftHistory st) ≤ 5
  ∧ (∀ card,
       App.currentRound (committed (onPick st card)) ≠ App.currentRound st →
       App.draftHistory (committed (onPick st card)) = [])
  ∧ (∀ card,
       App.draftComplete st = false →
       App.draftComplete (committed (onPick st card)) = true →
       App.draftHistory (committed (onPick st card)) = [])
  ∧ (∀ code, code ≠ "" → App.draftHistory (changeSet code st) = []).
Proof.
  intros Hreach. split; [|split; [|split]].
  - revert st Hreach.
    apply (rtc_ind_r (λ st, length (App.draftHistory st) ≤ 5)); [simpl; lia|].
    intros st st' _ Hstep IH. by eapply step_history_bounded.
  - intros card Hround.
    pose proof (handlePick_cases st card) as Hcases. simpl in Hcases.
    destruct Hcases as [H|[H|[H|H]]].
    + destruct H as (_ & H & _). done.
    + by destruct H as (_ & _ & ->).
    + by destruct H as (_ & _ & ->).
    + destruct H as (H & _). done.
  - intros card Hbefore Hafter.
    pose proof (handlePick_cases st card) as Hcases. simpl in Hcases.
    destruct Hcases as [H|[H|[H|H]]].
    + destruct H as (_ & _ & _ & H & _). congruence.
    + by destruct H as (_ & _ & ->).
    + by destruct H as (_ & _ & ->).
    + destruct H as (_ & H & _). congruence.
  - intros code Hcode. unfold changeSet. by case_decide.
Qed.

(** The button and [handleUndo] undo in the same way. *)
Lemma undoClick_handleUndo st : undoClick st = handleUndo st.
Proof.
  unfold undoClick, handleUndo. by destruct (App.draftHistory st).
Qed.


(** The events of [step] cover the interface: a pick issued through it is
    an event or leaves the state alone. *)
Lemma clickCard_step st card :
  committed (clickCard cardStats colorPairStats st card) = st
  ∨ step cardStats colorPairStats st
      (committed (clickCard cardStats colorPairStats st card)).
Proof.
  unfold clickCard. destruct (packRendered st); [right|by left].
  apply step_pick.
Qed.

Lemma clickCard_reachable st card :
  reachable cardStats colorPairStats st →
  reachable cardStats colorPairStats
    (committed (clickCard cardStats colorPairStats st card)).
Proof.
  intros Hreach. destruct (clickCard_step st card) as [->|Hstep]; [done|].
  eapply rtc_r; [exact Hreach|exact Hstep].
Qed.
End MachineFacts.

Lemma draftStart_reachable : reachable ∅ ∅ Sample.draftStart.
Proof.
  eapply rtc_l; [apply (step_changeSet _ _ _ "dmu")|].
  eapply rtc_l; [|apply rtc_refl].
  apply (step_cardsFetched _ _ _ Sample.seed Sample.pool).
Qed.

Lemma afterPicks_reachable n : reachable ∅ ∅ (Sample.afterPicks n).
Proof.
  induction n as [|n IH]; [apply draftStart_reachable|].
  unfold Sample.afterPicks in *. rewrite Nat.iter_succ.
  set (st := Nat.iter n Sample.pickFirst Sample.draftStart) in *.
  unfold Sample.pickFirst. destruct (_ ≫= head); [|done].
  eapply rtc_r; [exact IH|apply step_pick].
Qed.

Lemma pick_then_undo_witness :
  let st' := committed (handlePick ∅ ∅ Sample.draftStart
                          (Sample.card "rare-0" "rare" "Sorcery" [R])) in
  App.players (undoClick st') = App.players Sample.draftStart
  ∧ App.currentPackIndex (undoClick st') = App.currentPackIndex Sample.draftStart.
Proof.
  apply (pick_then_undo ∅ ∅ Sample.draftStart).
  - vm_compute. exact I.
  - vm_compute. reflexivity.
  - vm_compute. reflexivity.
Defined.

(** The pick that empties the last packs of a round clears the history:
    the undo that follows restores nothing, and the card stays drafted. *)
Lemma last_pick_of_round_not_undone :
  let card := Sample.card "card-0" "common" "Creature" [W] in
  let st' := undoClick (committed (handlePick ∅ ∅ Sample.lastPick card)) in
  (head (App.players Sample.lastPick) ≫= λ human, packAt human 1) = Some [card]
  ∧ App.draftComplete Sample.lastPick = false
  ∧ (Player.draftedCards <$> head (App.players Sample.lastPick)) = Some []
  ∧ (Player.draftedCards <$> head (App.players st')) = Some [card].
Proof.
  intros card st'. split; [|split; [|split]]; vm_compute; reflexivity.
Qed.

Lemma undo_history_bounded_witness :
  let st := Sample.afterPicks 14 in
  let card := Sample.card "land-0" "common" "Basic Land - Forest" [] in
  length (App.draftHistory st) ≤ 5
  ∧ App.draftHistory (committed (handlePick ∅ ∅ st card)) = []
  ∧ App.draftHistory (changeSet "neo" st) = [].
Proof.
  intros st card.
  destruct (undo_history_bounded ∅ ∅ st (afterPicks_reachable 14))
    as (Hbound & Hround & _ & Hset).
  split; [exact Hbound|]. split.
  - apply Hround. vm_compute. discriminate.
  - apply Hset. discriminate.
Defined.


(** ** Colour affinity *)

Lemma bump_length counts color : length (bump counts color) = length counts.
Proof. unfold bump. apply length_fmap. Qed.

Lemma countColors_length deck : length (countColors deck) = 5.
Proof.
  unfold countColors.
  assert (∀ colors counts, length (foldl bump counts colors) = length counts) as Hinner.
  { induction colors as [|c colors IH]; intros counts; simpl; [done|].
    by rewrite IH, bump_length. }
  assert (∀ counts,
    length (foldl (λ counts card, foldl bump counts (default [] (Card.colors card)))
              counts deck) = length counts) as Houter.
  { induction deck as [|card deck IH]; intros counts; simpl; [done|].
    by rewrite IH, Hinner. }
  by rewrite Houter.
Qed.

Lemma sortedColors_length draftedCards : length (sortedColors draftedCards) = 2.
Proof.
  unfold sortedColors.
  rewrite length_take, length_fmap.
  rewrite (Permutation_length (sort_Permutation _ _)), countColors_length. done.
Qed.

(** The guard [sortedColors.length > 0] always holds: the prior affinity is
    never kept. *)
Lemma updatePlayerColors_colors player :
  Player.colors (updatePlayerColors player) = sortedColors (Player.draftedCards player).
Proof.
  unfold updatePlayerColors. simpl. by rewrite sortedColors_length.
Qed.

(** C4: the code against the claim.  A seat with affinity R, G and no
    coloured card drafted should keep R, G; [updatePlayerColors] gives it
    W, U.  A seat that drafted one white card should have affinity W alone;
    it gets W and U, and U occurs on none of its cards. *)
Theorem updatePlayerColors_overwrites_affinity :
  Player.draftedCards Sample.redGreenSeat = []
  ∧ Player.colors Sample.redGreenSeat = [R; G]
  ∧ Player.colors (updatePlayerColors Sample.redGreenSeat) = [W; U]
  ∧ Card.colors Sample.whiteCard = Some [W]
  ∧ sortedColors [Sample.whiteCard] = [W; U].
Proof.
  split; [|split; [|split; [|split]]]; vm_compute; reflexivity.
Qed.

(** ** Scoring *)

(** Without a ratings row the colours of the card are never looked at. *)
Lemma cardColorInfo_without_stats card : cardColorInfo None card = [].
Proof. reflexivity. Qed.

(** C5: the code against the claim.  A white card without a ratings row,
    scored for a seat with affinity W, U, should earn 5 + 3 for its
    colour; [calculateCardScore] treats it as colourless and adds 3. *)
Theorem colour_bonus_ignores_card_colours :
  let stats := (∅ : gmap string Stats.t) !! Card.name Sample.whiteCard in
  stats = None
  ∧ Card.colors Sample.whiteCard = Some [W]
  ∧ cardColorInfo stats Sample.whiteCard = []
  ∧ colorScore (cardColorInfo stats Sample.whiteCard)
      (Player.colors Sample.whiteBlueSeat) = 3%float
  ∧ colorScore ["W"] (Player.colors Sample.whiteBlueSeat) = 8%float
  ∧ calculateCardScore ∅ ∅ Sample.whiteCard Sample.whiteBlueSeat = 16%float.
Proof.
  intros stats.
  split; [|split; [|split; [|split; [|split]]]]; vm_compute; reflexivity.
Qed.

(** C10 (amended): the branch of the score is chosen by the win rate, not
    by the row.  A card whose ratings row has a zero (or [NaN])
    games-in-hand win rate gets rarity, mana value and type, plus the
    colour score not multiplied by 1.5, plus the colour-pair bonus.  The
    colours are those of the row when the row names any; when it names
    none, the score is the score the card has without a row. *)
Theorem zero_gihwr_takes_fallback
    (cardStats : gmap string Stats.t) (colorPairStats : gmap string float)
    card seat row :
  cardStats !! Card.name card = Some row →
  JS.truthy (Stats.gihwr row) = false →
  (Stats.color row ≠ "" →
   calculateCardScore cardStats colorPairStats card seat
   = (fallbackScore card
      + colorScore (splitChars (Stats.color row)) (Player.colors seat)
      + getColorPairBonus colorPairStats (splitChars (Stats.color row))
          (Player.colors seat))%float)
  ∧ (Stats.color row = "" →
     calculateCardScore cardStats colorPairStats card seat
     = calculateCardScore (delete (Card.name card) cardStats) colorPairStats card seat).
Proof.
  intros Hrow Hzero. unfold calculateCardScore.
  rewrite Hrow. simpl. rewrite Hzero. split.
  - done.
  - intros Hcolor. rewrite lookup_delete_eq. simpl.
    unfold cardColorInfo. simpl. by rewrite Hcolor.
Qed.

Lemma zero_gihwr_takes_fallback_witness :
  (Sample.unratedWhite !! Card.name Sample.whiteCard = Some (Stats.mk 0 0 0 "W")
   ∧ calculateCardScore Sample.unratedWhite ∅ Sample.whiteCard Sample.whiteBlueSeat
     = (fallbackScore Sample.whiteCard
        + colorScore ["W"] (Player.colors Sample.whiteBlueSeat)
        + getColorPairBonus ∅ ["W"] (Player.colors Sample.whiteBlueSeat))%float)
  ∧ (Sample.unratedNoColour !! Card.name Sample.whiteCard = Some (Stats.mk 0 0 0 "")
     ∧ calculateCardScore Sample.unratedNoColour ∅ Sample.whiteCard Sample.whiteBlueSeat
       = calculateCardScore (delete (Card.name Sample.whiteCard) Sample.unratedNoColour) ∅
           Sample.whiteCard Sample.whiteBlueSeat).
Proof.
  split.
  - split; [vm_compute; reflexivity|].
    refine (proj1 (zero_gihwr_takes_fallback Sample.unratedWhite ∅ Sample.whiteCard
                     Sample.whiteBlueSeat (Stats.mk 0 0 0 "W") _ _) _).
    + vm_compute. reflexivity.
    + vm_compute. reflexivity.
    + discriminate.
  - split; [vm_compute; reflexivity|].
    refine (proj2 (zero_gihwr_takes_fallback Sample.unratedNoColour ∅ Sample.whiteCard
                     Sample.whiteBlueSeat (Stats.mk 0 0 0 "") _ _) _).
    + vm_compute. reflexivity.
    + vm_compute. reflexivity.
    + reflexivity.
Defined.

(** A card that carries no colours of its own and whose row records colour
    W and a zero win rate scores 21 (13 for rarity, mana value and type, 8
    for the colour of the row); without the row it is colourless and scores
    16.  The colours of the card, to which the score falls back without a
    row, are none: the difference is the colour of the row alone. *)
Lemma zero_gihwr_row_colour_counts :
  Sample.unratedPlain !! Card.name Sample.plainCard = Some (Stats.mk 0 0 0 "W")
  ∧ Card.colors Sample.plainCard = None
  ∧ colorLetter <$> default [] (Card.colors Sample.plainCard) = []
  ∧ fallbackScore Sample.plainCard = 13%float
  ∧ calculateCardScore Sample.unratedPlain ∅ Sample.plainCard Sample.whiteBlueSeat
    = 21%float
  ∧ calculateCardScore ∅ ∅ Sample.plainCard Sample.whiteBlueSeat = 16%float
  ∧ calculateCardScore Sample.unratedPlain ∅ Sample.plainCard Sample.whiteBlueSeat
    ≠ calculateCardScore ∅ ∅ Sample.plainCard Sample.whiteBlueSeat.
Proof.
  split; [|split; [|split; [|split; [|split; [|split]]]]]; try (vm_compute; reflexivity).
  vm_compute. discriminate.
Qed.

(** ** Deck builder *)

Lemma addToDeck_present card builtDeck :
  Card.id card ∈ Card.id <$> builtDeck → addToDeck card builtDeck = builtDeck.
Proof.
  intros (c & Hid & Hc)%list_elem_of_fmap. unfold addToDeck.
  assert (existsb (λ c, bool_decide (Card.id c = Card.id card)) builtDeck = true) as ->.
  { apply existsb_exists. exists c. split; [by apply list_elem_of_In|].
    by apply bool_decide_eq_true. }
  done.
Qed.

Lemma addToDeck_NoDup card builtDeck :
  NoDup (Card.id <$> builtDeck) → NoDup (Card.id <$> addToDeck card builtDeck).
Proof.
  intros Hnd. unfold addToDeck.
  destruct (existsb _ builtDeck) eqn:Hex; simpl; [done|].
  rewrite fmap_app. apply NoDup_app. split; [done|]. split; [|apply NoDup_singleton].
  intros x (c & -> & Hc)%list_elem_of_fmap Hx%list_elem_of_singleton.
  apply not_true_iff_false in Hex. apply Hex, existsb_exists.
  exists c. split; [by apply list_elem_of_In|]. by apply bool_decide_eq_true.
Qed.

Lemma removeFromDeck_NoDup card builtDeck :
  NoDup (Card.id <$> builtDeck) → NoDup (Card.id <$> removeFromDeck card builtDeck).
Proof.
  intros Hnd. unfold removeFromDeck, removeCard.
  apply (submseteq_NoDup _ (Card.id <$> builtDeck)); [|exact Hnd].
  apply sublist_submseteq, fmap_sublist, sublist_filter.
Qed.

Lemma sortDeck_NoDup criteria builtDeck :
  NoDup (Card.id <$> builtDeck) → NoDup (Card.id <$> sortDeck criteria builtDeck).
Proof.
  intros Hnd. unfold sortDeck. by rewrite sort_Permutation.
Qed.

(** C8: the code against the claim.  [suggestLands] names its lands
    [basic-<colour>-<i>] on every call: the second call on a deck of three
    red cards adds the identifiers of the first call again. *)
Theorem suggestLands_twice_repeats_identifiers :
  NoDup (Card.id <$> Sample.redDeck)
  ∧ NoDup (Card.id <$> suggestLands Sample.redDeck)
  ∧ ¬ NoDup (Card.id <$> suggestLands (suggestLands Sample.redDeck)).
Proof.
  split; [|split].
  - apply (bool_decide_unpack (NoDup _)). vm_compute. exact I.
  - apply (bool_decide_unpack (NoDup _)). vm_compute. exact I.
  - apply (bool_decide_eq_false (NoDup _)). vm_compute. reflexivity.
Qed.

(** C9: the code against the claim.  For a deck of two white and two blue
    cards each colour gets [Math.round(8.5) = 9] lands, 18 in all; a deck
    of one colour does get 17 lands of that colour. *)
Theorem suggestLands_rounds_each_colour :
  (Card.colors <$> Sample.whiteBlueDeck) = [Some [W]; Some [W]; Some [U]; Some [U]]
  ∧ length (suggestedLands Sample.whiteBlueDeck) = 18
  ∧ (Card.name <$> suggestedLands Sample.whiteBlueDeck)
    = replicate 9 "Plains" ++ replicate 9 "Island"
  ∧ (Card.name <$> suggestedLands Sample.redDeck) = replicate 17 "Mountain".
Proof.
  split; [|split; [|split]]; vm_compute; reflexivity.
Qed.

(** * Further properties *)
(** ** Pack generation: what every returned pack satisfies *)

Lemma option_list_elem_of {A} (o : option A) x : x ∈ option_list o → o = Some x.
Proof. destruct o; csimpl; [|by intros ?%not_elem_of_nil]. by intros ->%list_elem_of_singleton. Qed.

Lemma lookup_filter_elem_of (P : Card → Prop) `{∀ x, Decision (P x)} (cards : list Card) (i : nat) c :
  filter P cards !! i = Some c → c ∈ cards ∧ P c.
Proof. intros Hc%list_elem_of_lookup_2. by apply list_elem_of_filter in Hc as [? ?]. Qed.

Lemma shuffled_slice_elem_of (P : Card → Prop) `{∀ x, Decision (P x)} n rolls (cards : list Card) c :
  c ∈ take n (shuffle rolls (filter P cards)) → c ∈ cards ∧ P c.
Proof.
  intros Hc. apply list_elem_of_lookup in Hc as [i Hi].
  apply lookup_take_Some in Hi as [Hi _].
  apply list_elem_of_lookup_2 in Hi. rewrite shuffle_Permutation in Hi.
  by apply list_elem_of_filter in Hi as [? ?].
Qed.

Lemma packAttempt_elem_of d cards c :
  c ∈ packAttempt d cards → c ∈ cards ∧ knownRarity c.
Proof.
  unfold packAttempt, knownRarity. rewrite omap_slots, !elem_of_app.
  intros [Hc|[Hc|[Hc|Hc]]].
  - apply option_list_elem_of in Hc.
    destruct (negb _) in Hc; [destruct (_ && _) in Hc|];
      apply lookup_filter_elem_of in Hc as [? ?]; tauto.
  - apply shuffled_slice_elem_of in Hc as [? ?]; tauto.
  - apply shuffled_slice_elem_of in Hc as [? ?]; tauto.
  - apply option_list_elem_of in Hc.
    destruct (negb _) in Hc; apply lookup_filter_elem_of in Hc as [? ?]; tauto.
Qed.

Lemma landCount_Permutation pack pack' : pack ≡ₚ pack' → landCount pack = landCount pack'.
Proof. unfold landCount. by intros ->. Qed.

Lemma generatePack_landCount draws cards pack :
  generatePack draws cards = Some pack → landCount pack = 1.
Proof.
  intros (d & _ & Hland & ->)%generatePack_Some.
  by rewrite (landCount_Permutation _ _ (sort_Permutation _ _)).
Qed.

Lemma generatePack_elem_of draws cards pack c :
  generatePack draws cards = Some pack → c ∈ pack → c ∈ cards ∧ knownRarity c.
Proof.
  intros (d & _ & _ & ->)%generatePack_Some. rewrite sort_Permutation.
  apply packAttempt_elem_of.
Qed.

Lemma packAttempt_length d cards : length (packAttempt d cards) ≤ 15.
Proof.
  destruct (packAttempt_slots d cards) as (rareCard & landCard & -> & _).
  rewrite !length_app, !length_take.
  pose proof (Nat.le_min_l 3 (length (shuffle (uncommonRolls d)
    (filter (λ c, Card.rarity c = Some "uncommon") cards)))).
  pose proof (Nat.le_min_l 10 (length (shuffle (commonRolls d)
    (filter (λ c, Card.rarity c = Some "common") cards)))).
  assert (Hle : ∀ o : option Card, length (option_list o) ≤ 1) by (by intros []; simpl; lia).
  pose proof (Hle rareCard). pose proof (Hle landCard). lia.
Qed.

(** X1: a pack that [generatePack] returns holds exactly one basic land
    and at most fifteen cards, and every card of it is a card of the pool,
    whatever the pool and the random draws were. *)
Theorem generatePack_one_land_from_pool draws cards pack :
  generatePack draws cards = Some pack →
  landCount pack = 1 ∧ length pack ≤ 15 ∧ ∀ c, c ∈ pack → c ∈ cards.
Proof.
  intros Hpack. split; [by eapply generatePack_landCount|]. split.
  - apply generatePack_Some in Hpack as (d & _ & _ & ->).
    rewrite sort_Permutation. apply packAttempt_length.
  - intros c Hc. by eapply generatePack_elem_of.
Qed.

Lemma generatePack_one_land_from_pool_witness :
  ∃ pack, generatePack [Sample.draw] Sample.pool = Some pack
          ∧ landCount pack = 1 ∧ length pack ≤ 15 ∧ ∀ c, c ∈ pack → c ∈ Sample.pool.
Proof.
  eexists. split; [vm_compute; reflexivity|].
  apply (generatePack_one_land_from_pool [Sample.draw]). vm_compute; reflexivity.
Defined.

Lemma rarityOrder_known c :
  knownRarity c →
  ∃ k, rarityOrder (packRarity c) = Some k
       ∧ (isBasicLand c → k = 5%Z) ∧ (¬ isBasicLand c → (k ≤ 4)%Z).
Proof.
  unfold knownRarity, packRarity. destruct (isBasicLand c) eqn:Hland.
  - intros _. exists 5%Z. split; [done|]. split; [done|]. by intros [].
  - intros [[]|[->|[->|[->| ->]]]]; eexists; (split; [reflexivity|]);
      (split; [by intros []|intros _; lia]).
Qed.

Lemma Sorted_StronglySorted_on {A} (R : A → A → Prop) (P : A → Prop) l :
  (∀ a b c, P a → P b → P c → R a b → R b c → R a c) →
  Forall P l → Sorted R l → StronglySorted R l.
Proof.
  intros Htrans. induction l as [|a l IH]; intros HP Hsorted; [constructor|].
  apply Forall_cons in HP as [Ha HP]. apply Sorted_inv in Hsorted as [Hsorted Hhd].
  specialize (IH HP Hsorted). constructor; [done|].
  destruct Hhd as [|b l Hab]; [constructor|].
  apply Forall_cons in HP as [Hb HP]. apply StronglySorted_inv in IH as [_ Hbl].
  constructor; [done|].
  rewrite Forall_forall in *. intros c Hc. eapply (Htrans a b c); eauto.
Qed.

Lemma StronglySorted_middle {A} (R : A → A → Prop) l1 x l2 :
  StronglySorted R (l1 ++ x :: l2) → Forall (R x) l2.
Proof.
  induction l1 as [|a l1 IH]; simpl; intros [? ?]%StronglySorted_inv; auto.
Qed.

Lemma rarityAfter_asym a b : rarityAfter a b = true → rarityAfter b a = false.
Proof.
  unfold rarityAfter.
  destruct (rarityOrder (packRarity a)), (rarityOrder (packRarity b)); try done.
  intros ?%Z.ltb_lt. apply Z.ltb_ge. lia.
Qed.

Lemma rarityAfter_trans a b c :
  knownRarity a → knownRarity b → knownRarity c →
  rarityAfter a b = false → rarityAfter b c = false → rarityAfter a c = false.
Proof.
  intros (ka & Ha & _)%rarityOrder_known (kb & Hb & _)%rarityOrder_known
         (kc & Hc & _)%rarityOrder_known.
  unfold rarityAfter. rewrite Ha, Hb, Hc, !Z.ltb_ge. lia.
Qed.

(** X2: the cards of a returned pack are in the order mythic or rare,
    uncommon, common, basic land: no card stands before one of a lower rank,
    and the one basic land is the last card. *)
Theorem generatePack_rarity_order draws cards pack :
  generatePack draws cards = Some pack →
  StronglySorted (λ a b, rarityAfter a b = false) pack
  ∧ ∃ front land, pack = front ++ [land] ∧ isBasicLand land
                  ∧ Forall (λ c, ¬ isBasicLand c) front.
Proof.
  intros Hpack.
  assert (Hknown : Forall knownRarity pack).
  { apply Forall_forall. intros c Hc. by eapply generatePack_elem_of. }
  assert (Hsorted : StronglySorted (λ a b, rarityAfter a b = false) pack).
  { apply (Sorted_StronglySorted_on _ knownRarity); [apply rarityAfter_trans|done|].
    apply generatePack_Some in Hpack as (d & _ & _ & ->).
    apply sort_Sorted, rarityAfter_asym. }
  split; [done|].
  pose proof (generatePack_landCount _ _ _ Hpack) as Hone. unfold landCount in Hone.
  destruct (filter (λ c, isBasicLand c) pack) as [|land [|]] eqn:Hlands; try done.
  assert (Hland : land ∈ filter (λ c, isBasicLand c) pack) by (rewrite Hlands; left).
  apply list_elem_of_filter in Hland as [Hland Hin].
  apply list_elem_of_split in Hin as (front & back & ->).
  rewrite filter_app, filter_cons_True in Hlands by done.
  assert (Hfront : filter (λ c, isBasicLand c) front = []).
  { destruct (filter _ front); [done|].
    apply (f_equal length) in Hlands. rewrite length_app in Hlands. simpl in Hlands. lia. }
  rewrite Hfront in Hlands. simpl in Hlands.
  assert (Hback : Forall (λ c, ¬ isBasicLand c) back).
  { apply (filter_length_0 (λ c, isBasicLand c)). by injection Hlands as ->. }
  assert (back = []) as ->.
  { destruct back as [|c back]; [done|]. exfalso.
    apply StronglySorted_middle, Forall_cons in Hsorted as [Hafter _].
    apply Forall_cons in Hback as [Hc _].
    apply Forall_app in Hknown as [_ [Hkl [Hkc _]%Forall_cons]%Forall_cons].
    apply rarityOrder_known in Hkl as (kl & Hl & Hl5 & _).
    apply rarityOrder_known in Hkc as (kc & Hkc & _ & Hc4).
    unfold rarityAfter in Hafter. rewrite Hl, Hkc in Hafter.
    apply Z.ltb_ge in Hafter. specialize (Hl5 Hland). specialize (Hc4 Hc). lia. }
  exists front, land. split; [done|]. split; [done|].
  apply (filter_length_0 (λ c, isBasicLand c)). by rewrite Hfront.
Qed.

Lemma generatePack_rarity_order_witness :
  ∃ pack, generatePack [Sample.draw] Sample.pool = Some pack
          ∧ StronglySorted (λ a b, rarityAfter a b = false) pack
          ∧ ∃ front land, pack = front ++ [land] ∧ isBasicLand land
                          ∧ Forall (λ c, ¬ isBasicLand c) front.
Proof.
  eexists. split; [vm_compute; reflexivity|].
  apply (generatePack_rarity_order [Sample.draw] Sample.pool). vm_compute; reflexivity.
Defined.

Lemma generatePack_no_land draws cards :
  Forall (λ c, ¬ isBasicLand c) cards → generatePack draws cards = None.
Proof.
  intros Hcards. induction draws as [|d draws IH]; [done|]. simpl.
  assert (landCount (packAttempt d cards) = 0) as ->; [|done].
  unfold landCount. rewrite (filter_none (λ c, isBasicLand c)); [done|].
  apply Forall_forall. intros c [Hc _]%packAttempt_elem_of.
  by eapply Forall_forall in Hcards.
Qed.

(** X3: on a pool without a basic land [generatePack] regenerates for as
    long as it is given draws and never returns a pack; [initializeDraft]
    then fails with it, and the answer to the card request seats nobody. *)
Theorem generatePack_without_basic_land draws seed cards st :
  Forall (λ c, ¬ isBasicLand c) cards →
  generatePack draws cards = None
  ∧ initializeDraft seed cards = None
  ∧ App.players (cardsFetched seed cards st) = App.players st.
Proof.
  intros Hcards.
  assert (Hnone : initializeDraft seed cards = None).
  { unfold initializeDraft. rewrite imap_cons. cbn [mapM].
    cbn [fst]. by rewrite (generatePack_no_land (default [] (packDraws seed !! (3 * 0))) _ Hcards). }
  split; [by apply generatePack_no_land|]. split; [done|].
  unfold cardsFetched. rewrite Hnone. by destruct (_ =? _).
Qed.

Lemma generatePack_without_basic_land_witness :
  let cards := Sample.numbered "common-" "common" "Creature" [W] 12 in
  generatePack [Sample.draw; Sample.draw] cards = None
  ∧ initializeDraft Sample.seed cards = None
  ∧ App.players (cardsFetched Sample.seed cards App.initial) = [].
Proof.
  apply (generatePack_without_basic_land [Sample.draw; Sample.draw] Sample.seed
           (Sample.numbered "common-" "common" "Creature" [W] 12) App.initial).
  apply (bool_decide_unpack (Forall _ _)). vm_compute. reflexivity.
Defined.

Lemma filter_take_length {A} (P : A → Prop) `{∀ x, Decision (P x)} n (l : list A) :
  length (filter P (take n l)) ≤ length (filter P l).
Proof. rewrite <- (take_drop n l) at 2. rewrite filter_app, length_app. lia. Qed.

Lemma filter_complement_length {A} (P : A → Prop) `{∀ x, Decision (P x)} (l : list A) :
  length (filter P l) + length (filter (λ x, ¬ P x) l) = length l.
Proof. by rewrite <- length_app, filter_app_complement. Qed.

(** X5: when a basic land of the pool is a common and the pool has fewer
    than ten commons that are no basic lands, every attempt deals a basic
    land among the commons and another in the land slot, so [generatePack]
    never returns, whatever the draws. *)
Theorem generatePack_few_commons draws cards land :
  land ∈ cards → isBasicLand land → Card.rarity land = Some "common" →
  length (filter (λ c, Card.rarity c = Some "common" ∧ ¬ isBasicLand c) cards) < 10 →
  generatePack draws cards = None.
Proof.
  intros Hin Hland Hcommon Hfew. induction draws as [|d draws IH]; [done|]. simpl.
  assert (2 ≤ landCount (packAttempt d cards)) as Htwo.
  { destruct (packAttempt_slots d cards) as (rareCard & landCard & -> & _ & Hl).
    destruct Hl as (l & -> & _ & Hl).
    { intros Hnil. assert (land ∈ filter (λ c, isBasicLand c) cards) as Hin'
        by by apply list_elem_of_filter.
      rewrite Hnil in Hin'. by apply not_elem_of_nil in Hin'. }
    unfold landCount. rewrite (count_slots (λ c, isBasicLand c)).
    simpl option_list at 2.
    rewrite (filter_cons_True (λ c, isBasicLand c)) by done. simpl length at 4.
    set (commons := filter (λ c, Card.rarity c = Some "common") cards).
    set (slice := take 10 (shuffle (commonRolls d) commons)).
    enough (1 ≤ length (filter (λ c, isBasicLand c) slice)) by lia.
    rewrite filter_and in Hfew. fold commons in Hfew.
    destruct (decide (length commons ≤ 10)) as [Hshort|Hlong].
    - unfold slice. rewrite take_ge by (rewrite shuffle_Permutation; lia).
      rewrite shuffle_Permutation.
      assert (land ∈ filter (λ c, isBasicLand c) commons) as Hin'
        by (apply list_elem_of_filter; split; [done|by apply list_elem_of_filter]).
      destruct (filter (λ c, isBasicLand c) commons);
        [by apply not_elem_of_nil in Hin'|]. simpl. lia.
    - pose proof (filter_complement_length (λ c, isBasicLand c) slice) as Hsplit.
      pose proof (filter_take_length (λ c, ¬ isBasicLand c) 10
                    (shuffle (commonRolls d) commons)) as Hplain.
      assert (length (filter (λ c, ¬ isBasicLand c) (shuffle (commonRolls d) commons))
              = length (filter (λ c, ¬ isBasicLand c) commons)) as Hshuffled
        by (by rewrite shuffle_Permutation).
      fold slice in Hplain.
      assert (length slice = 10) as Hten.
      { unfold slice. rewrite length_take, shuffle_Permutation. lia. }
      lia. }
  destruct (landCount (packAttempt d cards)) as [|[|n]]; [lia|lia|done].
Qed.

Lemma generatePack_few_commons_witness :
  let cards :=
    Sample.numbered "rare-" "rare" "Sorcery" [R] 1
    ++ Sample.numbered "uncommon-" "uncommon" "Instant" [U] 3
    ++ Sample.numbered "common-" "common" "Creature" [W] 9
    ++ Sample.numbered "land-" "common" "Basic Land - Forest" [] 1 in
  generatePack [Sample.draw; Sample.draw] cards = None.
Proof.
  apply (generatePack_few_commons [Sample.draw; Sample.draw]
           (Sample.numbered "rare-" "rare" "Sorcery" [R] 1
            ++ Sample.numbered "uncommon-" "uncommon" "Instant" [U] 3
            ++ Sample.numbered "common-" "common" "Creature" [W] 9
            ++ Sample.numbered "land-" "common" "Basic Land - Forest" [] 1)
           (Sample.card "land-0" "common" "Basic Land - Forest" []));
    [|vm_compute; exact I|reflexivity|vm_compute; lia].
  do 3 (apply elem_of_app; right).
  assert (Sample.numbered "land-" "common" "Basic Land - Forest" [] 1
          = [Sample.card "land-0" "common" "Basic Land - Forest" []]) as ->
    by (vm_compute; reflexivity).
  left.
Defined.

(** A draw whose attempt holds one basic land: the commons are shuffled so
    that ten without a basic land come first, and the rare slot, when it
    falls back to the commons, takes one that is no basic land. *)
Lemma packAttempt_good_draw cards :
  (∀ c, c ∈ cards → isBasicLand c → Card.rarity c = Some "common") →
  1 ≤ length (filter (λ c, isBasicLand c) cards) →
  10 ≤ length (filter (λ c, Card.rarity c = Some "common" ∧ ¬ isBasicLand c) cards) →
  ∃ d, landCount (packAttempt d cards) = 1.
Proof.
  intros Hlands Hl Hc.
  set (commons := filter (λ c, Card.rarity c = Some "common") cards).
  set (plain := filter (λ c, ¬ isBasicLand c) commons).
  rewrite filter_and in Hc. fold commons plain in Hc.
  destruct (shuffle_reaches commons (plain ++ filter (λ c, ¬ ¬ isBasicLand c) commons))
    as [rolls Hrolls].
  { symmetry. apply filter_app_complement. }
  assert (∃ i x, commons !! i = Some x ∧ ¬ isBasicLand x ∧ i < length commons)
    as (i & x & Hi & Hx & Hlt).
  { destruct plain as [|x plain'] eqn:Hplain; [simpl in Hc; lia|].
    assert (Hin : x ∈ plain) by (rewrite Hplain; left).
    apply list_elem_of_filter in Hin as [Hx Hin].
    apply list_elem_of_lookup in Hin as [i Hi].
    exists i, x. split; [done|]. split; [done|]. by eapply lookup_lt_Some. }
  set (d := {| mythicRoll := false; rareRoll := i; uncommonRolls := [];
               commonRolls := rolls; landRoll := 0 |}).
  exists d.
  unfold packAttempt. rewrite omap_slots. cbn [mythicRoll rareRoll uncommonRolls
    commonRolls landRoll d]. rewrite andb_false_r. fold commons.
  unfold landCount. rewrite count_slots.
  rewrite (filter_none _ (option_list _)), (filter_none _ (take 3 _)),
    (filter_none _ (take 10 _)).
  - destruct (filter (λ c, isBasicLand c) cards) as [|l lands] eqn:Hl'; [simpl in Hl; lia|].
    simpl. rewrite Nat.sub_diag. simpl.
    assert (Hin : l ∈ filter (λ c, isBasicLand c) cards) by (rewrite Hl'; left).
    apply list_elem_of_filter in Hin as [Hland _].
    by rewrite (filter_cons_True (λ c, isBasicLand c)).
  - rewrite Hrolls, take_app_le by done.
    apply Forall_forall. intros c Hc0.
    pose proof (elem_of_submseteq _ _ _ Hc0 (submseteq_take plain 10)) as Hplain.
    by destruct (proj1 (list_elem_of_filter _ _ _) Hplain).
  - apply Forall_forall. intros c [Hin Hrarity]%shuffled_slice_elem_of Hland.
    rewrite (Hlands c Hin Hland) in Hrarity. done.
  - apply Forall_forall. intros c Hc0%option_list_elem_of.
    destruct (negb _) in Hc0.
    + apply lookup_filter_elem_of in Hc0 as [Hin Hrarity]. intros Hland.
      rewrite (Hlands c Hin Hland) in Hrarity. done.
    + unfold randomIndex in Hc0. rewrite Nat.mod_small in Hc0 by done.
      rewrite Hi in Hc0. by injection Hc0 as <-.
Qed.

(** X6: the regeneration can stop without a rare or three uncommons in
    the pool: when every basic land of the pool is a common, the pool has a
    basic land and at least ten commons that are no basic lands, there is a
    draw on which the first attempt of [generatePack] is returned. *)
Theorem generatePack_some_draw_returns cards :
  (∀ c, c ∈ cards → isBasicLand c → Card.rarity c = Some "common") →
  1 ≤ length (filter (λ c, isBasicLand c) cards) →
  10 ≤ length (filter (λ c, Card.rarity c = Some "common" ∧ ¬ isBasicLand c) cards) →
  ∃ d pack, generatePack [d] cards = Some pack.
Proof.
  intros Hlands Hland Hcommons.
  destruct (packAttempt_good_draw cards Hlands Hland Hcommons) as [d Hd].
  exists d. simpl. rewrite Hd. by eexists.
Qed.

Lemma generatePack_some_draw_returns_witness :
  ∃ d pack,
    generatePack [d] (Sample.numbered "common-" "common" "Creature" [W] 10
                      ++ Sample.numbered "land-" "common" "Basic Land - Forest" [] 1)
    = Some pack.
Proof.
  apply (generatePack_some_draw_returns
           (Sample.numbered "common-" "common" "Creature" [W] 10
            ++ Sample.numbered "land-" "common" "Basic Land - Forest" [] 1)).
  - apply (proj1 (Forall_forall (λ c, isBasicLand c → Card.rarity c = Some "common") _)).
    apply (bool_decide_unpack (Forall _ _)).
    vm_compute. exact I.
  - vm_compute. lia.
  - vm_compute. lia.
Defined.

(** X4: a pool short of uncommons does not make [generatePack] fail.
    When every basic land of the pool is a common and the pool has a rare,
    a basic land and at least ten commons that are no basic lands, some
    draw returns a pack, and every pack returned holds the rare slot, the
    land, ten commons and as many uncommons as the pool has, up to
    three. *)
Theorem generatePack_short_pool cards :
  (∀ c, c ∈ cards → isBasicLand c → Card.rarity c = Some "common") →
  filter (λ c, Card.rarity c = Some "rare") cards ≠ [] →
  1 ≤ length (filter (λ c, isBasicLand c) cards) →
  10 ≤ length (filter (λ c, Card.rarity c = Some "common" ∧ ¬ isBasicLand c) cards) →
  (∃ d pack, generatePack [d] cards = Some pack)
  ∧ ∀ draws pack,
      generatePack draws cards = Some pack →
      length pack = 12 + 3 `min` length (filter (λ c, Card.rarity c = Some "uncommon") cards)
      ∧ length (filter (λ c, Card.rarity c = Some "uncommon") pack)
        = 3 `min` length (filter (λ c, Card.rarity c = Some "uncommon") cards).
Proof.
  intros Hlands Hrare Hland Hcommons. split.
  { destruct (packAttempt_good_draw cards Hlands Hland Hcommons) as [d Hd].
    exists d. simpl. rewrite Hd. by eexists. }
  intros draws pack (d & _ & _ & ->)%generatePack_Some.
  rewrite !sort_Permutation.
  destruct (packAttempt_slots d cards) as (rareCard & landCard & -> & Hr & Hl).
  destruct (Hr Hrare) as (r & -> & _ & Hrarity).
  destruct Hl as (l & -> & Hlin & Hl); [intros Hnil; rewrite Hnil in Hland; simpl in Hland; lia|].
  pose proof (filter_and_length_le (λ c, Card.rarity c = Some "common")
                (λ c, ¬ isBasicLand c) cards) as Hten.
  split.
  - rewrite !length_app, !length_take, !shuffle_Permutation.
    change (length (option_list (Some r))) with 1.
    change (length (option_list (Some l))) with 1. lia.
  - rewrite (count_slots (λ c, Card.rarity c = Some "uncommon")).
    rewrite (filter_none _ (option_list (Some r))), (filter_none _ (take 10 _)),
      (filter_none _ (option_list (Some l))), (filter_all _ (take 3 _)).
    + rewrite length_take, shuffle_Permutation. cbn [length]. lia.
    + apply Forall_forall. by intros c [_ ?]%shuffled_slice_elem_of.
    + constructor; [|done]. by rewrite (Hlands l Hlin Hl).
    + apply Forall_forall. intros c [_ Hc]%shuffled_slice_elem_of. by rewrite Hc.
    + constructor; [|done]. by destruct Hrarity as [-> | ->].
Qed.

Lemma generatePack_short_pool_witness :
  let cards :=
    Sample.numbered "rare-" "rare" "Sorcery" [R] 1
    ++ Sample.numbered "uncommon-" "uncommon" "Instant" [U] 2
    ++ Sample.numbered "common-" "common" "Creature" [W] 11
    ++ Sample.numbered "land-" "common" "Basic Land - Forest" [] 1 in
  ∃ pack, generatePack [Sample.draw] cards = Some pack
          ∧ length pack = 14
          ∧ length (filter (λ c, Card.rarity c = Some "uncommon") pack) = 2.
Proof.
  intros cards. eexists. split; [vm_compute; reflexivity|].
  refine (proj2 (generatePack_short_pool cards _ _ _ _) [Sample.draw] _ _).
  - apply (proj1 (Forall_forall (λ c, isBasicLand c → Card.rarity c = Some "common") _)).
    apply (bool_decide_unpack (Forall _ _)). vm_compute. exact I.
  - vm_compute. discriminate.
  - vm_compute. lia.
  - vm_compute. lia.
  - vm_compute. reflexivity.
Defined.


(** ** Starting a draft *)

Lemma initializeDraft_lookup seed cards players :
  initializeDraft seed cards = Some players →
  length players = 8
  ∧ ∀ i p, players !! i = Some p →
      ∃ q p1 p2 p3 d1 d2 d3,
        (Player.mk "human" [] [] [] [] :: initializeAIOpponents (colorRolls seed) 7) !! i
          = Some q
        ∧ generatePack d1 cards = Some p1 ∧ generatePack d2 cards = Some p2
        ∧ generatePack d3 cards = Some p3
        ∧ p = Player.mk (Player.id q) (Player.colors q) (Player.draftedCards q)
                (Player.sideboard q) [p1; p2; p3].
Proof.
  unfold initializeDraft. intros Hall%mapM_Some_1.
  apply Forall2_same_length_lookup in Hall as [Hlen Hall].
  rewrite length_imap in Hlen. split; [by rewrite <- Hlen|].
  intros i p Hp.
  assert (is_Some ((Player.mk "human" [] [] [] []
                    :: initializeAIOpponents (colorRolls seed) 7) !! i)) as [q Hq].
  { apply lookup_lt_is_Some. rewrite Hlen. by eapply lookup_lt_Some. }
  specialize (Hall i (i, q) p). rewrite list_lookup_imap, Hq in Hall.
  specialize (Hall eq_refl Hp). cbn [fst snd] in Hall.
  apply bind_Some in Hall as (p1 & H1 & Hall).
  apply bind_Some in Hall as (p2 & H2 & Hall).
  apply bind_Some in Hall as (p3 & H3 & Hall).
  injection Hall as <-. eauto 12.
Qed.

(** X7: when [initializeDraft] returns, eight seats are at the table: the
    seat "human" without a colour, then "AI_1" to "AI_7" with one colour
    each; nobody has drafted a card, and every seat holds three packs with
    exactly one basic land each. *)
Theorem initializeDraft_table seed cards players :
  initializeDraft seed cards = Some players →
  length players = 8
  ∧ ∀ i p, players !! i = Some p →
      Player.id p = (if i =? 0 then "human" else "AI_" +:+ pretty i)
      ∧ length (Player.colors p) = (if i =? 0 then 0 else 1)
      ∧ Player.draftedCards p = [] ∧ Player.sideboard p = []
      ∧ length (Player.packs p) = 3
      ∧ Forall (λ pack, landCount pack = 1) (Player.packs p).
Proof.
  intros [Hlen Hall]%initializeDraft_lookup. split; [done|].
  intros i p Hp.
  destruct (Hall i p Hp) as (q & p1 & p2 & p3 & d1 & d2 & d3 & Hq & H1 & H2 & H3 & ->).
  assert (Player.id q = (if i =? 0 then "human" else "AI_" +:+ pretty i)
          ∧ length (Player.colors q) = (if i =? 0 then 0 else 1)
          ∧ Player.draftedCards q = [] ∧ Player.sideboard q = []) as (? & ? & ? & ?).
  { destruct i as [|j]; [by injection Hq as <-|].
    change (initializeAIOpponents (colorRolls seed) 7 !! j = Some q) in Hq.
    unfold initializeAIOpponents in Hq.
    rewrite list_lookup_fmap in Hq.
    destruct (seq 0 7 !! j) as [k|] eqn:Hk; [|done].
    apply lookup_seq in Hk as [-> _]. injection Hq as <-. simpl.
    by rewrite Nat.add_1_r. }
  simpl. repeat (split; [done|]).
  repeat constructor; by eapply generatePack_landCount.
Qed.

Lemma initializeDraft_table_witness :
  ∃ players,
    initializeDraft Sample.seed Sample.pool = Some players
    ∧ length players = 8
    ∧ ∀ i p, players !! i = Some p →
        Player.id p = (if i =? 0 then "human" else "AI_" +:+ pretty i)
        ∧ length (Player.colors p) = (if i =? 0 then 0 else 1)
        ∧ Player.draftedCards p = [] ∧ Player.sideboard p = []
        ∧ length (Player.packs p) = 3
        ∧ Forall (λ pack, landCount pack = 1) (Player.packs p).
Proof.
  eexists. split; [vm_compute; reflexivity|].
  apply (initializeDraft_table Sample.seed Sample.pool). vm_compute; reflexivity.
Defined.

(** ** The pass protocol: what a pass keeps *)

Lemma passPacks_inv players round players' :
  passPacks players round = Some players' →
  ∃ packs,
    mapM (λ p, packAt p round) players = Some packs
    ∧ length players' = length players
    ∧ ∀ i receiver, players !! i = Some receiver →
        ∃ pack,
          packs !! nextIndex (if round mod 2 =? 1 then "left" else "right")
                     i (length players) = Some pack
          ∧ is_Some (packAt receiver round)
          ∧ players' !! i = Some (setPack receiver round (trimLands pack)).
Proof.
  intros Hpass.
  destruct (mapM (λ p, packAt p round) players) as [packs|] eqn:Hpacks;
    [|by unfold passPacks in Hpass; rewrite Hpacks in Hpass].
  exists packs. split; [done|].
  assert (Hseated : Forall (λ p, is_Some (packAt p round)) players).
  { apply (mapM_is_Some_1 (λ p, packAt p round)). by rewrite Hpacks. }
  destruct (passPacks_lookup players round Hseated) as (players'' & Hpass' & Hlen & Hall).
  rewrite Hpass in Hpass'. injection Hpass' as <-. split; [done|].
  intros i receiver Hi. destruct (Hall i receiver Hi) as (giver & pack & Hgiver & Hpack & Hi').
  exists pack. split; [|split; [|done]].
  - apply mapM_Some_1 in Hpacks.
    destruct (Forall2_lookup_l _ _ _ _ _ Hpacks Hgiver) as (pack' & Hpack' & Heq).
    rewrite Hpack'. congruence.
  - exact (Forall_lookup_1 _ _ _ _ Hseated Hi).
Qed.

Lemma setPack_frame player round pack :
  let player' := setPack player round pack in
  Player.id player' = Player.id player
  ∧ Player.colors player' = Player.colors player
  ∧ Player.draftedCards player' = Player.draftedCards player
  ∧ Player.sideboard player' = Player.sideboard player
  ∧ length (Player.packs player') = length (Player.packs player)
  ∧ ∀ r, r ≠ round → packAt player' r = packAt player r.
Proof.
  destruct round as [|k]; simpl; [done|].
  repeat (split; [done|]). split; [by rewrite length_insert|].
  intros [|r] Hr; [done|]. simpl. apply list_lookup_insert_ne. lia.
Qed.

(** X8: a pass changes nothing but the pack of the current round: the
    seats stay in their order with their names, colours, drafted cards and
    sideboards, and the packs of the other rounds stay where they are. *)
Theorem passPacks_frame players round players' :
  passPacks players round = Some players' →
  length players' = length players
  ∧ ∀ i p p', players !! i = Some p → players' !! i = Some p' →
      Player.id p' = Player.id p
      ∧ Player.colors p' = Player.colors p
      ∧ Player.draftedCards p' = Player.draftedCards p
      ∧ Player.sideboard p' = Player.sideboard p
      ∧ length (Player.packs p') = length (Player.packs p)
      ∧ ∀ r, r ≠ round → packAt p' r = packAt p r.
Proof.
  intros (packs & _ & Hlen & Hall)%passPacks_inv. split; [done|].
  intros i p p' Hp Hp'. destruct (Hall i p Hp) as (pack & _ & _ & Hi).
  rewrite Hp' in Hi. injection Hi as ->. apply setPack_frame.
Qed.

Lemma passPacks_frame_witness :
  ∃ players',
    passPacks Sample.table 2 = Some players'
    ∧ length players' = length Sample.table
    ∧ ∀ i p p', Sample.table !! i = Some p → players' !! i = Some p' →
        Player.id p' = Player.id p
        ∧ Player.colors p' = Player.colors p
        ∧ Player.draftedCards p' = Player.draftedCards p
        ∧ Player.sideboard p' = Player.sideboard p
        ∧ length (Player.packs p') = length (Player.packs p)
        ∧ ∀ r, r ≠ 2 → packAt p' r = packAt p r.
Proof.
  eexists. split; [vm_compute; reflexivity|].
  apply (passPacks_frame Sample.table 2). vm_compute; reflexivity.
Defined.

Lemma rotate_nat_add_mod base offset len :
  rotate_nat_add base offset len = (base + offset) mod len.
Proof.
  unfold rotate_nat_add. by rewrite <- Nat2Z.inj_add, <- Nat2Z.inj_mod, Nat2Z.id.
Qed.

Lemma rotate_Permutation {A} n (l : list A) : rotate n l ≡ₚ l.
Proof. unfold rotate. by rewrite Permutation_app_comm, take_drop. Qed.

Lemma nextIndex_rotate round i n :
  0 < n →
  nextIndex (if round mod 2 =? 1 then "left" else "right") i n
  = rotate_nat_add (if round mod 2 =? 1 then 1 else n - 1) i n.
Proof.
  intros Hn. rewrite rotate_nat_add_mod. unfold nextIndex.
  destruct (round mod 2 =? 1).
  - rewrite decide_True by done. f_equal. lia.
  - rewrite decide_False by done. f_equal. lia.
Qed.

Lemma passPacks_round_packs players round players' packs :
  mapM (λ p, packAt p round) players = Some packs →
  passPacks players round = Some players' →
  mapM (λ p, packAt p round) players'
  = Some (trimLands <$> rotate (if round mod 2 =? 1 then 1 else length players - 1) packs).
Proof.
  intros Hpacks (packs0 & Hpacks0 & Hlen & Hall)%passPacks_inv.
  rewrite Hpacks in Hpacks0. injection Hpacks0 as <-.
  pose proof (length_mapM _ _ _ Hpacks) as Hn.
  apply mapM_Some_2, Forall2_same_length_lookup.
  split; [by rewrite length_fmap, length_rotate, Hlen|].
  intros i p' pack' Hp' Hpack'.
  assert (is_Some (players !! i)) as [receiver Hreceiver].
  { apply lookup_lt_is_Some. rewrite <- Hlen. by eapply lookup_lt_Some. }
  destruct (Hall i receiver Hreceiver) as (pack & Hpack & Hseated & Hi).
  rewrite Hp' in Hi. injection Hi as ->.
  rewrite packAt_setPack by done. f_equal.
  rewrite list_lookup_fmap, lookup_rotate_r in Hpack'
    by (rewrite <- Hn; by eapply lookup_lt_Some).
  rewrite <- Hn in Hpack'.
  rewrite <- nextIndex_rotate in Hpack' by (apply lookup_lt_Some in Hreceiver; lia).
  rewrite Hpack in Hpack'. by injection Hpack'.
Qed.

Lemma trimLands_single_all (packs : list (list Card)) :
  Forall (λ pack, landCount pack ≤ 1) packs → trimLands <$> packs = packs.
Proof.
  intros Hsingle. rewrite <- (list_fmap_id packs) at 2.
  apply list_fmap_ext. intros i pack Hpack. apply trimLands_single.
  apply list_elem_of_lookup_2 in Hpack. by eapply Forall_forall in Hsingle.
Qed.



(** ** The land repair *)



(** ** Seats and packs in every reachable state *)

Lemma landCount_removeCard card pack : landCount (removeCard card pack) ≤ landCount pack.
Proof.
  unfold landCount, removeCard. rewrite list_filter_filter.
  apply (filter_and_length_le (λ c, isBasicLand c) (λ c, Card.id c ≠ Card.id card)).
Qed.

Lemma landCount_jsonCards pack : landCount (jsonCard <$> pack) = landCount pack.
Proof.
  unfold landCount. induction pack as [|c pack IH]; [done|]. csimpl.
  rewrite !filter_cons. change (isBasicLand (jsonCard c)) with (isBasicLand c).
  destruct (decide (isBasicLand c)); simpl; by rewrite IH.
Qed.

Lemma seatOk_jsonPlayer p : seatOk p → seatOk (jsonPlayer p).
Proof.
  intros (Hcolors & Hthree & Hlands). split; [done|]. split; simpl; [by rewrite length_fmap|].
  apply Forall_fmap. eapply Forall_impl; [done|].
  intros pack Hpack. simpl. by rewrite landCount_jsonCards.
Qed.

Lemma tableOk_jsonPlayers players : tableOk players → tableOk (jsonPlayer <$> players).
Proof.
  intros [Hlen Hseats]. split; [by rewrite length_fmap|].
  apply Forall_fmap. eapply Forall_impl; [done|]. apply seatOk_jsonPlayer.
Qed.

Lemma seatOk_packs p p' :
  length (Player.colors p') ≤ 2 → Player.packs p' = Player.packs p → seatOk p → seatOk p'.
Proof. unfold seatOk. intros ? ->. tauto. Qed.

Lemma seatOk_setPack p round pack : landCount pack ≤ 1 → seatOk p → seatOk (setPack p round pack).
Proof.
  intros Hpack (Hcolors & Hthree & Hlands). destruct round as [|r]; [done|].
  split; [done|]. split; simpl; [by rewrite length_insert|]. by apply Forall_insert.
Qed.

Lemma seatOk_packAt p round pack : seatOk p → packAt p round = Some pack → landCount pack ≤ 1.
Proof.
  intros (_ & _ & Hlands) Hpack. destruct round as [|r]; [done|].
  by eapply (Forall_lookup_1 _ _ _ _ Hlands).
Qed.

Lemma seatOk_draftCard round card pack p :
  seatOk p → packAt p round = Some pack → seatOk (draftCard round card pack p).
Proof.
  intros Hp Hpack. unfold draftCard.
  eapply (seatOk_packs (setPack (setDraftedCards p _) round (removeCard card pack))).
  - by rewrite updatePlayerColors_colors, sortedColors_length.
  - done.
  - apply seatOk_setPack.
    + etrans; [apply landCount_removeCard|]. by eapply seatOk_packAt.
    + apply (seatOk_packs p); [apply Hp|done|done].
Qed.

Lemma tableOk_mapHuman f players :
  (∀ p, Player.colors (f p) = Player.colors p ∧ Player.packs (f p) = Player.packs p) →
  tableOk players → tableOk (mapHuman f players).
Proof.
  intros Hf [Hlen Hseats]. unfold mapHuman. split; [by rewrite length_imap|].
  apply Forall_lookup. intros i p'. rewrite list_lookup_imap.
  destruct (players !! i) as [p|] eqn:Hp; [|done]. intros [= <-].
  pose proof (Forall_lookup_1 _ _ _ _ Hseats Hp).
  destruct (i =? 0); [|done]. destruct (Hf p) as [Hcolors Hpacks].
  apply (seatOk_packs p (f p)); [rewrite Hcolors; apply H|done|done].
Qed.

Lemma tableOk_initializeDraft seed cards players :
  initializeDraft seed cards = Some players → tableOk players.
Proof.
  intros [Hlen Hall]%initializeDraft_lookup. split; [by right|].
  apply Forall_lookup. intros i p Hp.
  destruct (Hall i p Hp) as (q & p1 & p2 & p3 & d1 & d2 & d3 & Hq & H1 & H2 & H3 & ->).
  split; simpl.
  { destruct i as [|j]; [by injection Hq as <-; simpl; lia|].
    change (initializeAIOpponents (colorRolls seed) 7 !! j = Some q) in Hq.
    unfold initializeAIOpponents in Hq. rewrite list_lookup_fmap in Hq.
    destruct (seq 0 7 !! j); [|done]. injection Hq as <-. simpl. lia. }
  split; [done|].
  apply generatePack_landCount in H1, H2, H3.
  repeat (constructor; [lia|]). constructor.
Qed.

Lemma tableOk_passPacks players round players' :
  passPacks players round = Some players' → tableOk players → tableOk players'.
Proof.
  intros (packs & _ & Hlen & Hall)%passPacks_inv [Height Hseats].
  split; [by rewrite Hlen|].
  apply Forall_lookup. intros i p' Hp'.
  assert (is_Some (players !! i)) as [receiver Hreceiver].
  { apply lookup_lt_is_Some. rewrite <- Hlen. by eapply lookup_lt_Some. }
  destruct (Hall i receiver Hreceiver) as (pack & _ & _ & Hi).
  rewrite Hp' in Hi. injection Hi as ->.
  apply seatOk_setPack; [apply trimLands_landCount|].
  exact (Forall_lookup_1 _ _ _ _ Hseats Hreceiver).
Qed.

Section TableFacts.
Context (cardStats : gmap string Stats.t) (colorPairStats : gmap string float).

Lemma seatOk_aiTurn round aiPlayer aiPlayer' :
  aiTurn cardStats colorPairStats round aiPlayer = Some aiPlayer' →
  seatOk aiPlayer → seatOk aiPlayer'.
Proof.
  unfold aiTurn. intros Hturn Hseat.
  destruct (packAt aiPlayer round) as [aiPack|] eqn:Hpack; [|done]. simpl in Hturn.
  destruct (0 <? length aiPack); [|by injection Hturn as <-].
  destruct (aiPickCard _ _ _ _); injection Hturn as <-; [|done].
  by apply seatOk_draftCard.
Qed.

Lemma tableOk_pickTurn players round card players' :
  pickTurn cardStats colorPairStats players round card = Some players' →
  tableOk players → tableOk players'.
Proof.
  unfold pickTurn. destruct players as [|humanPlayer aiPlayers]; [done|].
  intros Hturn [Hlen Hseats]. apply Forall_cons in Hseats as [Hhuman Hais].
  destruct (packAt humanPlayer round) as [currentPack|] eqn:Hpack; [|done].
  simpl in Hturn.
  destruct (mapM _ aiPlayers) as [aiPlayers'|] eqn:Hturns; [|done]. simpl in Hturn.
  apply (tableOk_passPacks _ _ _ Hturn). split.
  - simpl in *. apply length_mapM in Hturns. by rewrite <- Hturns.
  - constructor; [by apply seatOk_draftCard|].
    apply mapM_Some_1 in Hturns. apply Forall_lookup. intros i p' Hp'.
    destruct (Forall2_lookup_r _ _ _ _ _ Hturns Hp') as (p & Hp & Hturn').
    eapply seatOk_aiTurn; [done|]. exact (Forall_lookup_1 _ _ _ _ Hais Hp).
Qed.

Lemma handlePick_Returned st card st' :
  handlePick cardStats colorPairStats st card = Returned st' →
  pickTurn cardStats colorPairStats (App.players st) (App.currentRound st) card
  = Some (App.players st')
  ∧ App.suggestedCardId st' = None
  ∧ App.builtDeck st' = App.builtDeck st.
Proof.
  unfold handlePick. destruct (pickTurn _ _ _ _ _) as [updatedPlayers|]; [|done].
  destruct (allPacksEmpty _ _) as [empty|]; [|done].
  intros [= <-]. by destruct empty, (App.currentRound st <? 3).
Qed.

Lemma draftOk_handlePick st card :
  draftOk st → draftOk (committed (handlePick cardStats colorPairStats st card)).
Proof.
  intros (Htable & Hhistory & Hround & Hcomplete).
  assert (Hpushed : Forall (λ snapshot, tableOk (Snapshot.players snapshot))
            (lastN 5 (App.draftHistory st
                      ++ [Snapshot.mk (jsonPlayer <$> App.players st)
                            (App.currentPackIndex st)]))).
  { apply Forall_drop, Forall_app. split; [done|].
    constructor; [|done]. by apply tableOk_jsonPlayers. }
  unfold handlePick.
  destruct (pickTurn _ _ _ _ _) as [updatedPlayers|] eqn:Hturn;
    [|by split; [|split; [exact Hpushed|]]].
  apply tableOk_pickTurn in Hturn; [|done].
  destruct (allPacksEmpty _ _) as [empty|];
    [|by split; [|split; [exact Hpushed|]]].
  destruct empty; [destruct (App.currentRound st <? 3) eqn:Hlast|]; simpl.
  - apply Nat.ltb_lt in Hlast.
    split; [done|]. split; [constructor|]. simpl. split; [lia|].
    intros Hdone. specialize (Hcomplete Hdone). lia.
  - apply Nat.ltb_ge in Hlast.
    split; [done|]. split; [constructor|]. simpl. split; [lia|]. intros _. lia.
  - by split; [|split; [exact Hpushed|]].
Qed.

Lemma draftOk_undo st : draftOk st → draftOk (undoClick st).
Proof.
  intros Hst. pose proof Hst as (Htable & Hhistory & Hround & Hcomplete).
  unfold undoClick. destruct (0 <? _); [|done].
  destruct (last (App.draftHistory st)) as [lastState|] eqn:Hlast; [|done].
  split; [|split; [|by split]]; simpl.
  - apply last_Some in Hlast as [history Hlast]. rewrite Hlast in Hhistory.
    by apply Forall_app in Hhistory as [_ [? _]%Forall_cons].
  - by apply Forall_take.
Qed.

Lemma draftOk_setPlayers players st :
  tableOk players → draftOk st → draftOk (App.setPlayers players st).
Proof. intros Hplayers (_ & ? & ? & ?). by split; [|split; [|split]]. Qed.

Lemma draftOk_step st st' :
  step cardStats colorPairStats st st' → draftOk st → draftOk st'.
Proof.
  intros Hstep Hst. destruct Hstep.
  - by apply draftOk_handlePick.
  - by apply draftOk_undo.
  - rewrite <- undoClick_handleUndo. by apply draftOk_undo.
  - pose proof Hst as (? & ? & ? & ?). unfold suggestPick.
    repeat case_match; try done; by split; [|split; [|split]].
  - unfold changeSet. destruct (decide _); [done|].
    split; [split; [by left|constructor]|]. split; [constructor|]. simpl.
    split; [lia|done].
  - pose proof Hst as (? & ? & ? & ?). unfold cardsFetched.
    destruct (_ =? 0); [by split; [|split; [|split]]|].
    destruct (initializeDraft _ _) eqn:Hinit; [|by split; [|split; [|split]]].
    split; [|by split; [|split]]. simpl. by eapply tableOk_initializeDraft.
  - apply draftOk_setPlayers; [|done]. apply tableOk_mapHuman; [done|apply Hst].
  - apply draftOk_setPlayers; [|done]. apply tableOk_mapHuman; [done|apply Hst].
  - apply draftOk_setPlayers; [|done]. apply tableOk_mapHuman; [done|apply Hst].
  - done.
  - done.
  - done.
  - done.
Qed.

Lemma reachable_draftOk st : reachable cardStats colorPairStats st → draftOk st.
Proof.
  intros Hreach. unfold reachable in Hreach.
  revert st Hreach. apply (rtc_ind_r (λ st, draftOk st)).
  - split; [split; [by left|constructor]|]. split; [constructor|]. simpl.
    split; [lia|done].
  - intros st st' _ Hstep Hst. by eapply draftOk_step.
Qed.

(** X11: in every state the application can reach there are no seats or
    eight, every seat has at most two colours and holds three packs, no pack
    holds two basic lands (so the land repair of [passPacks] would take no
    card out of it), the round is 1, 2 or 3, and the draft is complete only
    in round 3. *)
Theorem reachable_table st :
  reachable cardStats colorPairStats st →
  (length (App.players st) = 0 ∨ length (App.players st) = 8)
  ∧ Forall (λ p, length (Player.colors p) ≤ 2
                 ∧ length (Player.packs p) = 3
                 ∧ Forall (λ pack, landCount pack ≤ 1 ∧ trimLands pack = pack)
                     (Player.packs p))
      (App.players st)
  ∧ 1 ≤ App.currentRound st ≤ 3
  ∧ (App.draftComplete st = true → App.currentRound st = 3).
Proof.
  intros ([Hlen Hseats] & _ & Hround & Hcomplete)%reachable_draftOk.
  split; [done|]. split; [|done].
  eapply Forall_impl; [done|]. intros p (Hcolors & Hthree & Hlands).
  split; [done|]. split; [done|].
  eapply Forall_impl; [done|]. intros pack Hpack. split; [done|].
  by apply trimLands_single.
Qed.

(** X12: [handlePick] throws no [TypeError] in a reachable state with
    seats: every seat it reads has the pack of the current round. *)
Theorem reachable_pick_returns st card :
  reachable cardStats colorPairStats st →
  App.players st ≠ [] →
  ∃ st', handlePick cardStats colorPairStats st card = Returned st'.
Proof.
  intros ([_ Hseats] & _ & Hround & _)%reachable_draftOk Hplayers.
  apply handlePick_returns; [done|].
  eapply Forall_impl; [done|]. intros p (_ & Hthree & _). by apply packAt_has_three.
Qed.
End TableFacts.

Lemma reachable_table_witness :
  let st := Sample.afterPicks 3 in
  (length (App.players st) = 0 ∨ length (App.players st) = 8)
  ∧ Forall (λ p, length (Player.colors p) ≤ 2
                 ∧ length (Player.packs p) = 3
                 ∧ Forall (λ pack, landCount pack ≤ 1 ∧ trimLands pack = pack)
                     (Player.packs p))
      (App.players st)
  ∧ 1 ≤ App.currentRound st ≤ 3
  ∧ (App.draftComplete st = true → App.currentRound st = 3).
Proof. exact (reachable_table ∅ ∅ (Sample.afterPicks 3) (afterPicks_reachable 3)). Defined.

Lemma reachable_pick_returns_witness :
  ∃ st', handlePick ∅ ∅ Sample.draftStart (Sample.card "rare-0" "rare" "Sorcery" [R])
         = Returned st'.
Proof.
  apply (reachable_pick_returns ∅ ∅ Sample.draftStart _ draftStart_reachable).
  vm_compute. discriminate.
Defined.

(** ** What a pick does to the seats *)

Lemma sort_nil_inv {A} (gt : A → A → bool) l : JS.sort gt l = [] → l = [].
Proof.
  intros Hsort. apply Permutation_nil_r. rewrite <- Hsort. symmetry. apply sort_Permutation.
Qed.

Lemma draftCard_fields round card pack p :
  Player.id (draftCard round card pack p) = Player.id p
  ∧ Player.sideboard (draftCard round card pack p) = Player.sideboard p
  ∧ Player.draftedCards (draftCard round card pack p) = Player.draftedCards p ++ [card].
Proof. by destruct round. Qed.

Section PickFacts.
Context (cardStats : gmap string Stats.t) (colorPairStats : gmap string float).

Lemma aiPickCard_elem_of pack aiPlayer c :
  aiPickCard cardStats colorPairStats pack aiPlayer = Some c → c ∈ pack.
Proof.
  unfold aiPickCard. destruct (length pack =? 0); [done|].
  destruct (JS.sort _ pack) as [|c' sorted] eqn:Hsort; [done|]. intros [= ->].
  eapply elem_of_Permutation_proper; [symmetry; apply sort_Permutation|].
  rewrite Hsort. left.
Qed.

Lemma aiPickCard_None pack aiPlayer :
  aiPickCard cardStats colorPairStats pack aiPlayer = None ↔ pack = [].
Proof.
  unfold aiPickCard. split; [|by intros ->].
  destruct pack as [|c pack]; [done|]. simpl length. simpl Nat.eqb.
  destruct (JS.sort _ (c :: pack)) as [|c' sorted] eqn:Hsort; [|done].
  by apply sort_nil_inv in Hsort.
Qed.

(** X13: [aiPickCard] answers with a card of the pack it is given, and
    with nothing only on the empty pack. *)
Theorem aiPickCard_picks_from_pack pack aiPlayer :
  (aiPickCard cardStats colorPairStats pack aiPlayer = None ↔ pack = [])
  ∧ ∀ c, aiPickCard cardStats colorPairStats pack aiPlayer = Some c → c ∈ pack.
Proof. split; [apply aiPickCard_None|intros c; apply aiPickCard_elem_of]. Qed.

Lemma aiTurn_inv round aiPlayer aiPlayer' :
  aiTurn cardStats colorPairStats round aiPlayer = Some aiPlayer' →
  ∃ aiPack,
    packAt aiPlayer round = Some aiPack
    ∧ Player.id aiPlayer' = Player.id aiPlayer
    ∧ Player.sideboard aiPlayer' = Player.sideboard aiPlayer
    ∧ match aiPack with
      | [] => Player.draftedCards aiPlayer' = Player.draftedCards aiPlayer
      | _ => ∃ aiCard, aiCard ∈ aiPack
                       ∧ Player.draftedCards aiPlayer'
                         = Player.draftedCards aiPlayer ++ [aiCard]
      end.
Proof.
  unfold aiTurn. destruct (packAt aiPlayer round) as [aiPack|]; [|done]. simpl.
  intros Hturn. exists aiPack. split; [done|].
  destruct aiPack as [|c aiPack]; [by injection Hturn as <-|].
  simpl length in Hturn. simpl Nat.ltb in Hturn.
  destruct (aiPickCard _ _ _ _) as [aiCard|] eqn:Hpick.
  - injection Hturn as <-. destruct (draftCard_fields round aiCard (c :: aiPack) aiPlayer)
      as (-> & -> & ->).
    split; [done|]. split; [done|]. exists aiCard. split; [|done].
    by eapply aiPickCard_elem_of.
  - by apply aiPickCard_None in Hpick.
Qed.

Lemma pickTurn_inv players round card players' :
  pickTurn cardStats colorPairStats players round card = Some players' →
  ∃ humanPlayer aiPlayers currentPack aiPlayers',
    players = humanPlayer :: aiPlayers
    ∧ packAt humanPlayer round = Some currentPack
    ∧ mapM (aiTurn cardStats colorPairStats round) aiPlayers = Some aiPlayers'
    ∧ passPacks (draftCard round card currentPack humanPlayer :: aiPlayers') round
      = Some players'.
Proof.
  unfold pickTurn. destruct players as [|humanPlayer aiPlayers]; [done|].
  destruct (packAt humanPlayer round) as [currentPack|] eqn:Hpack; [|done]. simpl.
  destruct (mapM _ aiPlayers) as [aiPlayers'|] eqn:Hturns; [|done]. simpl.
  intros Hpass. exists humanPlayer, aiPlayers, currentPack, aiPlayers'.
  split; [done|]. split; [done|]. split; [exact Hturns|exact Hpass].
Qed.

(** X14: a pick that returns adds the clicked card to the drafted cards
    of the human seat, lets every AI seat draft one card out of its own pack
    of the round (none when that pack is empty), keeps the seats' names and
    sideboards, and clears the suggestion. *)
Theorem handlePick_drafts st card st' :
  handlePick cardStats colorPairStats st card = Returned st' →
  length (App.players st') = length (App.players st)
  ∧ App.suggestedCardId st' = None
  ∧ ∀ i p p', App.players st !! i = Some p → App.players st' !! i = Some p' →
      Player.id p' = Player.id p
      ∧ Player.sideboard p' = Player.sideboard p
      ∧ if i =? 0 then Player.draftedCards p' = Player.draftedCards p ++ [card]
        else ∃ aiPack,
               packAt p (App.currentRound st) = Some aiPack
               ∧ match aiPack with
                 | [] => Player.draftedCards p' = Player.draftedCards p
                 | _ => ∃ aiCard, aiCard ∈ aiPack
                                  ∧ Player.draftedCards p'
                                    = Player.draftedCards p ++ [aiCard]
                 end.
Proof.
  intros (Hturn & Hsuggested & _)%handlePick_Returned.
  apply pickTurn_inv in Hturn
    as (humanPlayer & aiPlayers & currentPack & aiPlayers' & Hplayers & Hpack & Hturns & Hpass).
  apply passPacks_inv in Hpass as (packs & _ & Hlen & Hall).
  pose proof (length_mapM _ _ _ Hturns) as Hais. apply mapM_Some_1 in Hturns.
  rewrite Hplayers. split; [by rewrite Hlen; simpl; rewrite Hais|]. split; [done|].
  intros i p p' Hp Hp'. destruct i as [|j].
  - injection Hp as <-.
    destruct (Hall 0 _ eq_refl) as (pack & _ & _ & Hi). rewrite Hp' in Hi. injection Hi as ->.
    destruct (setPack_frame (draftCard (App.currentRound st) card currentPack humanPlayer)
                (App.currentRound st) (trimLands pack)) as (-> & _ & -> & -> & _).
    by destruct (draftCard_fields (App.currentRound st) card currentPack humanPlayer)
      as (-> & -> & ->).
  - change (aiPlayers !! j = Some p) in Hp.
    destruct (Forall2_lookup_l _ _ _ _ _ Hturns Hp) as (q & Hq & Hturn).
    destruct (Hall (S j) q Hq) as (pack & _ & _ & Hi). rewrite Hp' in Hi. injection Hi as ->.
    destruct (setPack_frame q (App.currentRound st) (trimLands pack)) as (-> & _ & -> & -> & _).
    apply aiTurn_inv in Hturn as (aiPack & HaiPack & -> & -> & Hdrafted).
    split; [done|]. split; [done|]. by exists aiPack.
Qed.
End PickFacts.

Lemma aiPickCard_picks_from_pack_witness :
  let pack := [Sample.colored "a" [W]; Sample.colored "b" [U]] in
  ∃ c, aiPickCard ∅ ∅ pack Sample.whiteBlueSeat = Some c ∧ c ∈ pack.
Proof.
  eexists. split; [vm_compute; reflexivity|].
  apply (proj2 (aiPickCard_picks_from_pack ∅ ∅
                  [Sample.colored "a" [W]; Sample.colored "b" [U]] Sample.whiteBlueSeat)).
  vm_compute. reflexivity.
Defined.

Lemma handlePick_drafts_witness :
  let st := Sample.draftStart in
  let card := Sample.card "rare-0" "rare" "Sorcery" [R] in
  let st' := committed (handlePick ∅ ∅ st card) in
  length (App.players st') = length (App.players st)
  ∧ App.suggestedCardId st' = None
  ∧ ∀ i p p', App.players st !! i = Some p → App.players st' !! i = Some p' →
      Player.id p' = Player.id p
      ∧ Player.sideboard p' = Player.sideboard p
      ∧ if i =? 0 then Player.draftedCards p' = Player.draftedCards p ++ [card]
        else ∃ aiPack,
               packAt p (App.currentRound st) = Some aiPack
               ∧ match aiPack with
                 | [] => Player.draftedCards p' = Player.draftedCards p
                 | _ => ∃ aiCard, aiCard ∈ aiPack
                                  ∧ Player.draftedCards p'
                                    = Player.draftedCards p ++ [aiCard]
                 end.
Proof.
  intros st card st'. apply (handlePick_drafts ∅ ∅ st card st').
  vm_compute. reflexivity.
Defined.

(** ** Undoing several picks *)

Lemma lastN_app_lastN {A} n (l k : list A) : lastN n (lastN n l ++ k) = lastN n (l ++ k).
Proof.
  unfold lastN. rewrite !length_app, !length_drop, !skipn_app, length_drop, drop_drop.
  f_equal; f_equal; lia.
Qed.

Lemma lastN_app_short {A} n (l k : list A) :
  length k ≤ n → lastN n (l ++ k) = lastN (n - length k) l ++ k.
Proof.
  intros Hk. unfold lastN. rewrite length_app, drop_app_le by lia. do 2 f_equal. lia.
Qed.

Lemma undoClick_last st history snapshot :
  App.draftHistory st = history ++ [snapshot] →
  App.players (undoClick st) = Snapshot.players snapshot
  ∧ App.currentPackIndex (undoClick st) = Snapshot.packIndex snapshot
  ∧ App.draftHistory (undoClick st) = history
  ∧ App.currentRound (undoClick st) = App.currentRound st
  ∧ App.draftComplete (undoClick st) = App.draftComplete st.
Proof.
  intros Hhistory. unfold undoClick, dropLast. rewrite Hhistory, last_snoc, length_app.
  simpl. replace (0 <? length history + 1) with true by (symmetry; apply Nat.ltb_lt; lia).
  simpl. repeat (split; [done|]). split; [|done].
  replace (length history + 1 - 1) with (length history) by lia.
  by rewrite take_app_length.
Qed.

Lemma undoClick_iter k : ∀ st history snapshot rest,
  App.draftHistory st = history ++ snapshot :: rest →
  length rest = k →
  App.players (Nat.iter (S k) undoClick st) = Snapshot.players snapshot
  ∧ App.currentPackIndex (Nat.iter (S k) undoClick st) = Snapshot.packIndex snapshot
  ∧ App.draftHistory (Nat.iter (S k) undoClick st) = history.
Proof.
  induction k as [|k IH]; intros st history snapshot rest Hhistory Hrest.
  - destruct rest; [|done]. simpl.
    destruct (undoClick_last st history snapshot Hhistory) as (? & ? & ? & _). done.
  - rewrite Nat.iter_succ_r.
    induction rest as [|newest rest' _] using rev_ind; [done|].
    rewrite length_app in Hrest. simpl in Hrest.
    destruct (undoClick_last st (history ++ snapshot :: rest') newest) as (_ & _ & Hpopped & _).
    { by rewrite Hhistory, <- app_assoc. }
    apply (IH (undoClick st) history snapshot rest'); [done|lia].
Qed.

Section UndoFacts.
Context (cardStats : gmap string Stats.t) (colorPairStats : gmap string float).

Lemma picks_monotone cards : ∀ st,
  App.currentRound st ≤ App.currentRound (picks cardStats colorPairStats st cards)
  ∧ (App.draftComplete st = true
     → App.draftComplete (picks cardStats colorPairStats st cards) = true).
Proof.
  induction cards as [|card cards IH]; intros st; [done|]. simpl.
  destruct (IH (committed (handlePick cardStats colorPairStats st card))) as [Hround Hdone].
  pose proof (handlePick_cases cardStats colorPairStats st card) as Hcases. simpl in Hcases.
  split.
  - etrans; [|exact Hround]. destruct Hcases as [H|[H|[H|H]]]; lia.
  - intros Hst. apply Hdone. destruct Hcases as [H|[H|[H|H]]].
    + destruct H as (_ & _ & _ & -> & _). done.
    + destruct H as (_ & -> & _). done.
    + by destruct H as (_ & -> & _).
    + destruct H as (_ & -> & _). done.
Qed.

Lemma pick_history st card :
  App.currentRound (committed (handlePick cardStats colorPairStats st card))
  = App.currentRound st →
  App.draftComplete (committed (handlePick cardStats colorPairStats st card)) = false →
  App.draftHistory (committed (handlePick cardStats colorPairStats st card))
  = lastN 5 (App.draftHistory st
             ++ [Snapshot.mk (jsonPlayer <$> App.players st) (App.currentPackIndex st)]).
Proof.
  intros Hround Hcomplete.
  pose proof (handlePick_cases cardStats colorPairStats st card) as Hcases. simpl in Hcases.
  destruct Hcases as [H|[H|[H|H]]].
  - by destruct H as (_ & _ & _ & _ & ->).
  - destruct H as (H & _). lia.
  - destruct H as (_ & H & _). congruence.
  - by destruct H as (_ & _ & _ & ->).
Qed.

Lemma picks_history cards : ∀ st card,
  App.currentRound (picks cardStats colorPairStats st (card :: cards)) = App.currentRound st →
  App.draftComplete (picks cardStats colorPairStats st (card :: cards)) = false →
  ∃ rest,
    length rest = length cards
    ∧ App.draftHistory (picks cardStats colorPairStats st (card :: cards))
      = lastN 5 (App.draftHistory st
                 ++ Snapshot.mk (jsonPlayer <$> App.players st) (App.currentPackIndex st)
                    :: rest).
Proof.
  induction cards as [|next cards IH]; intros st card Hround Hcomplete.
  - exists []. split; [done|]. by apply pick_history.
  - set (st1 := committed (handlePick cardStats colorPairStats st card)).
    change (picks cardStats colorPairStats st (card :: next :: cards))
      with (picks cardStats colorPairStats st1 (next :: cards)) in *.
    destruct (picks_monotone (next :: cards) st1) as [Hle Hdone].
    pose proof (handlePick_cases cardStats colorPairStats st card) as Hcases.
    simpl in Hcases. fold st1 in Hcases.
    assert (App.currentRound st1 = App.currentRound st) as Hround1.
    { destruct Hcases as [H|[H|[H|H]]]; lia. }
    assert (App.draftComplete st1 = false) as Hcomplete1.
    { destruct (App.draftComplete st1); [|done]. rewrite Hdone in Hcomplete; done. }
    destruct (IH st1 next) as (rest & Hlen & Hhistory); [lia|done|].
    eexists. split; [|rewrite Hhistory; unfold st1; rewrite pick_history by done;
                      rewrite lastN_app_lastN, <- app_assoc; reflexivity].
    simpl. by rewrite Hlen.
Qed.

(** X15: up to five picks in a row that neither advanced the round nor
    completed the draft are undone by as many clicks on "Undo Pick": the
    seats are the JSON copies taken before the first of these picks (the
    seats themselves when their numbers are JSON values), the pick index is
    the one before the first pick, and the history is what it was, less the
    entries that the picks pushed out. *)
Theorem undo_all_picks st card cards :
  length (card :: cards) ≤ 5 →
  App.currentRound (picks cardStats colorPairStats st (card :: cards)) = App.currentRound st →
  App.draftComplete (picks cardStats colorPairStats st (card :: cards)) = false →
  let st' :=
    Nat.iter (length (card :: cards)) undoClick
      (picks cardStats colorPairStats st (card :: cards)) in
  App.players st' = jsonPlayer <$> App.players st
  ∧ (forallb jsonSafePlayer (App.players st) → App.players st' = App.players st)
  ∧ App.currentPackIndex st' = App.currentPackIndex st
  ∧ App.draftHistory st' = lastN (5 - length (card :: cards)) (App.draftHistory st).
Proof.
  intros Hfive Hround Hcomplete st'.
  destruct (picks_history cards st card Hround Hcomplete) as (rest & Hlen & Hhistory).
  rewrite lastN_app_short in Hhistory by (simpl in *; lia).
  destruct (undoClick_iter (length cards) _ _ _ rest Hhistory Hlen)
    as (Hplayers & Hindex & Hpopped).
  change (Nat.iter (S (length cards)) undoClick
            (picks cardStats colorPairStats st (card :: cards))) with st' in *.
  simpl in Hplayers, Hindex. split; [done|]. split; [|split; [done|]].
  - intros Hsafe. by rewrite Hplayers, jsonPlayers_safe.
  - rewrite Hpopped. simpl length. by rewrite Hlen.
Qed.
End UndoFacts.

Lemma undo_all_picks_witness :
  let st := Sample.draftStart in
  let card := Sample.card "rare-0" "rare" "Sorcery" [R] in
  let cards := [Sample.card "uncommon-0" "uncommon" "Instant" [U];
                Sample.card "common-0" "common" "Creature" [W]] in
  let st' := Nat.iter (length (card :: cards)) undoClick (picks ∅ ∅ st (card :: cards)) in
  App.players st' = jsonPlayer <$> App.players st
  ∧ (forallb jsonSafePlayer (App.players st) → App.players st' = App.players st)
  ∧ App.currentPackIndex st' = App.currentPackIndex st
  ∧ App.draftHistory st' = lastN (5 - length (card :: cards)) (App.draftHistory st).
Proof.
  intros st card cards. apply (undo_all_picks ∅ ∅ st card cards).
  - simpl. lia.
  - vm_compute. reflexivity.
  - vm_compute. reflexivity.
Defined.

(** ** Scoring *)

Lemma sort_fmap {A B} (f : A → B) (gt : B → B → bool) (l : list A) :
  JS.sort gt (f <$> l) = f <$> JS.sort (λ a b, gt (f a) (f b)) l.
Proof.
  induction l as [|x l IH]; [done|]. csimpl. rewrite IH.
  generalize (JS.sort (λ a b, gt (f a) (f b)) l). intros k.
  induction k as [|y k IHk]; [done|]. csimpl. destruct (gt (f x) (f y)); [|done].
  by rewrite IHk.
Qed.

(** X16: the [colors] field of a card never enters its score: the score
    is the same whatever colours the card carries, and so is the pick of an
    AI seat from a pack whose cards are given other colours. *)
Theorem score_ignores_card_colours
    (cardStats : gmap string Stats.t) (colorPairStats : gmap string float)
    (recolour : Card → option (list Color)) pack card aiPlayer :
  calculateCardScore cardStats colorPairStats (withColors (recolour card) card) aiPlayer
  = calculateCardScore cardStats colorPairStats card aiPlayer
  ∧ aiPickCard cardStats colorPairStats ((λ c, withColors (recolour c) c) <$> pack) aiPlayer
    = (λ c, withColors (recolour c) c) <$> aiPickCard cardStats colorPairStats pack aiPlayer.
Proof.
  split; [done|]. unfold aiPickCard. rewrite length_fmap.
  destruct (length pack =? 0); [done|].
  rewrite (sort_fmap (λ c, withColors (recolour c) c)).
  by destruct (JS.sort _ pack).
Qed.

Lemma findWinRate_ext (stats1 stats2 : gmap string float) keys :
  (∀ key, Some key ∈ keys → stats1 !! key = stats2 !! key) →
  findWinRate stats1 keys = findWinRate stats2 keys.
Proof.
  induction keys as [|key keys IH]; intros Hagree; [done|]. simpl.
  rewrite IH by (intros k Hk; apply Hagree; by right).
  destruct key as [k|]; [|done]. simpl. destruct (decide (k = "")); [done|].
  rewrite (Hagree k) by left. done.
Qed.

(** X17: for a seat with two colours the key of its guild row is built by
    sorting the two letters.  For blue-black, red-green, white-black and
    blue-red the sorted letters are no key of the guild map: the candidates
    are then the absent key, "undefined + Splash" and the generic rows, and
    the bonus does not depend on any guild row of the table.  For the six
    other pairs the first candidate is the guild's row.  The order of the
    two colours makes no difference. *)
Theorem two_colour_keys (a b : Color) :
  a ≠ b →
  keyCandidates [a; b] = keyCandidates [b; a]
  ∧ (if unlistedPair a b
     then keyCandidates [a; b]
          = [None; Some "undefined + Splash"; Some "Two-color";
             Some "Two-color + Splash"; Some "All Decks"]
     else ∃ guild,
            twoColorMap !! sortedKey (colorLetter <$> [a; b]) = Some guild
            ∧ keyCandidates [a; b]
              = [Some guild; Some (guild +:+ " + Splash"); Some "Two-color";
                 Some "Two-color + Splash"; Some "All Decks"])
  ∧ (unlistedPair a b →
     ∀ (stats1 stats2 : gmap string float) cardColors,
       (∀ key, key ∈ ["undefined + Splash"; "Two-color"; "Two-color + Splash"; "All Decks"]
               → stats1 !! key = stats2 !! key) →
       getColorPairBonus stats1 cardColors [a; b]
       = getColorPairBonus stats2 cardColors [a; b]).
Proof.
  intros Hab.
  assert (Hkeys : if unlistedPair a b
     then keyCandidates [a; b]
          = [None; Some "undefined + Splash"; Some "Two-color";
             Some "Two-color + Splash"; Some "All Decks"]
     else ∃ guild,
            twoColorMap !! sortedKey (colorLetter <$> [a; b]) = Some guild
            ∧ keyCandidates [a; b]
              = [Some guild; Some (guild +:+ " + Splash"); Some "Two-color";
                 Some "Two-color + Splash"; Some "All Decks"]).
  { destruct a, b; try done; cbn [unlistedPair];
      first [by vm_compute | eexists; split; vm_compute; reflexivity]. }
  split; [by destruct a, b; vm_compute|]. split; [done|].
  intros Hunlisted stats1 stats2 cardColors Hagree.
  destruct (unlistedPair a b); [|done]. unfold getColorPairBonus.
  rewrite Hkeys, (findWinRate_ext stats1 stats2); [done|].
  intros key Hkey. apply Hagree.
  repeat (apply elem_of_cons in Hkey as [Hkey|Hkey];
          [try done; injection Hkey as ->; apply list_elem_of_In; simpl; tauto|]).
  by apply not_elem_of_nil in Hkey.
Qed.

Lemma two_colour_keys_witness :
  keyCandidates [U; B] = keyCandidates [B; U]
  ∧ keyCandidates [U; B]
    = [None; Some "undefined + Splash"; Some "Two-color";
       Some "Two-color + Splash"; Some "All Decks"]
  ∧ getColorPairBonus {[ "Dimir (UB)" := 60%float ]} ["U"] [U; B]
    = getColorPairBonus ∅ ["U"] [U; B].
Proof.
  destruct (two_colour_keys U B) as (Hsym & Hkeys & Hbonus); [discriminate|].
  split; [exact Hsym|]. split; [exact Hkeys|].
  apply (Hbonus I). intros key Hkey.
  repeat (apply elem_of_cons in Hkey as [->|Hkey]; [by vm_compute|]).
  by apply not_elem_of_nil in Hkey.
Defined.

(** ** Colour affinity: the two most frequent colours *)

Lemma insert_sorted_stable {A} (gt : A → A → bool) (P : A → Prop) `{∀ x, Decision (P x)} x l :
  (∀ a b, P a → P b → gt a b = false) →
  filter P (JS.insert_sorted gt x l) = filter P (x :: l).
Proof.
  intros Hties. induction l as [|y l IH]; [done|]. simpl.
  destruct (gt x y) eqn:Hxy; [|done].
  rewrite (filter_cons _ y), IH, !filter_cons.
  destruct (decide (P x)) as [Hx|], (decide (P y)) as [Hy|]; try done.
  by rewrite (Hties x y Hx Hy) in Hxy.
Qed.

Lemma sort_stable {A} (gt : A → A → bool) (P : A → Prop) `{∀ x, Decision (P x)} l :
  (∀ a b, P a → P b → gt a b = false) →
  filter P (JS.sort gt l) = filter P l.
Proof.
  intros Hties. induction l as [|x l IH]; [done|]. simpl.
  rewrite insert_sorted_stable by done. by rewrite !filter_cons, IH.
Qed.

Lemma bump_counts (n : Color → nat) (symbols : list Color) color :
  bump ((λ c, (c, n c)) <$> symbols) color
  = (λ c, (c, n c + if decide (c = color) then 1 else 0)) <$> symbols.
Proof.
  unfold bump. rewrite <- list_fmap_compose. apply list_fmap_ext. intros _ c _. simpl.
  destruct (decide (c = color)); f_equal; lia.
Qed.

Lemma foldl_bump colors : ∀ (n : Color → nat) (symbols : list Color),
  foldl bump ((λ c, (c, n c)) <$> symbols) colors
  = (λ c, (c, n c + length (filter (λ x, x = c) colors))) <$> symbols.
Proof.
  induction colors as [|color colors IH]; intros n symbols; simpl.
  - apply list_fmap_ext. intros _ c _. f_equal. simpl. lia.
  - rewrite bump_counts, IH. apply list_fmap_ext. intros _ c _. simpl. f_equal.
    rewrite filter_cons. destruct (decide (c = color)), (decide (color = c));
      simpl; try lia; congruence.
Qed.

Lemma countColors_from deck : ∀ (n : Color → nat) (symbols : list Color),
  foldl (λ counts card, foldl bump counts (default [] (Card.colors card)))
        ((λ c, (c, n c)) <$> symbols) deck
  = (λ c, (c, n c + occurrences c deck)) <$> symbols.
Proof.
  induction deck as [|card deck IH]; intros n symbols; simpl.
  - apply list_fmap_ext. intros _ c _. f_equal. unfold occurrences. simpl. lia.
  - rewrite foldl_bump, IH. apply list_fmap_ext. intros _ c _. f_equal.
    unfold occurrences. csimpl. rewrite filter_app, length_app. lia.
Qed.

Lemma countColors_occurrences deck :
  countColors deck = (λ c, (c, occurrences c deck)) <$> colorSymbols.
Proof.
  unfold countColors. by rewrite (countColors_from deck (λ _, 0) colorSymbols).
Qed.

Lemma colorSymbols_NoDup : NoDup colorSymbols.
Proof. apply (bool_decide_unpack (NoDup _)). vm_compute. exact I. Qed.

Lemma colorSymbols_all c : c ∈ colorSymbols.
Proof. destruct c; apply list_elem_of_In; simpl; tauto. Qed.

(** X18: [updatePlayerColors] changes the colours of a seat and nothing
    else.  The new colours are two different ones: the first is the most
    frequent colour among the drafted cards and the second the most frequent
    of the other four; among equally frequent colours the one that comes
    first in the order W, U, B, R, G is taken. *)
Theorem updatePlayerColors_most_frequent player :
  let occ c := occurrences c (Player.draftedCards player) in
  ∃ c1 c2,
    updatePlayerColors player
    = Player.mk (Player.id player) [c1; c2] (Player.draftedCards player)
        (Player.sideboard player) (Player.packs player)
    ∧ c1 ≠ c2
    ∧ (∀ c, occ c ≤ occ c1)
    ∧ (∀ c, c ≠ c1 → occ c ≤ occ c2)
    ∧ head (filter (λ c, occ c = occ c1) colorSymbols) = Some c1
    ∧ head (filter (λ c, c ≠ c1 ∧ occ c = occ c2) colorSymbols) = Some c2.
Proof.
  intros occ.
  set (entry := λ c : Color, (c, occ c)).
  set (gt := λ a b : Color * nat, 0 <? b.2 - a.2).
  assert (Hcolors : Player.colors (updatePlayerColors player)
                    = take 2 ((JS.sort gt (entry <$> colorSymbols)).*1)).
  { rewrite updatePlayerColors_colors. unfold sortedColors.
    by rewrite countColors_occurrences. }
  pose proof (sort_Permutation gt (entry <$> colorSymbols)) as Hperm.
  assert (Hgt : ∀ a b, gt a b = false ↔ b.2 ≤ a.2).
  { intros a b. unfold gt. rewrite Nat.ltb_ge. lia. }
  assert (Hsorted : StronglySorted (λ a b, gt a b = false) (JS.sort gt (entry <$> colorSymbols))).
  { apply (Sorted_StronglySorted_on _ (λ _, True)).
    - intros a b c _ _ _. rewrite !Hgt. lia.
    - by apply Forall_forall.
    - apply sort_Sorted. intros a b. unfold gt. rewrite Nat.ltb_lt, Nat.ltb_ge. lia. }
  assert (Hfirst : ∀ P : Color * nat → Prop, ∀ `{∀ e, Decision (P e)},
            (∀ a b, P a → P b → a.2 = b.2) →
            filter P (JS.sort gt (entry <$> colorSymbols))
            = entry <$> filter (λ c, P (entry c)) colorSymbols).
  { intros P ? Hties. rewrite sort_stable, filter_fmap; [done|].
    intros a b Ha Hb. apply Hgt. by rewrite (Hties a b). }
  assert (Hnodup : NoDup ((JS.sort gt (entry <$> colorSymbols)).*1)).
  { rewrite Hperm, <- list_fmap_compose.
    rewrite (list_fmap_ext (fst ∘ entry) id colorSymbols) by done.
    rewrite list_fmap_id. apply colorSymbols_NoDup. }
  assert (Hentries : ∀ e, e ∈ JS.sort gt (entry <$> colorSymbols) ↔ e = entry e.1).
  { intros e. rewrite Hperm, list_elem_of_fmap. split.
    - by intros (c & -> & _).
    - intros He. exists e.1. split; [done|]. apply colorSymbols_all. }
  destruct (JS.sort gt (entry <$> colorSymbols)) as [|e1 [|e2 rest]] eqn:Hsort;
    [by apply Permutation_length in Hperm|by apply Permutation_length in Hperm|].
  assert (He1 : e1 = entry e1.1) by (apply Hentries; left).
  assert (He2 : e2 = entry e2.1) by (apply Hentries; right; left).
  assert (He1' : e1.2 = occ e1.1) by (by rewrite He1).
  assert (He2' : e2.2 = occ e2.1) by (by rewrite He2).
  apply StronglySorted_inv in Hsorted as [Hsorted Hafter1].
  apply StronglySorted_inv in Hsorted as [_ Hafter2].
  apply NoDup_cons in Hnodup as [Hne _]. csimpl in Hne.
  assert (Hc12 : e1.1 ≠ e2.1) by (intros Heq; apply Hne; rewrite Heq; left).
  exists e1.1, e2.1. split.
  { destruct player; unfold updatePlayerColors in *; simpl in *. by rewrite Hcolors. }
  split; [done|]. split; [|split; [|split]].
  - intros c. assert (Hc : entry c ∈ e1 :: e2 :: rest) by by apply Hentries.
    apply elem_of_cons in Hc as [Hc|Hc]; [by rewrite <- Hc|].
    eapply Forall_forall in Hafter1; [|done]. apply Hgt in Hafter1.
    rewrite He1 in Hafter1. done.
  - intros c Hne1. assert (Hc : entry c ∈ e1 :: e2 :: rest) by by apply Hentries.
    apply elem_of_cons in Hc as [Hc|Hc]; [by rewrite <- Hc in Hne1|].
    apply elem_of_cons in Hc as [Hc|Hc]; [by rewrite <- Hc|].
    eapply Forall_forall in Hafter2; [|done]. apply Hgt in Hafter2.
    rewrite He2 in Hafter2. done.
  - pose proof (Hfirst (λ e, e.2 = occ e1.1) _
                  ltac:(intros a b Ha Hb; congruence)) as Heq.
    rewrite filter_cons_True in Heq by done.
    change (filter (λ c, (entry c).2 = occ e1.1) colorSymbols)
      with (filter (λ c, occ c = occ e1.1) colorSymbols) in Heq.
    destruct (filter (λ c, occ c = occ e1.1) colorSymbols) as [|c cs]; [done|].
    injection Heq as Heq _. by rewrite Heq.
  - pose proof (Hfirst (λ e, e.1 ≠ e1.1 ∧ e.2 = occ e2.1) _
                  ltac:(intros a b [_ Ha] [_ Hb]; congruence)) as Heq.
    rewrite filter_cons_False in Heq by (by intros [? _]).
    rewrite filter_cons_True in Heq by done.
    change (filter (λ c, (entry c).1 ≠ e1.1 ∧ (entry c).2 = occ e2.1) colorSymbols)
      with (filter (λ c, c ≠ e1.1 ∧ occ c = occ e2.1) colorSymbols) in Heq.
    destruct (filter (λ c, c ≠ e1.1 ∧ occ c = occ e2.1) colorSymbols) as [|c cs]; [done|].
    injection Heq as Heq _. by rewrite Heq.
Qed.

(** ** Sorting, the sideboard and the deck builder *)

Lemma sort_never_after {A} (gt : A → A → bool) l :
  (∀ a b, gt a b = false) → JS.sort gt l = l.
Proof.
  intros Hgt. induction l as [|x l IH]; [done|]. simpl. rewrite IH.
  destruct l as [|y l]; [done|]. simpl. by rewrite Hgt.
Qed.

Lemma mapHuman_cons f p ps : mapHuman f (p :: ps) = f p :: ps.
Proof.
  unfold mapHuman. rewrite imap_cons. f_equal.
  rewrite (imap_ext _ (const id)) by done. by rewrite imap_const, list_fmap_id.
Qed.

Lemma firstColor_after_trans a b c :
  String.ltb (firstColor b) (firstColor a) = false →
  String.ltb (firstColor c) (firstColor b) = false →
  String.ltb (firstColor c) (firstColor a) = false.
Proof.
  unfold firstColor.
  generalize (Card.colors a ≫= head) (Card.colors b ≫= head) (Card.colors c ≫= head).
  intros [[]|] [[]|] [[]|]; vm_compute; congruence.
Qed.

Lemma firstColor_after_asym a b :
  String.ltb (firstColor b) (firstColor a) = true →
  String.ltb (firstColor a) (firstColor b) = false.
Proof.
  unfold firstColor.
  generalize (Card.colors a ≫= head) (Card.colors b ≫= head).
  intros [[]|] [[]|]; vm_compute; congruence.
Qed.

(** X19: [sortDeck] rearranges the deck and loses no card.  With any
    criterion but 'cmc' and 'color' it leaves the order as it is.  With
    'color' no card stands before a card whose first colour letter is
    smaller (cards without a colour come first), and cards with the same
    first colour keep their order.  [sortDraftDeck] sorts the drafted cards
    of the human seat in the same way and leaves the other seats alone. *)
Theorem sortDeck_orders criteria deck :
  sortDeck criteria deck ≡ₚ deck
  ∧ (criteria ≠ "cmc" → criteria ≠ "color" → sortDeck criteria deck = deck)
  ∧ StronglySorted (λ a b, String.ltb (firstColor b) (firstColor a) = false)
      (sortDeck "color" deck)
  ∧ (∀ key, filter (λ c, firstColor c = key) (sortDeck "color" deck)
            = filter (λ c, firstColor c = key) deck)
  ∧ ∀ st human others,
      App.players st = human :: others →
      App.players (sortDraftDeck criteria st)
      = setDraftedCards human (sortDeck criteria (Player.draftedCards human)) :: others.
Proof.
  split; [apply sort_Permutation|]. split; [|split; [|split]].
  - intros Hcmc Hcolor. apply sort_never_after. intros a b. unfold sortsAfter.
    by rewrite !decide_False.
  - apply (Sorted_StronglySorted_on _ (λ _, True)).
    + intros a b c _ _ _. apply firstColor_after_trans.
    + by apply Forall_forall.
    + apply (sort_Sorted (sortsAfter "color")), firstColor_after_asym.
  - intros key. apply (sort_stable (sortsAfter "color")).
    intros a b Ha Hb. unfold sortsAfter. simpl. rewrite Ha, <- Hb.
    unfold firstColor. generalize (Card.colors b ≫= head). by intros [[]|]; vm_compute.
  - intros st human others Hplayers. unfold sortDraftDeck. simpl.
    by rewrite Hplayers, mapHuman_cons.
Qed.

Lemma sortDeck_orders_witness :
  let deck := [Sample.colored "a" [W]; Sample.colored "b" []; Sample.colored "c" [B]] in
  sortDeck "name" deck = deck
  ∧ (Card.id <$> sortDeck "color" deck) = ["b"; "c"; "a"].
Proof.
  split.
  - apply (sortDeck_orders "name"
             [Sample.colored "a" [W]; Sample.colored "b" []; Sample.colored "c" [B]]);
      discriminate.
  - vm_compute. reflexivity.
Defined.

Lemma removeCard_other card cards :
  Card.id card ∉ (Card.id <$> cards) → removeCard card cards = cards.
Proof.
  intros Hfresh. apply (filter_all (λ c, Card.id c ≠ Card.id card)), Forall_forall.
  intros c Hc Heq. apply Hfresh. rewrite <- Heq. apply list_elem_of_fmap. by exists c.
Qed.

Lemma removeCard_self card : removeCard card [card] = [].
Proof. unfold removeCard. by rewrite filter_cons_False, filter_nil by (intros H; by apply H). Qed.

Lemma removeCard_unique card cards :
  NoDup (Card.id <$> cards) → card ∈ cards → removeCard card cards ++ [card] ≡ₚ cards.
Proof.
  intros Hnodup (l1 & l2 & ->)%list_elem_of_split.
  rewrite fmap_app, fmap_cons in Hnodup.
  apply NoDup_app in Hnodup as (_ & Hl1 & [Hl2 _]%NoDup_cons).
  unfold removeCard. rewrite filter_app, (filter_cons_False _ card) by (intros H; by apply H).
  fold (removeCard card l1) (removeCard card l2).
  rewrite !removeCard_other; [by rewrite <- app_assoc, (Permutation_app_comm l2)|done|].
  intros Hin. apply (Hl1 _ Hin). left.
Qed.

(** X20: moving a drafted card to the sideboard and back again restores
    the sideboard and keeps the drafted cards (the card moves to their end),
    provided the drafted cards have distinct identifiers and no card of the
    sideboard has the identifier of the card; the other seats, and the
    colours and packs of the human seat, are not touched. *)
Theorem sideboard_round_trip st human others card :
  App.players st = human :: others →
  NoDup (Card.id <$> Player.draftedCards human) →
  card ∈ Player.draftedCards human →
  Card.id card ∉ (Card.id <$> Player.sideboard human) →
  ∃ human',
    App.players (moveFromSideboard card (moveToSideboard card st)) = human' :: others
    ∧ Player.sideboard human' = Player.sideboard human
    ∧ Player.draftedCards human' = removeCard card (Player.draftedCards human) ++ [card]
    ∧ Player.draftedCards human' ≡ₚ Player.draftedCards human
    ∧ Player.id human' = Player.id human
    ∧ Player.colors human' = Player.colors human
    ∧ Player.packs human' = Player.packs human.
Proof.
  intros Hplayers Hnodup Hcard Hfresh.
  unfold moveFromSideboard, moveToSideboard. simpl.
  rewrite Hplayers, !mapHuman_cons. eexists. split; [done|]. simpl.
  unfold removeCard at 1. rewrite filter_app. fold (removeCard card (Player.sideboard human)).
  fold (removeCard card [card]).
  rewrite removeCard_self, app_nil_r, removeCard_other by done.
  split; [done|]. split; [done|]. split; [by apply removeCard_unique|done].
Qed.

Lemma sideboard_round_trip_witness :
  let card := Sample.colored "b" [U] in
  let human := Player.mk "human" [W; U] [Sample.colored "a" [W]; card] [] [] in
  let st := App.setPlayers [human; Sample.whiteBlueSeat] App.initial in
  ∃ human',
    App.players (moveFromSideboard card (moveToSideboard card st))
    = human' :: [Sample.whiteBlueSeat]
    ∧ Player.sideboard human' = Player.sideboard human
    ∧ Player.draftedCards human' = removeCard card (Player.draftedCards human) ++ [card]
    ∧ Player.draftedCards human' ≡ₚ Player.draftedCards human
    ∧ Player.id human' = Player.id human
    ∧ Player.colors human' = Player.colors human
    ∧ Player.packs human' = Player.packs human.
Proof.
  intros card human st. apply (sideboard_round_trip st human [Sample.whiteBlueSeat] card).
  - reflexivity.
  - apply (bool_decide_unpack (NoDup _)). vm_compute. exact I.
  - right. left.
  - simpl. apply not_elem_of_nil.
Defined.

Lemma removeFromDeck_absent card builtDeck :
  Card.id card ∉ (Card.id <$> removeFromDeck card builtDeck).
Proof.
  intros (c & Hid & Hc)%list_elem_of_fmap.
  apply list_elem_of_filter in Hc as [Hne _]. by apply Hne.
Qed.

Lemma addToDeck_fresh card builtDeck :
  Card.id card ∉ (Card.id <$> builtDeck) → addToDeck card builtDeck = builtDeck ++ [card].
Proof.
  intros Hfresh. unfold addToDeck.
  destruct (existsb _ builtDeck) eqn:Hsome; [|done]. exfalso.
  apply existsb_exists in Hsome as (c & Hc & Hid). apply bool_decide_eq_true in Hid.
  apply Hfresh. rewrite <- Hid. apply list_elem_of_fmap. exists c.
  split; [done|]. by apply list_elem_of_In.
Qed.

(** X21: the deck builder keeps identifiers unique: adding, removing and
    sorting turn a deck without a repeated identifier into one.  Adding a
    card whose identifier is in the deck changes nothing, so adding twice is
    adding once; removing leaves no card with the identifier; removing a
    card just added to a deck that did not have its identifier gives the
    deck back. *)
Theorem deck_builder_identifiers card criteria builtDeck :
  (NoDup (Card.id <$> builtDeck) →
   NoDup (Card.id <$> addToDeck card builtDeck)
   ∧ NoDup (Card.id <$> removeFromDeck card builtDeck)
   ∧ NoDup (Card.id <$> sortDeck criteria builtDeck))
  ∧ addToDeck card (addToDeck card builtDeck) = addToDeck card builtDeck
  ∧ (Card.id card ∉ (Card.id <$> removeFromDeck card builtDeck))
  ∧ (Card.id card ∉ (Card.id <$> builtDeck) →
     removeFromDeck card (addToDeck card builtDeck) = builtDeck).
Proof.
  split; [|split; [|split]].
  - intros Hnodup. split; [by apply addToDeck_NoDup|].
    split; [by apply removeFromDeck_NoDup|by apply sortDeck_NoDup].
  - destruct (decide (Card.id card ∈ Card.id <$> builtDeck)) as [Hin|Hfresh].
    + by rewrite !(addToDeck_present card builtDeck Hin).
    + rewrite (addToDeck_fresh _ builtDeck) by done. apply addToDeck_present.
      rewrite fmap_app. apply elem_of_app. right. left.
  - apply removeFromDeck_absent.
  - intros Hfresh. rewrite addToDeck_fresh by done. unfold removeFromDeck, removeCard.
    rewrite filter_app. fold (removeCard card builtDeck) (removeCard card [card]).
    by rewrite removeCard_self, app_nil_r, removeCard_other.
Qed.

Lemma deck_builder_identifiers_witness :
  let card := Sample.colored "d" [G] in
  NoDup (Card.id <$> addToDeck card Sample.redDeck)
  ∧ removeFromDeck card (addToDeck card Sample.redDeck) = Sample.redDeck.
Proof.
  destruct (deck_builder_identifiers (Sample.colored "d" [G]) "cmc" Sample.redDeck)
    as (Hnodup & _ & _ & Hback).
  split.
  - apply Hnodup. apply (bool_decide_unpack (NoDup _)). vm_compute. exact I.
  - apply Hback. apply (bool_decide_unpack (_ ∉ _)). vm_compute. exact I.
Defined.

(** ** Suggested lands and the suggested pick *)

Lemma occurrences_colourless color deck :
  Forall (λ card, default [] (Card.colors card) = []) deck → occurrences color deck = 0.
Proof.
  unfold occurrences. induction 1 as [|card deck Hcard _ IH]; [done|].
  csimpl. by rewrite Hcard.
Qed.

(** X22: [suggestLands] adds no land to a deck whose cards carry no colour
    symbol, the empty deck among them: the deck stays as it is. *)
Theorem suggestLands_colourless builtDeck :
  Forall (λ card, default [] (Card.colors card) = []) builtDeck →
  suggestLands builtDeck = builtDeck.
Proof.
  intros Hcolourless. unfold suggestLands, suggestedLands.
  rewrite countColors_occurrences.
  rewrite (list_fmap_ext _ (λ c, (c, 0)) colorSymbols)
    by (intros _ c _; by rewrite occurrences_colourless).
  vm_compute concat. apply app_nil_r.
Qed.

Lemma suggestLands_colourless_witness :
  suggestLands [] = []
  ∧ suggestLands [Sample.colored "a" []] = [Sample.colored "a" []].
Proof.
  split.
  - apply (suggestLands_colourless []). constructor.
  - apply (suggestLands_colourless [Sample.colored "a" []]). by repeat constructor.
Defined.

Section SuggestFacts.
Context (cardStats : gmap string Stats.t) (colorPairStats : gmap string float).

Lemma suggestPick_cases st :
  (∀ x, suggestPick cardStats colorPairStats (App.setSuggestedCardId x st)
        = App.setSuggestedCardId x st)
  ∨ ∃ id, ∀ x,
      suggestPick cardStats colorPairStats (App.setSuggestedCardId x st)
      = App.setSuggestedCardId (if bool_decide (x = Some id) then None else Some id) st.
Proof.
  unfold suggestPick. simpl.
  destruct (head (App.players st)) as [humanPlayer|]; [|by left].
  destruct (packAt humanPlayer (App.currentRound st)) as [currentPack|]; [|by left].
  destruct (0 <? length currentPack); [|by left].
  destruct (aiPickCard _ _ currentPack humanPlayer) as [suggested|]; [|by left].
  right. exists (Card.id suggested). intros x. by destruct (bool_decide _).
Qed.

(** X23: "Suggest Pick" changes nothing but the highlighted card.  Clicked
    with no card highlighted and clicked again, it leaves the state as it
    was; from any state, the third click gives what the first gave. *)
Theorem suggestPick_toggles st :
  let click := suggestPick cardStats colorPairStats in
  click st = App.setSuggestedCardId (App.suggestedCardId (click st)) st
  ∧ (App.suggestedCardId st = None → click (click st) = st)
  ∧ click (click (click st)) = click st.
Proof.
  intros click. unfold click.
  destruct st as [cards players round index complete code loading history highlighted deck].
  set (state := λ x, App.mk cards players round index complete code loading history x deck).
  change (App.mk cards players round index complete code loading history highlighted deck)
    with (state highlighted).
  destruct (suggestPick_cases (state highlighted)) as [Hsame|[id Htoggle]].
  - change (∀ x, suggestPick cardStats colorPairStats (state x) = state x) in Hsame.
    rewrite !Hsame. split; [reflexivity|]. split; [intros _; reflexivity|reflexivity].
  - change (∀ x, suggestPick cardStats colorPairStats (state x)
                 = state (if bool_decide (x = Some id) then None else Some id)) in Htoggle.
    rewrite !Htoggle. split; [reflexivity|]. split.
    + simpl. intros ->. rewrite (bool_decide_eq_false_2 (None = Some id)) by done.
      by rewrite (bool_decide_eq_true_2 (Some id = Some id)).
    + destruct (bool_decide (highlighted = Some id)).
      * rewrite (bool_decide_eq_false_2 (None = Some id)) by done.
        by rewrite (bool_decide_eq_true_2 (Some id = Some id)).
      * rewrite (bool_decide_eq_true_2 (Some id = Some id)) by done.
        by rewrite (bool_decide_eq_false_2 (None = Some id)).
Qed.
End SuggestFacts.

Lemma suggestPick_toggles_witness :
  suggestPick ∅ ∅ (suggestPick ∅ ∅ Sample.draftStart) = Sample.draftStart
  ∧ App.suggestedCardId (suggestPick ∅ ∅ Sample.draftStart) = Some "rare-0".
Proof.
  split; [|vm_compute; reflexivity].
  assert (Hnone : App.suggestedCardId Sample.draftStart = None) by (vm_compute; reflexivity).
  exact (proj1 (proj2 (suggestPick_toggles ∅ ∅ Sample.draftStart)) Hnone).
Defined.

(** ** Snapshots are JSON values *)

Lemma jsonNumber_jsonSafe x y : jsonNumber x = Some y → jsonSafe y.
Proof.
  unfold jsonNumber, jsonSafe.
  destruct (is_nan x || is_infinity x) eqn:Hspecial; [done|].
  destruct (is_zero x && get_sign x) eqn:Hminus; intros [= <-]; [by vm_compute|].
  by rewrite Hspecial, Hminus.
Qed.

Lemma jsonCard_jsonSafe c : jsonSafeCard (jsonCard c).
Proof.
  unfold jsonSafeCard. simpl. destruct (Card.cmc c) as [x|]; [|done]. simpl.
  destruct (jsonNumber x) as [y|] eqn:Hy; [|done]. by eapply jsonNumber_jsonSafe.
Qed.

Lemma jsonCards_jsonSafe cs : forallb jsonSafeCard (jsonCard <$> cs).
Proof.
  induction cs as [|c cs IH]; [done|]. csimpl.
  apply andb_True. split; [apply jsonCard_jsonSafe|done].
Qed.

Lemma jsonPlayer_jsonSafe p : jsonSafePlayer (jsonPlayer p).
Proof.
  unfold jsonSafePlayer. simpl. rewrite !andb_True.
  split; [split; apply jsonCards_jsonSafe|].
  induction (Player.packs p) as [|pack packs IH]; [done|]. csimpl.
  apply andb_True. split; [apply jsonCards_jsonSafe|done].
Qed.

Lemma jsonPlayers_jsonSafe players : forallb jsonSafePlayer (jsonPlayer <$> players).
Proof.
  induction players as [|p players IH]; [done|]. csimpl.
  apply andb_True. split; [apply jsonPlayer_jsonSafe|done].
Qed.

Section SnapshotFacts.
Context (cardStats : gmap string Stats.t) (colorPairStats : gmap string float).

Lemma step_snapshots_jsonSafe st st' :
  step cardStats colorPairStats st st' →
  Forall (λ snapshot, forallb jsonSafePlayer (Snapshot.players snapshot)) (App.draftHistory st) →
  Forall (λ snapshot, forallb jsonSafePlayer (Snapshot.players snapshot)) (App.draftHistory st').
Proof.
  intros Hstep Hst. destruct Hstep; try done.
  - pose proof (handlePick_cases cardStats colorPairStats st card) as Hcases.
    simpl in Hcases.
    assert (Hpushed : Forall (λ snapshot, forallb jsonSafePlayer (Snapshot.players snapshot))
              (lastN 5 (App.draftHistory st
                        ++ [Snapshot.mk (jsonPlayer <$> App.players st)
                              (App.currentPackIndex st)]))).
    { apply Forall_drop, Forall_app. split; [done|].
      constructor; [apply jsonPlayers_jsonSafe|done]. }
    destruct Hcases as [H|[H|[H|H]]].
    + destruct H as (_ & _ & _ & _ & ->). done.
    + destruct H as (_ & _ & ->). constructor.
    + destruct H as (_ & _ & ->). constructor.
    + destruct H as (_ & _ & _ & ->). done.
  - unfold undoClick. destruct (0 <? _); [|done]. destruct (last _); [|done].
    simpl. by apply Forall_take.
  - rewrite <- undoClick_handleUndo.
    unfold undoClick. destruct (0 <? _); [|done]. destruct (last _); [|done].
    simpl. by apply Forall_take.
  - unfold suggestPick. by repeat case_match.
  - unfold changeSet. destruct (decide _); [done|]. constructor.
  - unfold cardsFetched. by repeat case_match.
Qed.

(** X24: the seats that a pick stores for undo are JSON values, in every
    state the application can reach: copying them again changes nothing,
    so what "Undo Pick" puts back is a state from which a pick followed by
    an undo comes back exactly. *)
Theorem snapshots_are_json st :
  reachable cardStats colorPairStats st →
  Forall (λ snapshot,
            forallb jsonSafePlayer (Snapshot.players snapshot)
            ∧ jsonPlayer <$> Snapshot.players snapshot = Snapshot.players snapshot)
    (App.draftHistory st)
  ∧ (App.draftHistory st ≠ [] → forallb jsonSafePlayer (App.players (undoClick st))).
Proof.
  intros Hreach.
  assert (Hsafe : Forall (λ snapshot, forallb jsonSafePlayer (Snapshot.players snapshot))
                    (App.draftHistory st)).
  { revert st Hreach. apply (rtc_ind_r (λ st, Forall _ (App.draftHistory st))).
    - constructor.
    - intros st st' _ Hstep Hst. by eapply step_snapshots_jsonSafe. }
  split.
  - eapply Forall_impl; [done|]. intros snapshot Hsnapshot. split; [done|].
    by apply jsonPlayers_safe.
  - intros Hhistory. unfold undoClick.
    destruct (App.draftHistory st) as [|oldest history] eqn:Hst; [done|].
    simpl length. simpl Nat.ltb.
    destruct (last (oldest :: history)) as [lastState|] eqn:Hlast;
      [|by apply last_None in Hlast].
    simpl. apply last_Some in Hlast as [history' Hlast]. rewrite Hlast in Hsafe.
    by apply Forall_app in Hsafe as [_ [? _]%Forall_cons].
Qed.
End SnapshotFacts.

Lemma snapshots_are_json_witness :
  let st := Sample.afterPicks 3 in
  App.draftHistory st ≠ [] ∧ forallb jsonSafePlayer (App.players (undoClick st)).
Proof.
  assert (Hhistory : App.draftHistory (Sample.afterPicks 3) ≠ [])
    by (vm_compute; discriminate).
  split; [exact Hhistory|].
  exact (proj2 (snapshots_are_json ∅ ∅ (Sample.afterPicks 3) (afterPicks_reachable 3)) Hhistory).
Defined.

(** ** No card is lost in a pick *)

Lemma bind_Forall2_Permutation {A B C} (f : A → list C) (g : B → list C) l k :
  Forall2 (λ x y, f x ≡ₚ g y) l k → l ≫= f ≡ₚ k ≫= g.
Proof. induction 1 as [|x y l k Hxy _ IH]; [done|]. by rewrite !bind_cons, Hxy, IH. Qed.

Lemma cardsInPlay_split players round packs :
  mapM (λ p, packAt p round) players = Some packs →
  cardsInPlay players round ≡ₚ (players ≫= Player.draftedCards) ++ (packs ≫= id).
Proof.
  intros Hpacks%mapM_Some_1. unfold cardsInPlay.
  induction Hpacks as [|p pack players packs Hpack _ IH]; [done|].
  simpl in Hpack. rewrite !bind_cons, IH. simpl. rewrite Hpack. simpl. solve_Permutation.
Qed.

Lemma passPacks_cardsInPlay players round players' :
  passPacks players round = Some players' →
  (∀ p pack, p ∈ players → packAt p round = Some pack → landCount pack ≤ 1) →
  cardsInPlay players' round ≡ₚ cardsInPlay players round.
Proof.
  intros Hpass Hsingle.
  pose proof Hpass as (packs & Hpacks & Hlen & Hall)%passPacks_inv.
  pose proof (passPacks_round_packs _ _ _ _ Hpacks Hpass) as Hpacks'.
  rewrite trimLands_single_all in Hpacks'.
  2: { apply Forall_forall. intros pack Hpack%elem_of_rotate.
       apply mapM_Some_1 in Hpacks.
       apply list_elem_of_lookup in Hpack as [i Hi].
       destruct (Forall2_lookup_r _ _ _ _ _ Hpacks Hi) as (p & Hp & Hpack).
       eapply Hsingle; [|done]. by eapply list_elem_of_lookup_2. }
  rewrite (cardsInPlay_split _ _ _ Hpacks), (cardsInPlay_split _ _ _ Hpacks').
  rewrite rotate_Permutation. apply Permutation_app; [|done].
  apply bind_Forall2_Permutation, Forall2_same_length_lookup. split; [done|].
  intros i p' p Hp' Hp. destruct (Hall i p Hp) as (pack & _ & _ & Hi).
  rewrite Hp' in Hi. injection Hi as ->.
  by destruct (setPack_frame p round (trimLands pack)) as (_ & _ & -> & _).
Qed.

Lemma draftCard_cards round card pack p :
  packAt p round = Some pack → NoDup (Card.id <$> pack) → card ∈ pack →
  packAt (draftCard round card pack p) round = Some (removeCard card pack)
  ∧ Player.draftedCards (draftCard round card pack p) ++ removeCard card pack
    ≡ₚ Player.draftedCards p ++ pack.
Proof.
  intros Hpack Hnodup Hcard. split.
  - unfold draftCard.
    change (packAt (updatePlayerColors ?q) round) with (packAt q round).
    apply packAt_setPack. change (is_Some (packAt p round)). by rewrite Hpack.
  - destruct (draftCard_fields round card pack p) as (_ & _ & ->).
    rewrite <- (removeCard_unique card pack) at 2 by done. solve_Permutation.
Qed.

Section ConservationFacts.
Context (cardStats : gmap string Stats.t) (colorPairStats : gmap string float).

Lemma aiTurn_cards round aiPlayer aiPlayer' aiPack :
  aiTurn cardStats colorPairStats round aiPlayer = Some aiPlayer' →
  packAt aiPlayer round = Some aiPack → NoDup (Card.id <$> aiPack) →
  ∃ aiPack',
    packAt aiPlayer' round = Some aiPack'
    ∧ landCount aiPack' ≤ landCount aiPack
    ∧ Player.draftedCards aiPlayer' ++ aiPack' ≡ₚ Player.draftedCards aiPlayer ++ aiPack.
Proof.
  unfold aiTurn. intros Hturn Hpack Hnodup. rewrite Hpack in Hturn. simpl in Hturn.
  destruct (0 <? length aiPack); [|injection Hturn as <-; by exists aiPack].
  destruct (aiPickCard _ _ aiPack aiPlayer) as [aiCard|] eqn:Hpick;
    [|injection Hturn as <-; by exists aiPack].
  injection Hturn as <-. apply aiPickCard_elem_of in Hpick.
  destruct (draftCard_cards round aiCard aiPack aiPlayer Hpack Hnodup Hpick) as [Hpack' Hcards].
  exists (removeCard aiCard aiPack). split; [done|]. split; [apply landCount_removeCard|done].
Qed.

(** X25: a pick neither loses nor doubles a card.  When the clicked card
    is in the pack of the human seat, and no pack of the round holds an
    identifier twice or two basic lands, the cards drafted by the seats
    together with the cards in their packs of the round are after the pick
    the same cards as before. *)
Theorem handlePick_conserves_cards st card st' human currentPack :
  handlePick cardStats colorPairStats st card = Returned st' →
  head (App.players st) = Some human →
  packAt human (App.currentRound st) = Some currentPack →
  card ∈ currentPack →
  (∀ p pack, p ∈ App.players st → packAt p (App.currentRound st) = Some pack →
             NoDup (Card.id <$> pack) ∧ landCount pack ≤ 1) →
  cardsInPlay (App.players st') (App.currentRound st)
  ≡ₚ cardsInPlay (App.players st) (App.currentRound st).
Proof.
  intros (Hturn & _)%handlePick_Returned Hhuman Hpack Hcard Hpacks.
  apply pickTurn_inv in Hturn
    as (humanPlayer & aiPlayers & pack & aiPlayers' & Hplayers & Hpack' & Hturns & Hpass).
  rewrite Hplayers in Hhuman, Hpacks |- *. injection Hhuman as ->.
  rewrite Hpack in Hpack'. injection Hpack' as <-.
  destruct (Hpacks human currentPack) as [Hnodup Hsingle]; [left|done|].
  destruct (draftCard_cards (App.currentRound st) card currentPack human Hpack Hnodup Hcard)
    as [Hpack' Hcards].
  apply mapM_Some_1 in Hturns.
  assert (Hais : Forall2 (λ p p', ∃ pack pack',
              packAt p (App.currentRound st) = Some pack
              ∧ packAt p' (App.currentRound st) = Some pack'
              ∧ landCount pack' ≤ 1
              ∧ Player.draftedCards p' ++ pack' ≡ₚ Player.draftedCards p ++ pack)
            aiPlayers aiPlayers').
  { apply Forall2_same_length_lookup. split; [by eapply Forall2_length|].
    intros i p p' Hp Hp'.
    destruct (Forall2_lookup_l _ _ _ _ _ Hturns Hp) as (q & Hq & Hturn).
    rewrite Hp' in Hq. injection Hq as <-.
    pose proof Hturn as (aiPack & HaiPack & _)%aiTurn_inv.
    destruct (Hpacks p aiPack) as [Hnodup' Hsingle'];
      [right; by eapply list_elem_of_lookup_2|done|].
    destruct (aiTurn_cards _ _ _ _ Hturn HaiPack Hnodup') as (aiPack' & ? & ? & ?).
    exists aiPack, aiPack'. repeat (split; [done|]). split; [lia|done]. }
  rewrite (passPacks_cardsInPlay _ _ _ Hpass).
  - unfold cardsInPlay. rewrite !bind_cons, Hpack', Hpack. simpl.
    apply Permutation_app; [done|].
    apply bind_Forall2_Permutation. apply Forall2_flip.
    eapply Forall2_impl; [done|]. simpl.
    intros p p' (aiPack & aiPack' & -> & -> & _ & Hperm). done.
  - intros p pack' [->|Hp]%elem_of_cons Hp'.
    + rewrite Hpack' in Hp'. injection Hp' as <-.
      etrans; [apply landCount_removeCard|done].
    + apply list_elem_of_lookup in Hp as [i Hi].
      destruct (Forall2_lookup_r _ _ _ _ _ Hais Hi) as (q & _ & aiPack & aiPack' & _ & Hq & ? & _).
      rewrite Hp' in Hq. by injection Hq as <-.
Qed.
End ConservationFacts.

Lemma handlePick_conserves_cards_witness :
  let st := Sample.draftStart in
  let card := Sample.card "rare-0" "rare" "Sorcery" [R] in
  let st' := committed (handlePick ∅ ∅ st card) in
  cardsInPlay (App.players st') (App.currentRound st)
  ≡ₚ cardsInPlay (App.players st) (App.currentRound st).
Proof.
  intros st card st'.
  assert (Hplayers : ∃ human others, App.players st = human :: others
                                     ∧ packAt human 1 = Some (JS.sort rarityAfter (packAttempt Sample.draw Sample.pool))).
  { eexists _, _. split; vm_compute; reflexivity. }
  destruct Hplayers as (human & others & Hplayers & Hpack).
  apply (handlePick_conserves_cards ∅ ∅ st card st' human
           (JS.sort rarityAfter (packAttempt Sample.draw Sample.pool))).
  - vm_compute. reflexivity.
  - by rewrite Hplayers.
  - exact Hpack.
  - apply list_elem_of_In. vm_compute. tauto.
  - intros p pack Hp Hpack'.
    assert (Hall : Forall (λ p, ∀ pack, packAt p 1 = Some pack →
                                  NoDup (Card.id <$> pack) ∧ landCount pack ≤ 1)
                     (App.players st)).
    { vm_compute App.players. repeat (constructor; [intros ? [= <-]; split;
        [apply (bool_decide_unpack (NoDup _)); vm_compute; exact I|vm_compute; lia]|]).
      constructor. }
    eapply Forall_forall in Hall; [|done]. by apply Hall.
Defined.
